(** * Bibliography reconciliation scripts: a shallow embedding

    The development follows three scripts of the repository:
    - [clean_publications_v5.py]  (modules [Clean], [ExtractEntries],
      [SortEntries]):  brace-balanced field tokenizer, author filter, DOI
      deduplication, citation keys, serializer; the reader of the entries
      of a file; the final sort;
    - [audit_publications.py]     (modules [Audit], [Incomplete]):  title
      normalizer, whole-string similarity, duplicate report; the report of
      incomplete entries;
    - [merge_pdfs_v3.py]          (modules [Merge], [MergeMain]):  title
      normalizer, significant words, word-overlap matcher; the loop that
      attaches the links.
    The scripts call [re] and [difflib] of the Python standard library: each
    regular expression is written out as the scanner it stands for, and
    [difflib.SequenceMatcher] is followed in module [Difflib].

    Python strings are modelled as lists of characters.  A character is an
    [ascii], read as a Python code point in the range 0..255; the character
    classes used by [str.lower], [str.strip], [str.split], [str.isdigit] and
    by the [re] classes [\w], [\s], [\d] are those of Python 3 on that range.
    Code points above 255 are outside the model.

    Dictionaries whose order is observed ([fields]) are association lists in
    insertion order; the others ([key_counts], [seen_dois], the entries of
    [bibtexparser]) are [gmap]s, sets are [gset]s. *)

From Stdlib Require Import QArith Ascii String.
From stdpp Require Import gmap strings list fin_maps.

Open Scope nat_scope.
Open Scope list_scope.

Abbreviation str := (list ascii).

(** Literals: [py "abc"] is the Python string ['abc']. *)
Definition py (s : string) : str := list_ascii_of_string s.

(** ** Python string primitives *)
Module Py.

Definition code (c : ascii) : nat := nat_of_ascii c.

Definition between (lo hi : nat) (c : ascii) : bool :=
  (lo <=? code c) && (code c <=? hi).

Definition is_upper_az (c : ascii) : bool := between 65 90 c.
Definition is_lower_az (c : ascii) : bool := between 97 122 c.
Definition is_az (c : ascii) : bool := is_upper_az c || is_lower_az c.
(** [\d] and [[0-9]] *)
Definition is_09 (c : ascii) : bool := between 48 57 c.
(** [[a-zA-Z0-9]] *)
Definition is_alnum_ascii (c : ascii) : bool := is_az c || is_09 c.

(** [str.isspace], [\s], and the separators of [str.split()] and
    [str.strip()]. *)
Definition is_space (c : ascii) : bool :=
  between 9 13 c || between 28 32 c || (code c =? 133) || (code c =? 160).

(** [\w]: alphanumeric code points and the underscore. *)
Definition is_word (c : ascii) : bool :=
  is_alnum_ascii c || (code c =? 95)
  || (code c =? 170) || between 178 179 c || (code c =? 181)
  || between 185 186 c || between 188 190 c
  || between 192 214 c || between 216 246 c || between 248 255 c.

(** [str.isdigit] on one character. *)
Definition isdigit (c : ascii) : bool :=
  is_09 c || between 178 179 c || (code c =? 185).

(** [str.lower] on one character. *)
Definition lower_char (c : ascii) : ascii :=
  if is_upper_az c || between 192 214 c || between 216 222 c
  then ascii_of_nat (code c + 32) else c.

(** [str.lower].  On the code points 0..255 Python lowers a string one
    character at a time, as here.  Beyond them it does not: the capital I
    with dot above (U+0130) becomes two code points, [i] and a combining dot
    that is not a word character, and the Kelvin sign (U+212A) becomes [k].
    What is proved below with [lower] is proved of texts in the range of
    the model. *)
Definition lower (s : str) : str := map lower_char s.

(** [chr(n)], for [n] below 256. *)
Definition chr (n : nat) : ascii := ascii_of_nat n.

Definition eqc (a b : ascii) : bool := Ascii.eqb a b.

(** The double quote character. *)
Definition dquote : ascii := ascii_of_nat 34.

Fixpoint lstrip (s : str) : str :=
  match s with
  | c :: t => if is_space c then lstrip t else s
  | [] => []
  end.

Definition rstrip (s : str) : str := rev (lstrip (rev s)).

Definition strip (s : str) : str := rstrip (lstrip s).

(** [s.startswith(p)] *)
Fixpoint startswith (p s : str) : bool :=
  match p, s with
  | [], _ => true
  | a :: p', b :: s' => eqc a b && startswith p' s'
  | _ :: _, [] => false
  end.

(** [p in s] *)
Fixpoint contains (p s : str) : bool :=
  startswith p s ||
  match s with
  | [] => false
  | _ :: t => contains p t
  end.

(** [s.split(sep)[0]] for a non-empty separator: the text before the first
    occurrence of [sep], or all of [s]. *)
Fixpoint split_first (sep s : str) : str :=
  match s with
  | [] => []
  | c :: t => if startswith sep s then [] else c :: split_first sep t
  end.

(** [s.split()]: the maximal runs of non-whitespace characters.  [cur] is
    the run being read, reversed. *)
Fixpoint split_go (cur : str) (s : str) : list str :=
  match s with
  | [] => match cur with [] => [] | _ => [rev cur] end
  | c :: t =>
      if is_space c
      then match cur with [] => split_go [] t | _ => rev cur :: split_go [] t end
      else split_go (c :: cur) t
  end.

Definition split (s : str) : list str := split_go [] s.

(** [sep.join(ws)] *)
Fixpoint join (sep : str) (ws : list str) : str :=
  match ws with
  | [] => []
  | [w] => w
  | w :: rest => w ++ sep ++ join sep rest
  end.

(** [s.find(c, start)] for a one-character needle: [None] stands for -1. *)
Fixpoint find_from (c : ascii) (s : str) (start : nat) : option nat :=
  match start, s with
  | S k, _ :: t => S <$> find_from c t k
  | S _, [] => None
  | 0, [] => None
  | 0, d :: t => if eqc c d then Some 0 else S <$> find_from c t 0
  end.

(** [s[a:b]] for [0 <= a], [0 <= b]. *)
Definition slice (s : str) (a b : nat) : str := take (b - a) (drop a s).

(** [s[-n:]] *)
Definition last_n (n : nat) (s : str) : str := drop (length s - n) s.

(** Driver of [re.sub] for patterns that never match the empty string:
    [m s] tells whether the pattern matches at the head of [s], and then
    gives the replacement text and the length of the match.  Matches are
    taken leftmost first and do not overlap. *)
Fixpoint sub_go (m : str -> option (str * nat)) (skip : nat) (s : str) : str :=
  match s with
  | [] => []
  | c :: t =>
      match skip with
      | S k => sub_go m k t
      | 0 =>
          match m s with
          | Some (r, S n) => r ++ sub_go m n t
          | _ => c :: sub_go m 0 t
          end
      end
  end.

Definition re_sub (m : str -> option (str * nat)) (s : str) : str := sub_go m 0 s.

(** [s.replace(old, new)] for a non-empty [old]. *)
Definition replace (old new s : str) : str :=
  re_sub (fun u => if startswith old u then Some (new, length old) else None) s.

(** [re.sub(r'\s+', ' ', s)]: [inrun] tells whether the previous character
    was whitespace. *)
Fixpoint collapse_go (inrun : bool) (s : str) : str :=
  match s with
  | [] => []
  | c :: t =>
      if is_space c
      then (if inrun then collapse_go true t else " "%char :: collapse_go true t)
      else c :: collapse_go false t
  end.

Definition collapse_spaces (s : str) : str := collapse_go false s.

(** [s] does not start with white space. *)
Definition hd_ok (s : str) : Prop :=
  match s with c :: _ => is_space c = false | [] => True end.

(** Length of the longest prefix whose characters satisfy [p]. *)
Fixpoint span_len (p : ascii -> bool) (s : str) : nat :=
  match s with
  | c :: t => if p c then S (span_len p t) else 0
  | [] => 0
  end.

End Py.

(** ** merge_pdfs_v3.py *)
Module Merge.
Import Py.

(** First substitution of [normalize_title], a LaTeX command with its
    argument, matched at the head of [s]: a backslash, a maximal run of
    letters [a-zA-Z], an opening brace, the text up to the next closing
    brace (group 1, any characters but a closing brace), the closing brace.
    The replacement is group 1. *)
Definition match_command_group (s : str) : option (str * nat) :=
  match s with
  | "\"%char :: t =>
      let n := span_len is_az t in
      match n, drop n t with
      | S _, "{"%char :: u =>
          let k := span_len (fun c => negb (eqc c "}"%char)) u in
          match drop k u with
          | "}"%char :: _ => Some (take k u, 1 + n + 1 + k + 1)
          | _ => None
          end
      | _, _ => None
      end
  | _ => None
  end.

(** Second substitution: a backslash and a maximal non-empty run of letters
    at the head of [s], replaced by nothing. *)
Definition match_command (s : str) : option (str * nat) :=
  match s with
  | "\"%char :: t =>
      match span_len is_az t with
      | S n => Some ([], 1 + S n)
      | 0 => None
      end
  | _ => None
  end.

Definition is_brace_or_backslash (c : ascii) : bool :=
  eqc c "{"%char || eqc c "}"%char || eqc c "\"%char.

Definition normalize_title (title : str) : str :=
  match title with
  | [] => []
  | _ =>
      let title := re_sub match_command_group title in
      let title := re_sub match_command title in
      let title := filter (fun c => negb (is_brace_or_backslash c)) title in
      let title := map (fun c => if is_alnum_ascii c || is_space c then c else " "%char) title in
      let title := collapse_spaces title in
      strip (lower title)
  end.

Definition stopwords : list str :=
  map py ["the"; "a"; "an"; "of"; "in"; "on"; "for"; "to"; "and"; "with"; "by";
          "from"; "at"; "as"; "is"; "are"; "was"; "were"]%string.

Definition get_title_words (title : str) : list str :=
  let normalized := normalize_title title in
  let words := split normalized in
  filter (fun w => negb (bool_decide (w ∈ stopwords)) && (2 <? length w)) words.

(** [overlap / min_len >= threshold].  The threshold is the rational its
    literal denotes, and the quotient of the two counts is compared exactly;
    the floating-point quotient compares in the same way for word counts
    below 10^13. *)
Definition ratio_ge (overlap min_len : nat) (threshold : Q) : bool :=
  Qle_bool threshold (Z.of_nat overlap # Pos.of_nat min_len).

Definition titles_match (title1 title2 : str) (threshold : Q) : bool :=
  let words1 : gset str := list_to_set (get_title_words title1) in
  let words2 : gset str := list_to_set (get_title_words title2) in
  if bool_decide (words1 = ∅) || bool_decide (words2 = ∅) then false
  else
    let overlap := size (words1 ∩ words2) in
    let min_len := Nat.min (size words1) (size words2) in
    if min_len <? 3 then false
    else ratio_ge overlap min_len threshold.

Definition default_threshold : Q := 6 # 10.

End Merge.

(** ** difflib.SequenceMatcher (Python standard library)

    [SequenceMatcher(None, a, b)]: no junk predicate, [autojunk] left at its
    default.  Only what [ratio()] needs is modelled. *)
Module Difflib.
Import Py.

(** [b2j[c]] before purging: the indices of [c] in [b], increasing. *)
Fixpoint indices_from (j : nat) (b : str) (c : ascii) : list nat :=
  match b with
  | [] => []
  | d :: t => if eqc c d then j :: indices_from (S j) t c else indices_from (S j) t c
  end.

(** Popular elements: purged from [b2j] when [b] has 200 elements or more. *)
Definition popular (b : str) (c : ascii) : bool :=
  (200 <=? length b) && (length b / 100 + 1 <? length (indices_from 0 b c)).

(** [b2j.get(c, [])] *)
Definition b2j (b : str) (c : ascii) : list nat :=
  if popular b c then [] else indices_from 0 b c.

Record best := Best { besti : nat; bestj : nat; bestsize : nat }.

(** The inner loop of [find_longest_match] over the indices [j] of [a[i]] in
    [b]: skip those below [blo], stop at the first one at or above [bhi]. *)
Fixpoint scan_js (i blo bhi : nat) (j2len : gmap nat nat) (js : list nat)
    (newj2len : gmap nat nat) (bst : best) : gmap nat nat * best :=
  match js with
  | [] => (newj2len, bst)
  | j :: rest =>
      if j <? blo then scan_js i blo bhi j2len rest newj2len bst
      else if bhi <=? j then (newj2len, bst)
      else
        let k := match j with
                 | 0 => 0
                 | S j' => default 0 (j2len !! j')
                 end + 1 in
        let bst' := if bestsize bst <? k then Best (i + 1 - k) (j + 1 - k) k else bst in
        scan_js i blo bhi j2len rest (<[j := k]> newj2len) bst'
  end.

(** The outer loop, over [i] in [range(alo, ahi)]; [a_rest] is [a[i:]] and
    [n] the number of rows left. *)
Fixpoint scan_rows (b : str) (blo bhi : nat) (n i : nat) (a_rest : str)
    (j2len : gmap nat nat) (bst : best) : best :=
  match n, a_rest with
  | S n', ai :: a' =>
      let '(newj2len, bst') := scan_js i blo bhi j2len (b2j b ai) ∅ bst in
      scan_rows b blo bhi n' (S i) a' newj2len bst'
  | _, _ => bst
  end.

(** First extension loop: grow the block to the left while the elements
    before it agree.  No element is junk. *)
Fixpoint extend_left (a b : str) (alo blo : nat) (bi bj bsz : nat) {struct bi} : best :=
  match bi, bj with
  | S i', S j' =>
      if (alo <? bi) && (blo <? bj) && bool_decide (a !! i' = b !! j')
      then extend_left a b alo blo i' j' (S bsz)
      else Best bi bj bsz
  | _, _ => Best bi bj bsz
  end.

(** Second extension loop: grow the block to the right.  [fuel] is
    [ahi - (besti + bestsize)], which the loop condition never exceeds. *)
Fixpoint extend_right (fuel : nat) (a b : str) (ahi bhi : nat) (bi bj bsz : nat) : best :=
  match fuel with
  | 0 => Best bi bj bsz
  | S f =>
      if (bi + bsz <? ahi) && (bj + bsz <? bhi)
         && bool_decide (a !! (bi + bsz) = b !! (bj + bsz))
      then extend_right f a b ahi bhi bi bj (S bsz)
      else Best bi bj bsz
  end.

Definition find_longest_match (a b : str) (alo ahi blo bhi : nat) : best :=
  let bst := scan_rows b blo bhi (ahi - alo) alo (drop alo a) ∅ (Best alo blo 0) in
  let bst := extend_left a b alo blo (besti bst) (bestj bst) (bestsize bst) in
  extend_right (ahi - (besti bst + bestsize bst)) a b ahi bhi
               (besti bst) (bestj bst) (bestsize bst).

(** The work list of [get_matching_blocks]; [queue.pop()] takes the entry
    pushed last, kept at the head.  [None]: out of fuel. *)
Fixpoint blocks_loop (fuel : nat) (a b : str) (queue : list (nat * nat * nat * nat))
    (matching_blocks : list best) : option (list best) :=
  match queue with
  | [] => Some matching_blocks
  | (alo, ahi, blo, bhi) :: queue' =>
      match fuel with
      | 0 => None
      | S f =>
          let x := find_longest_match a b alo ahi blo bhi in
          let '(i, j, k) := (besti x, bestj x, bestsize x) in
          if k =? 0 then blocks_loop f a b queue' matching_blocks
          else
            let q1 := if (alo <? i) && (blo <? j) then (alo, i, blo, j) :: queue' else queue' in
            let q2 := if (i + k <? ahi) && (j + k <? bhi) then (i + k, ahi, j + k, bhi) :: q1 else q1 in
            blocks_loop f a b q2 (matching_blocks ++ [x])
      end
  end.

(** The blocks found, before sorting and merging of adjacent blocks, which
    do not change the sum of the sizes. *)
Definition get_matching_blocks (a b : str) : option (list best) :=
  blocks_loop (4 * (length a + length b) + 4) a b [(0, length a, 0, length b)] [].

(** [matches] of [ratio()]: the sum of the block sizes. *)
Definition matches (a b : str) : option nat :=
  (fun l => foldr Nat.add 0 (map bestsize l)) <$> get_matching_blocks a b.

(** [_calculate_ratio(matches, length)] *)
Definition calculate_ratio (m len : nat) : Q :=
  match len with
  | 0 => 1
  | _ => Z.of_nat (2 * m) # Pos.of_nat len
  end.

Definition ratio (a b : str) : option Q :=
  (fun m => calculate_ratio m (length a + length b)) <$> matches a b.

End Difflib.

(** ** audit_publications.py *)
Module Audit.
Import Py.

Definition is_brace (c : ascii) : bool := eqc c "{"%char || eqc c "}"%char.

Definition normalize_title (title : str) : str :=
  let title := filter (fun c => negb (is_brace c)) title in
  let title := lower title in
  let title := filter (fun c => is_word c || is_space c) title in
  join (py " ") (split title).

(** [SequenceMatcher(None, a, b).ratio() >= threshold].  The threshold is
    the rational its literal denotes, and the comparison is exact; the
    floating-point quotient [2.0 * matches / length] compares with it in the
    same way as long as the two texts have fewer than 10^13 characters.
    [None]: the model of [get_matching_blocks] ran out of fuel. *)
Definition similar (a b : str) (threshold : Q) : option bool :=
  Qle_bool threshold <$> Difflib.ratio a b.

Definition default_threshold : Q := 85 # 100.

(** An entry as [bibtexparser] gives it: a dictionary from field names
    (with [ID] and [ENTRYTYPE]) to strings. *)
Abbreviation entry := (gmap str str).

(** [e.get(k, '')] *)
Definition get (e : entry) (k : string) : str := default [] (e !! py k).

(** The [type] of a pair of similar titles. *)
Inductive pair_type := preprint_published | similar_title.

(** A reported duplicate: a group of entries with one DOI, each given by
    its [ID] and the first 60 characters of its title, or a pair of entries
    with similar titles, each given by [ID], title and DOI. *)
Inductive dup :=
  | SameDoi (doi : str) (entries : list (option str * str))
  | TitlePair (kind : pair_type) (e1 e2 : option str * str * str).

(** [by_doi[doi].append(e)], groups kept in order of first insertion. *)
Fixpoint group_add (doi : str) (e : entry) (by_doi : list (str * list entry))
    : list (str * list entry) :=
  match by_doi with
  | [] => [(doi, [e])]
  | (d, g) :: rest =>
      if bool_decide (d = doi) then (d, g ++ [e]) :: rest
      else (d, g) :: group_add doi e rest
  end.

Definition group_by_doi (entries : list entry) : list (str * list entry) :=
  foldl (fun by_doi e =>
           let doi := strip (lower (get e "doi")) in
           match doi with
           | [] => by_doi
           | _ => group_add doi e by_doi
           end) [] entries.

Definition same_doi_report (by_doi : list (str * list entry)) : list dup :=
  omap (fun '(doi, group) =>
          if 1 <? length group
          then Some (SameDoi doi
                 (map (fun e => (e !! py "ID", take 60 (get e "title"))) group))
          else None) by_doi.

(** The marker test of [find_duplicates] on a lower-cased DOI. *)
Definition has_marker (doi : str) : bool :=
  contains (py "osf.io") doi || contains (py "psyarxiv") doi || contains (py "31234") doi.

(** The body of the pair loop of [find_duplicates] once [similar] has
    accepted the two titles. *)
Definition classify (e1 e2 : entry) : pair_type :=
  let doi1 := lower (get e1 "doi") in
  let doi2 := lower (get e2 "doi") in
  let is_preprint_pair := negb (Bool.eqb (has_marker doi1) (has_marker doi2)) in
  if is_preprint_pair then preprint_published else similar_title.

Definition pair_entry (e : entry) : option str * str * str :=
  (e !! py "ID", take 60 (get e "title"), get e "doi").

(** The inner loop: [e1] against every later entry.  Every pair of indices
    is visited once, so the [seen_pairs] test never rejects. *)
Fixpoint pair_row (e1 : entry) (t1 : str) (later : list (entry * str))
    : option (list dup) :=
  match later with
  | [] => Some []
  | (e2, t2) :: rest =>
      sim ← similar t1 t2 default_threshold;
      more ← pair_row e1 t1 rest;
      Some (if sim : bool
            then TitlePair (classify e1 e2) (pair_entry e1) (pair_entry e2) :: more
            else more)
  end.

Fixpoint pair_rows (titles : list (entry * str)) : option (list dup) :=
  match titles with
  | [] => Some []
  | (e1, t1) :: rest =>
      row ← pair_row e1 t1 rest;
      more ← pair_rows rest;
      Some (row ++ more)
  end.

Definition find_duplicates (entries : list entry) : option (list dup) :=
  let duplicates := same_doi_report (group_by_doi entries) in
  let titles := map (fun e => (e, normalize_title (get e "title"))) entries in
  pairs ← pair_rows titles;
  Some (duplicates ++ pairs).

Definition preprint_indicators : list str :=
  map py ["osf.io"; "psyarxiv"; "arxiv"; "31234"; "preprint"; "biorxiv"; "medrxiv"]%string.

(** The test of [find_preprints] on one entry. *)
Definition is_preprint (e : entry) : bool :=
  let doi := lower (get e "doi") in
  let url := lower (get e "url") in
  let publisher := lower (get e "publisher") in
  existsb (fun ind => contains ind doi || contains ind url || contains ind publisher)
          preprint_indicators.

Definition find_preprints (entries : list entry) : list entry :=
  filter (fun e => is_preprint e = true) entries.

End Audit.

(** ** clean_publications_v5.py *)
Module Clean.
Import Py.

(** The [while] loop of [extract_braced_content], from the character at
    [pos]: the offset of the brace that brings [depth] back to zero. *)
Fixpoint scan_braces (depth : Z) (s : str) : option nat :=
  match s with
  | [] => None
  | c :: t =>
      if eqc c "{"%char then S <$> scan_braces (depth + 1) t
      else if eqc c "}"%char then
        (if (depth - 1 =? 0)%Z then Some 0 else S <$> scan_braces (depth - 1) t)
      else S <$> scan_braces depth t
  end.

(** Returns the content, if any, and the next position. *)
Definition extract_braced_content (s : str) (start_pos : nat) : option str * nat :=
  if (length s <=? start_pos) || negb (bool_decide (s !! start_pos = Some "{"%char))
  then (None, start_pos)
  else
    match scan_braces 0 (drop start_pos s) with
    | Some k =>
        let pos := start_pos + k in
        (Some (slice s (start_pos + 1) pos), pos + 1)
    | None => (None, start_pos)
    end.

(** The nesting depth after [v], starting from depth [d]; [None] when a
    closing brace has no partner in [v]. *)
Fixpoint brace_depth (d : nat) (v : str) : option nat :=
  match v with
  | [] => Some d
  | c :: t =>
      if eqc c "{"%char then brace_depth (S d) t
      else if eqc c "}"%char then
        match d with
        | 0 => None
        | S d' => brace_depth d' t
        end
      else brace_depth d t
  end.

(** A value whose braces match. *)
Definition balanced (v : str) : Prop := brace_depth 0 v = Some 0.

(** An entry as [extract_entries] gives it. *)
Record entry := Entry {
  type : str;
  original_key : str;
  fields_str : str
}.

#[global] Instance entry_eq_dec : EqDecision entry.
Proof. solve_decision. Defined.

(** The [fields] dictionary, in insertion order. *)
Abbreviation fields := (list (str * str)).

(** [fields.get(k)] *)
Fixpoint lookup_field (k : str) (fs : fields) : option str :=
  match fs with
  | [] => None
  | (k', v) :: rest => if bool_decide (k' = k) then Some v else lookup_field k rest
  end.

(** [fields.get(k, d)] *)
Definition get (fs : fields) (k : string) (d : str) : str :=
  default d (lookup_field (py k) fs).

(** [k in fields] *)
Definition has_field (k : str) (fs : fields) : bool :=
  bool_decide (is_Some (lookup_field k fs)).

(** [if k not in fields: fields[k] = v] *)
Definition set_new (k v : str) (fs : fields) : fields :=
  if has_field k fs then fs else fs ++ [(k, v)].

(** Case-insensitive test of a lower-case literal at the head of [s]. *)
Fixpoint startswith_ci (p s : str) : bool :=
  match p, s with
  | [], _ => true
  | a :: p', b :: s' => eqc a (lower_char b) && startswith_ci p' s'
  | _ :: _, [] => false
  end.

(** The pattern of [parse_author_field] at the head of [s]: the word
    [author] in any case, white space, an equal sign, white space.  Gives
    the length of the match. *)
Definition match_author (s : str) : option nat :=
  if startswith_ci (py "author") s then
    let r1 := drop 6 s in
    let s1 := span_len is_space r1 in
    match drop s1 r1 with
    | "="%char :: r2 => Some (6 + s1 + 1 + span_len is_space r2)
    | _ => None
    end
  else None.

(** [re.search]: the end of the leftmost match. *)
Fixpoint search_author (s : str) : option nat :=
  match match_author s with
  | Some e => Some e
  | None =>
      match s with
      | [] => None
      | _ :: t => S <$> search_author t
      end
  end.

Definition parse_author_field (fields_str : str) : option str :=
  match search_author fields_str with
  | None => None
  | Some start =>
      match fields_str !! start with
      | Some c =>
          if eqc c "{"%char then fst (extract_braced_content fields_str start)
          else if eqc c dquote then
            match find_from dquote fields_str (start + 1) with
            | Some e => Some (slice fields_str (start + 1) e)
            | None => None
            end
          else None
      | None => None
      end
  end.

(** The pattern of [parse_fields] at the head of [u]: a maximal run of word
    characters (group 1), white space, an equal sign, white space.  A
    shorter run of word characters or of white space is never followed by
    the equal sign, so the greedy match is the only one.  Gives group 1 and
    the length of the match. *)
Definition match_field (u : str) : option (str * nat) :=
  match span_len is_word u with
  | 0 => None
  | w =>
      let r1 := drop w u in
      let s1 := span_len is_space r1 in
      match drop s1 r1 with
      | "="%char :: r2 => Some (take w u, w + s1 + 1 + span_len is_space r2)
      | _ => None
      end
  end.

Fixpoint search_field (u : str) : option (str * nat) :=
  match match_field u with
  | Some r => Some r
  | None =>
      match u with
      | [] => None
      | _ :: t => (fun '(g, e) => (g, S e)) <$> search_field t
      end
  end.

(** One turn of the [while] loop of [parse_fields] on the unread text
    [u = fields_str[pos:]]; positions are counted from [pos].  [None] is
    [break]; otherwise the new position and the dictionary. *)
Definition parse_step (u : str) (fs : fields) : option (nat * fields) :=
  match search_field u with
  | None => None
  | Some (name, mend) =>
      let field_name := lower name in
      let field_start := mend in
      match u !! field_start with
      | None => None
      | Some c =>
          if eqc c "{"%char then
            let '(content, next_pos) := extract_braced_content u field_start in
            Some (next_pos,
                  match content with
                  | Some v => set_new field_name v fs
                  | None => fs
                  end)
          else if eqc c dquote then
            match find_from dquote u (field_start + 1) with
            | Some e => Some (e + 1, set_new field_name (slice u (field_start + 1) e) fs)
            | None => Some (field_start + 1, fs)
            end
          else if isdigit c then
            match span_len is_09 (drop field_start u) with
            | 0 => Some (field_start + 1, fs)
            | S n => Some (field_start + S n,
                           set_new field_name (take (S n) (drop field_start u)) fs)
            end
          else Some (field_start + 1, fs)
      end
  end.

(** The [while pos < len(fields_str)] loop, by recursion on the unread
    text: [skip] characters are passed over to reach [pos].  Every turn
    moves [pos] forward (lemma [parse_step_advances] below), which is why
    the Python loop ends. *)
Fixpoint parse_loop (skip : nat) (u : str) (fs : fields) : fields :=
  match u with
  | [] => fs
  | _ :: t =>
      match skip with
      | S k => parse_loop k t fs
      | 0 =>
          match parse_step u fs with
          | None => fs
          | Some (next_pos, fs') => parse_loop (next_pos - 1) t fs'
          end
      end
  end.

(** The dictionary after the dedicated author scan: the author, when the
    scan gives a non-empty one. *)
Definition author_fields (fields_str : str) : fields :=
  match parse_author_field fields_str with
  | Some ((_ :: _) as author) => [(py "author", author)]
  | _ => []
  end.

Definition parse_fields (fields_str : str) : fields :=
  parse_loop 0 fields_str (author_fields fields_str).

Definition is_bulbulia_author (author_str : str) : bool :=
  match author_str with
  | [] => false
  | _ => contains (py "bulbulia") (lower author_str)
  end.

(** First substitution of [get_first_author_lastname], an accent command
    at the head of [s]: a backslash, one accent character, an optional
    opening brace, one letter (group 1), an optional closing brace. *)
Definition is_accent (c : ascii) : bool :=
  bool_decide (c ∈ py "'`^" ++ [dquote] ++ py "~=.uvHtcdbkroB").

Definition match_accent (s : str) : option (str * nat) :=
  let closing (t : str) := match t with "}"%char :: _ => 1 | _ => 0 end in
  match s with
  | "\"%char :: a :: t =>
      if is_accent a then
        match t with
        | "{"%char :: l :: t' =>
            if is_az l then Some ([l], 4 + closing t') else None
        | l :: t' =>
            if is_az l then Some ([l], 3 + closing t') else None
        | [] => None
        end
      else None
  | _ => None
  end.

(** Second substitution: an opening brace, a backslash, one letter
    (group 1), a closing brace. *)
Definition match_braced_letter (s : str) : option (str * nat) :=
  match s with
  | "{"%char :: "\"%char :: l :: "}"%char :: _ =>
      if is_az l then Some ([l], 4) else None
  | _ => None
  end.

Definition is_brace (c : ascii) : bool := eqc c "{"%char || eqc c "}"%char.

Definition get_first_author_lastname (author_str : str) : option str :=
  match author_str with
  | [] => None
  | _ =>
      let first_author := strip (split_first (py " and ") author_str) in
      let first_author := re_sub match_accent first_author in
      let first_author := re_sub match_braced_letter first_author in
      let first_author := filter (fun c => negb (is_brace c)) first_author in
      let last_name :=
        if contains (py ",") first_author
        then Some (strip (split_first (py ",") first_author))
        else last (split first_author) in
      match last_name with
      | None => None
      | Some last_name =>
          match filter (fun c => is_az c) last_name with
          | [] => None
          | l => Some l
          end
      end
  end.

(** [re.sub(r'^https?://(dx\.)?doi\.org/', '', doi)]: the resolver prefix,
    when [doi] starts with it, is removed. *)
Definition strip_doi_prefix (doi : str) : str :=
  let opt (p : str) (s : str) := if startswith p s then drop (length p) s else s in
  if startswith (py "http") doi then
    let r := opt (py "s") (drop 4 doi) in
    if startswith (py "://") r then
      let r := opt (py "dx.") (drop 3 r) in
      if startswith (py "doi.org/") r then drop 8 r else doi
    else doi
  else doi.

(** The suffix of a key made from a non-empty DOI: the resolver prefix
    removed, every character outside [a-zA-Z0-9] replaced by an underscore,
    the last 25 characters kept. *)
Definition doi_suffix_of (doi : str) : str :=
  let doi_clean := strip_doi_prefix doi in
  last_n 25 (map (fun c => if is_alnum_ascii c then c else "_"%char) doi_clean).

Definition generate_citation_key (fs : fields) (entry_type : str) : str :=
  let author := get fs "author" [] in
  let last_name := default (py "Unknown") (get_first_author_lastname author) in
  let year := get fs "year" (py "XXXX") in
  let doi := get fs "doi" [] in
  let doi_suffix :=
    match doi with
    | _ :: _ => doi_suffix_of doi
    | [] =>
        let title := get fs "title" [] in
        take 20 (filter (fun c => is_alnum_ascii c) title)
    end in
  last_name ++ py "_" ++ year ++ py "_" ++ doi_suffix.

(** The four spellings of the resolver prefix. *)
Definition doi_prefixes : list str :=
  map py ["http://doi.org/"; "https://doi.org/"; "http://dx.doi.org/";
          "https://dx.doi.org/"]%string.

Definition has_doi_prefix (s : str) : bool :=
  existsb (fun p => startswith p s) doi_prefixes.

(** The normalization of a DOI at the head of the loop of
    [deduplicate_by_doi] (the identifier normalizer of the specification):
    lower case, surrounding white space removed, resolver prefix removed. *)
Definition normalize_identifier (doi : str) : str :=
  strip_doi_prefix (strip (lower doi)).

(** The identifier under which [deduplicate_by_doi] groups an entry. *)
Definition normalize_doi (fs : fields) : str :=
  normalize_identifier (get fs "doi" []).

Definition entry_doi (e : entry) : str := normalize_doi (parse_fields (fields_str e)).

(** The entry belongs to the group of the identifier [d]. *)
Definition has_doi (d : str) (e : entry) : Prop := entry_doi e = d.

#[global] Instance has_doi_dec d e : Decision (has_doi d e).
Proof. unfold has_doi. apply _. Defined.

(** [len(fields)] of an entry. *)
Definition nfields (e : entry) : nat := length (parse_fields (fields_str e)).

Definition is_lower_alnum (c : ascii) : bool := is_lower_az c || is_09 c.

Definition normalize_title_key (fs : fields) : str :=
  filter (fun c => is_lower_alnum c) (lower (get fs "title" [])).

(** [unique_entries.index(existing)]; [None] stands for [ValueError]. *)
Fixpoint index (l : list entry) (x : entry) : option nat :=
  match l with
  | [] => None
  | y :: t => if bool_decide (y = x) then Some 0 else S <$> index t x
  end.

Record dedup_state := DedupState {
  seen_dois : gmap str entry;
  seen_titles : gset str;
  unique_entries : list entry
}.

(** The body of the loop of [deduplicate_by_doi]. *)
Definition dedup_step (st : dedup_state) (e : entry) : option dedup_state :=
  let fs := parse_fields (fields_str e) in
  let doi := normalize_doi fs in
  match doi with
  | _ :: _ =>
      match seen_dois st !! doi with
      | None =>
          Some (DedupState (<[doi := e]> (seen_dois st)) (seen_titles st)
                           (unique_entries st ++ [e]))
      | Some existing =>
          let existing_fields := parse_fields (fields_str existing) in
          if length existing_fields <? length fs then
            idx ← index (unique_entries st) existing;
            Some (DedupState (<[doi := e]> (seen_dois st)) (seen_titles st)
                             (<[idx := e]> (unique_entries st)))
          else Some st
      end
  | [] =>
      let title_normalized := normalize_title_key fs in
      match title_normalized with
      | _ :: _ =>
          if bool_decide (title_normalized ∈ seen_titles st) then Some st
          else Some (DedupState (seen_dois st) ({[title_normalized]} ∪ seen_titles st)
                                (unique_entries st ++ [e]))
      | [] => Some (DedupState (seen_dois st) (seen_titles st) (unique_entries st ++ [e]))
      end
  end.

Fixpoint dedup_loop (st : dedup_state) (entries : list entry) : option dedup_state :=
  match entries with
  | [] => Some st
  | e :: rest => st' ← dedup_step st e; dedup_loop st' rest
  end.

Definition deduplicate_by_doi (entries : list entry) : option (list entry) :=
  unique_entries <$> dedup_loop (DedupState ∅ ∅ []) entries.

(** The collision policy of [format_entry]: the key and the updated
    [key_counts].  The suffix character is in the range of the character
    model as long as a base key is used fewer than 160 times. *)
Definition assign_key (base_key : str) (key_counts : gmap str nat) : str * gmap str nat :=
  match key_counts !! base_key with
  | Some n =>
      let n' := n + 1 in
      (base_key ++ py "_" ++ [chr (96 + n')], <[base_key := n']> key_counts)
  | None => (base_key, <[base_key := 0]> key_counts)
  end.

Definition field_order : list str :=
  map py ["author"; "title"; "journal"; "booktitle"; "volume"; "number"; "pages";
          "year"; "month"; "publisher"; "doi"; "url"; "issn"; "isbn"; "editor"]%string.

Definition skip_fields : list str := map py ["keywords"; "copyright"; "language"]%string.

(** The pattern [</?scp>] at the head of [s], replaced by nothing. *)
Definition match_scp (s : str) : option (str * nat) :=
  if startswith (py "<scp>") s then Some ([], 5)
  else if startswith (py "</scp>") s then Some ([], 6)
  else None.

Definition clean_value (value : str) : str :=
  re_sub match_scp (replace (py "&amp;") (py "&") value).

Definition field_line (field value : str) : str :=
  py "  " ++ field ++ py " = {" ++ clean_value value ++ py "},".

Definition drop_trailing_comma (line : str) : str :=
  match last line with
  | Some ","%char => take (length line - 1) line
  | _ => line
  end.

(** [lines[-1] = lines[-1][:-1]] when the last line ends with a comma. *)
Fixpoint fix_last_line (lines : list str) : list str :=
  match lines with
  | [] => []
  | [l] => [drop_trailing_comma l]
  | l :: rest => l :: fix_last_line rest
  end.

(** The text of an entry, from its type, its key and its fields. *)
Definition render (entry_type key : str) (fs : fields) : str :=
  let header := py "@" ++ entry_type ++ py "{" ++ key ++ py "," in
  let ordered :=
    omap (fun field => field_line field <$> lookup_field field fs) field_order in
  let remaining :=
    omap (fun '(field, value) =>
            if bool_decide (field ∈ field_order) || bool_decide (field ∈ skip_fields)
            then None else Some (field_line field value)) fs in
  let lines := fix_last_line (header :: ordered ++ remaining) in
  join [ascii_of_nat 10] (lines ++ [py "}"]).

(** The key given to an entry, the text of the entry, and [key_counts]
    after the call. *)
Definition format_entry_key (e : entry) (key_counts : gmap str nat)
    : str * str * gmap str nat :=
  let fs := parse_fields (fields_str e) in
  let base_key := generate_citation_key fs (type e) in
  let '(key, key_counts') := assign_key base_key key_counts in
  (key, render (type e) key fs, key_counts').

Definition format_entry (e : entry) (key_counts : gmap str nat) : str * gmap str nat :=
  let '(_, text, key_counts') := format_entry_key e key_counts in (text, key_counts').

(** The formatting loop of [main]: the keys and texts in order. *)
Fixpoint format_all (entries : list entry) (key_counts : gmap str nat)
    : list (str * str) :=
  match entries with
  | [] => []
  | e :: rest =>
      let '(key, text, key_counts') := format_entry_key e key_counts in
      (key, text) :: format_all rest key_counts'
  end.

(** The author filter of [main]. *)
Definition is_bulbulia_entry (e : entry) : bool :=
  is_bulbulia_author (get (parse_fields (fields_str e)) "author" []).

(** [main] between [extract_entries] and the final sort: the entries kept
    by the filter and the deduplication. *)
Definition surviving_entries (entries : list entry) : option (list entry) :=
  let bulbulia_entries := filter (fun e => is_bulbulia_entry e = true) entries in
  deduplicate_by_doi bulbulia_entries.

(** The keys and texts written for them, with a fresh [key_counts]. *)
Definition formatted_entries (entries : list entry) : option (list (str * str)) :=
  (fun unique_entries => format_all unique_entries ∅) <$> surviving_entries entries.

End Clean.

(** ** The layout of a record body *)
Module Layout.
Import Py Clean.

Definition newline : str := [ascii_of_nat 10].

(** One field on a line of its own: two spaces, the name, the value in
    braces, a comma. *)
Definition bib_field (f : str * str) : str :=
  py "  " ++ fst f ++ py " = {" ++ snd f ++ py "}," ++ newline.

Definition bib_fields (fs : fields) : str := concat (map bib_field fs).


(** A text without equal sign. *)
Definition no_eq (s : str) : Prop := Forall (fun c => c <> "="%char) s.

(** A field with a name the tokenizer can read and a balanced value. *)
Definition wf_field (f : str * str) : Prop :=
  fst f <> [] /\ Forall (fun c => is_word c = true) (fst f) /\ balanced (snd f).

(** The dictionary the fields [fs] stand for: names in lower case, the
    first occurrence of a name wins. *)
Definition lowered (fs : fields) : fields := map (fun f => (lower (fst f), snd f)) fs.

(** The dictionary [st] after the fields [fs] have been read: each one is
    added under its name in lower case, unless the name is already there. *)
Definition add_all (fs : fields) (st : fields) : fields :=
  foldl (fun st f => set_new (lower (fst f)) (snd f) st) st fs.

End Layout.

(** ** Concrete inputs used below *)
Module Inputs.
Import Clean.

Definition article (fields_str : string) : entry :=
  Entry (py "article") (py "k") (py fields_str).

(** Two spellings of one DOI; the second entry has one more field. *)
Definition e_upper : entry := article "title={A Study}, doi={10.1234/ABC}".
Definition e_url : entry :=
  article "author={Bulbulia, J.}, title={A Study}, doi={https://doi.org/10.1234/abc}".

(** Three entries by one author in one year, with three different DOIs. *)
Definition e_slash : entry :=
  article "author={Bulbulia, J.}, title={First}, year={2020}, doi={10.1234/xy}".
Definition e_dash : entry :=
  article "author={Bulbulia, J.}, title={Second}, year={2020}, doi={10.1234-xy}".
Definition e_dot_a : entry :=
  article "author={Bulbulia, J.}, title={Third}, year={2020}, doi={10.1234/xy.a}".

Definition e_smith : entry :=
  article "author={Smith, J. and Doe, A.}, year={2020}, doi={10.1234/xy}".
Definition e_smith2 : entry :=
  article "author={Smith, J. and Doe, A.}, year={2020}, doi={10.1234-xy}".
Definition e_no_author : entry := article "title={Anonymous}, year={2020}".

(** Two [bibtexparser] entries with one title; the first is an arXiv
    preprint. *)
Definition b_arxiv : Audit.entry :=
  list_to_map [(py "ID", py "p1"); (py "title", py "Religion and Health");
               (py "doi", py "10.48550/arXiv.2301.01234")].
Definition b_journal : Audit.entry :=
  list_to_map [(py "ID", py "p2"); (py "title", py "Religion and Health");
               (py "doi", py "10.1037/rel0000123")].


(** An entry that reads back. *)
Definition e_plain : entry :=
  article "title={Faith <scp>and</scp> {H}ealth}, Author={Bulbulia, J.}, year=2020, keywords={a, b}, note={x = {y}}".

(** A record body: two fields, a note whose brace is not closed, a year. *)
Definition body_before : Clean.fields :=
  [(py "author", py "Bulbulia, J."); (py "Title", py "A {B}ook")].


(** ASCII texts in mixed case. *)
Definition t_mixed : str := py "The {B}ook of \emph{Job}: A Study of Faith & Doubt".
Definition a_mixed : str := py "BULBULIA, Joseph and Doe, A.".

End Inputs.

(** ** clean_publications_v5.py: [extract_entries] *)
Module ExtractEntries.
Import Py Clean.

Definition nl : ascii := ascii_of_nat 10.

(** [re.search] for a pattern given by its test at the head of the text:
    the start of the leftmost match. *)
Fixpoint re_search (m : str -> bool) (s : str) : option nat :=
  if m s then Some 0
  else match s with
       | [] => None
       | _ :: t => S <$> re_search m t
       end.

(** First substitution: the opening tag of the head, in any case, the
    shortest text that follows, any characters, and the closing tag. *)
Definition match_head (s : str) : option (str * nat) :=
  if startswith_ci (py "<head>") s then
    (fun j => ([], 6 + j + 7)) <$> re_search (startswith_ci (py "</head>")) (drop 6 s)
  else None.

(** Second substitution: an opening angle bracket, one or more characters
    other than the closing bracket, the closing bracket. *)
Definition match_tag (s : str) : option (str * nat) :=
  match s with
  | "<"%char :: t =>
      let k := span_len (fun c => negb (eqc c ">"%char)) t in
      match k, drop k t with
      | S _, ">"%char :: _ => Some ([], 1 + k + 1)
      | _, _ => None
      end
  | _ => None
  end.

(** The last index of [c] in [s]. *)
Fixpoint last_index (c : ascii) (s : str) : option nat :=
  match s with
  | [] => None
  | d :: t =>
      match last_index c t with
      | Some j => Some (S j)
      | None => if eqc d c then Some 0 else None
      end
  end.

(** Fourth substitution, at the start of a line: white space, a comma,
    white space, the end of a line.  White space includes line breaks; the
    match ends at the end of the text when the white space after the comma
    reaches it, and otherwise before the last line break of that white
    space.  Gives the length of the match. *)
Definition match_stray (s : str) : option nat :=
  let k1 := span_len is_space s in
  match drop k1 s with
  | ","%char :: r =>
      let k2 := span_len is_space r in
      if length r =? k2 then Some (k1 + 1 + k2)
      else (fun j => k1 + 1 + j) <$> last_index nl (take k2 r)
  | _ => None
  end.

(** [re.sub] with the empty replacement for a pattern that starts with the
    anchor of a line start (multi-line mode): [bol] tells whether the
    current position follows a line break or starts the text. *)
Fixpoint sub_bol (m : str -> option nat) (bol : bool) (skip : nat) (s : str) : str :=
  match s with
  | [] => []
  | c :: t =>
      let bol' := eqc c nl in
      match skip with
      | S k => sub_bol m bol' k t
      | 0 =>
          match (if bol then m s else None) with
          | Some (S n) => sub_bol m bol' n t
          | _ => c :: sub_bol m bol' 0 t
          end
      end
  end.

(** The four substitutions at the head of [extract_entries]. *)
Definition clean_content (content : str) : str :=
  let content := re_sub match_head content in
  let content := re_sub match_tag content in
  let content := replace [nl; ","%char; nl] [nl; nl] content in
  sub_bol match_stray true 0 content.

(** The entry pattern at the head of [s]: an at sign, a maximal run of
    word characters (group 1), white space, an opening brace, one or more
    characters other than a comma (group 2), a comma.  Gives the two groups
    and the length of the match. *)
Definition match_entry (s : str) : option (str * str * nat) :=
  match s with
  | "@"%char :: t =>
      match span_len is_word t with
      | 0 => None
      | w =>
          let r1 := drop w t in
          let s1 := span_len is_space r1 in
          match drop s1 r1 with
          | "{"%char :: r2 =>
              let k := span_len (fun c => negb (eqc c ","%char)) r2 in
              match k, drop k r2 with
              | S _, ","%char :: _ => Some (take w t, take k r2, 1 + w + s1 + 1 + k + 1)
              | _, _ => None
              end
          | _ => None
          end
      end
  | _ => None
  end.

(** The pattern of the next entry at the head of [s]: a line break, an at
    sign, word characters, white space, an opening brace. *)
Definition match_next (s : str) : bool :=
  match s with
  | c :: "@"%char :: t =>
      eqc c nl &&
      match span_len is_word t with
      | 0 => false
      | w =>
          match drop (span_len is_space (drop w t)) (drop w t) with
          | "{"%char :: _ => true
          | _ => false
          end
      end
  | _ => false
  end.

(** [s.rstrip(c)] for one character. *)
Fixpoint lstrip_char (c : ascii) (s : str) : str :=
  match s with
  | d :: t => if eqc d c then lstrip_char c t else s
  | [] => []
  end.

Definition rstrip_char (c : ascii) (s : str) : str := rev (lstrip_char c (rev s)).

(** The body of the loop for one match: [rest] is the content after the
    match.  [None]: the match is skipped. *)
Definition entry_at (group1 group2 rest : str) : option entry :=
  let entry_type := lower group1 in
  let key := strip group2 in
  match key with
  | [] => None
  | _ =>
      if startswith (py "<") key || contains (py "http-equiv") (lower key) then None
      else
        let end_pos := default (length rest) (re_search match_next rest) in
        let fields_str :=
          rstrip_char ","%char (rstrip_char "}"%char (strip (take end_pos rest))) in
        Some (Entry entry_type key fields_str)
  end.

(** The loop over the matches of the entry pattern, leftmost first and
    without overlap; [skip] characters belong to the match before. *)
Fixpoint entries_loop (skip : nat) (s : str) : list entry :=
  match s with
  | [] => []
  | _ :: t =>
      match skip with
      | S k => entries_loop k t
      | 0 =>
          match match_entry s with
          | Some (group1, group2, len) =>
              match entry_at group1 group2 (drop len s) with
              | Some e => e :: entries_loop (len - 1) t
              | None => entries_loop (len - 1) t
              end
          | None => entries_loop 0 t
          end
      end
  end.

Definition extract_entries (content : str) : list entry :=
  entries_loop 0 (clean_content content).

End ExtractEntries.

(** ** clean_publications_v5.py: the final sort of [main] *)
Module SortEntries.
Import Py.

(** The pattern of [sort_key] at the head of [s]: the word [year], white
    space, an equal sign, white space, an optional opening brace, four
    decimal digits (group 1).  Gives group 1. *)
Definition match_year (s : str) : option str :=
  if startswith (py "year") s then
    let r1 := drop 4 s in
    match drop (span_len is_space r1) r1 with
    | "="%char :: r2 =>
        let r3 := drop (span_len is_space r2) r2 in
        let r4 := match r3 with "{"%char :: t => t | _ => r3 end in
        let y := take 4 r4 in
        if (length y =? 4) && forallb is_09 y then Some y else None
    | _ => None
    end
  else None.

Fixpoint search_year (s : str) : option str :=
  match match_year s with
  | Some y => Some y
  | None =>
      match s with
      | [] => None
      | _ :: t => search_year t
      end
  end.

(** [int(y)] for a string of decimal digits. *)
Definition int (y : str) : nat := foldl (fun n c => 10 * n + (code c - 48)) 0 y.

(** The year of [sort_key]: that of the leftmost match, 0 without one. *)
Definition year_of (entry : str) : nat := int (default (py "0000") (search_year entry)).

(** [a < b] on strings: the order of the code points, a proper prefix
    first. *)
Fixpoint str_lt (a b : str) : bool :=
  match a, b with
  | _, [] => false
  | [], _ :: _ => true
  | x :: a', y :: b' => (code x <? code y) || ((code x =? code y) && str_lt a' b')
  end.

(** [sort_key(e1) < sort_key(e2)], the keys being the pairs of the negated
    year and the text. *)
Definition key_lt (e1 e2 : str) : bool :=
  (year_of e2 <? year_of e1) || ((year_of e1 =? year_of e2) && str_lt e1 e2).

(** [list.sort(key=sort_key)] is stable: each text is put after the texts
    already placed whose key is not greater. *)
Fixpoint insert (x : str) (l : list str) : list str :=
  match l with
  | [] => [x]
  | y :: t => if key_lt x y then x :: y :: t else y :: insert x t
  end.

Definition sort (formatted_entries : list str) : list str :=
  foldl (fun placed x => insert x placed) [] formatted_entries.

End SortEntries.

(** ** merge_pdfs_v3.py: the matching loop of [main] *)
Module MergeMain.
Import Py Merge.

(** An entry of the CV as [extract_bibitems_with_pdfs] gives it; [None] is
    Python's [None]. *)
Record cv_entry := CvEntry {
  key : str;
  pdf_url : str;
  doi : option str;
  title : option str;
  year : option str
}.

(** An entry of the bibliography as [bibtexparser] gives it. *)
Abbreviation entry := (gmap str str).

(** How an entry was matched. *)
Inductive match_type := by_DOI | by_title.

(** The DOI of the entry as the loop compares it: lower case, resolver
    prefix removed. *)
Definition bib_doi (e : entry) : str :=
  Clean.strip_doi_prefix (lower (Audit.get e "doi")).

(** The test of the first inner loop on one CV entry. *)
Definition doi_matches (bib_doi : str) (cv : cv_entry) : bool :=
  match doi cv, bib_doi with
  | Some ((_ :: _) as cv_doi), _ :: _ =>
      let cv_doi_norm := lower (replace (py "%2f") (py "/") cv_doi) in
      let bib_doi_norm := lower (replace (py "%2f") (py "/") bib_doi) in
      bool_decide (cv_doi_norm = bib_doi_norm)
      || contains cv_doi_norm bib_doi_norm || contains bib_doi_norm cv_doi_norm
  | _, _ => false
  end.

(** The test of the second inner loop. *)
Definition title_matches (bib_title : str) (cv : cv_entry) : bool :=
  match title cv with
  | Some ((_ :: _) as cv_title) => titles_match bib_title cv_title default_threshold
  | _ => false
  end.

(** The body of the loop over the entries of the bibliography: the entry
    afterwards and, when a link was added, what [matched_entries] records.
    [bibtexparser] gives every entry an [ID]; for a dictionary without one,
    where Python raises [KeyError], the record holds [None]. *)
Definition attach (cv_entries : list cv_entry) (e : entry)
    : entry * option (option str * str * match_type) :=
  if bool_decide (is_Some (e !! py "file")) then (e, None)
  else
    match List.find (doi_matches (bib_doi e)) cv_entries with
    | Some cv => (<[py "file" := pdf_url cv]> e, Some (e !! py "ID", key cv, by_DOI))
    | None =>
        match List.find (title_matches (Audit.get e "title")) cv_entries with
        | Some cv => (<[py "file" := pdf_url cv]> e, Some (e !! py "ID", key cv, by_title))
        | None => (e, None)
        end
    end.

(** The loop: the entries afterwards, [matched_entries] and [pdf_added]. *)
Definition attach_all (cv_entries : list cv_entry) (entries : list entry)
    : list entry * list (option str * str * match_type) * nat :=
  let results := map (attach cv_entries) entries in
  let matched_entries := omap snd results in
  (map fst results, matched_entries, length matched_entries).

End MergeMain.

(** ** audit_publications.py: [find_incomplete_entries] *)
Module Incomplete.
Import Py Audit.

Definition required_by_type : list (str * list str) :=
  [(py "article", map py ["author"; "title"; "journal"; "year"]%string);
   (py "incollection", map py ["author"; "title"; "booktitle"; "year"]%string);
   (py "inbook", map py ["author"; "title"; "booktitle"; "year"]%string);
   (py "book", map py ["title"; "year"]%string);
   (py "phdthesis", map py ["author"; "title"; "school"; "year"]%string);
   (py "misc", map py ["author"; "title"; "year"]%string)].

Definition recommended : list (str * list str) :=
  [(py "article", map py ["volume"; "pages"; "doi"]%string);
   (py "incollection", map py ["pages"; "publisher"]%string);
   (py "book", map py ["publisher"]%string)].

(** [d.get(k, default)] on a dictionary literal. *)
Fixpoint dict_get (k : str) (d : list (str * list str)) (default : list str) : list str :=
  match d with
  | [] => default
  | (k', v) :: rest => if bool_decide (k' = k) then v else dict_get k rest default
  end.

(** [field not in e or not e[field].strip()] *)
Definition is_missing (e : entry) (field : str) : bool :=
  match e !! field with
  | None => true
  | Some v => bool_decide (strip v = [])
  end.

Record incomplete := Incomplete {
  id : str;
  type : str;
  title : str;
  year : str;
  missing_required : list str;
  missing_recommended : list str
}.

Definition entry_type (e : entry) : str := lower (default (py "misc") (e !! py "ENTRYTYPE")).

Definition required_fields (e : entry) : list str :=
  dict_get (entry_type e) required_by_type (map py ["author"; "title"; "year"]%string).

Definition recommended_fields (e : entry) : list str :=
  dict_get (entry_type e) recommended [].

(** The body of the loop: the record of an entry, when it is incomplete. *)
Definition check (e : entry) : option incomplete :=
  let entry_id := default (py "unknown") (e !! py "ID") in
  let missing_required := filter (fun field => is_missing e field = true) (required_fields e) in
  let missing_recommended :=
    filter (fun field => is_missing e field = true) (recommended_fields e) in
  match missing_required, missing_recommended with
  | [], [] => None
  | _, _ =>
      Some (Incomplete entry_id (entry_type e) (take 50 (get e "title"))
              (default (py "n.d.") (e !! py "year")) missing_required missing_recommended)
  end.

Definition find_incomplete_entries (entries : list entry) : list incomplete :=
  omap check entries.

End Incomplete.

(** * Properties *)

(** ** Characters and string primitives *)
Section PyFacts.
Import Py.

Ltac by_cases_on c := destruct c as [[] [] [] [] [] [] [] []]; vm_compute; intuition congruence.

Lemma lower_char_idem c : lower_char (lower_char c) = lower_char c.
Proof. by_cases_on c. Qed.

Lemma is_space_lower_char c : is_space (lower_char c) = is_space c.
Proof. by_cases_on c. Qed.

Lemma is_word_not_space c : is_word c = true -> is_space c = false.
Proof. by_cases_on c. Qed.

Lemma is_word_not_brace c : is_word c = true -> Audit.is_brace c = false.
Proof. by_cases_on c. Qed.

Lemma space_char_not_brace c : c = " "%char -> Audit.is_brace c = false.
Proof. intros ->. reflexivity. Qed.

Lemma alnum_lower_fix c :
  is_alnum_ascii c = true -> Clean.is_lower_alnum (lower_char c) = true.
Proof. by_cases_on c. Qed.

Lemma lower_alnum_facts c :
  Clean.is_lower_alnum c = true ->
  lower_char c = c /\ is_alnum_ascii c = true /\ is_space c = false
  /\ Merge.is_brace_or_backslash c = false /\ c <> "\"%char.
Proof. by_cases_on c. Qed.

Lemma eqc_true a b : eqc a b = true <-> a = b.
Proof. apply Ascii.eqb_eq. Qed.

Lemma eqc_refl a : eqc a a = true.
Proof. apply Ascii.eqb_refl. Qed.

(** *** [lstrip], [rstrip], [strip] *)

Lemma lstrip_suffix s : exists p, s = p ++ lstrip s /\ Forall (fun c => is_space c = true) p.
Proof.
  induction s as [|c t IH]; simpl.
  - exists []. split; [reflexivity | constructor].
  - destruct (is_space c) eqn:E.
    + destruct IH as (p & Hp & HF). exists (c :: p). split.
      * simpl. congruence.
      * constructor; assumption.
    + exists []. split; [reflexivity | constructor].
Qed.

Lemma lstrip_hd_ok s : hd_ok (lstrip s).
Proof.
  induction s as [|c t IH]; simpl; [exact I|].
  destruct (is_space c) eqn:E; [exact IH | simpl; exact E].
Qed.

Lemma lstrip_id s : hd_ok s -> lstrip s = s.
Proof. destruct s as [|c t]; simpl; [reflexivity|]. intros ->. reflexivity. Qed.

Lemma rstrip_prefix s : exists q, s = rstrip s ++ q /\ Forall (fun c => is_space c = true) q.
Proof.
  unfold rstrip. destruct (lstrip_suffix (rev s)) as (p & Hp & HF).
  exists (rev p). split.
  - rewrite <- rev_app_distr, <- Hp, rev_involutive. reflexivity.
  - apply Forall_rev. exact HF.
Qed.

Lemma rstrip_last_ok s : hd_ok (rev (rstrip s)).
Proof. unfold rstrip. rewrite rev_involutive. apply lstrip_hd_ok. Qed.

Lemma rstrip_id s : hd_ok (rev s) -> rstrip s = s.
Proof. intros H. unfold rstrip. rewrite lstrip_id by exact H. apply rev_involutive. Qed.

Lemma hd_ok_app_l (s q : str) : hd_ok (s ++ q) -> s <> [] -> hd_ok s.
Proof. destruct s; simpl; [congruence | auto]. Qed.

Lemma rstrip_hd_ok s : hd_ok s -> hd_ok (rstrip s).
Proof.
  intros H. destruct (rstrip_prefix s) as (q & Hq & _).
  destruct (rstrip s) as [|c r] eqn:E; [exact I|].
  rewrite Hq in H. exact H.
Qed.

Lemma strip_hd_ok s : hd_ok (strip s).
Proof. apply rstrip_hd_ok, lstrip_hd_ok. Qed.

Lemma strip_last_ok s : hd_ok (rev (strip s)).
Proof. apply rstrip_last_ok. Qed.

Lemma strip_id s : hd_ok s -> hd_ok (rev s) -> strip s = s.
Proof. intros H1 H2. unfold strip. rewrite lstrip_id by exact H1. apply rstrip_id, H2. Qed.

(** [strip s] is a contiguous part of [s]. *)
Lemma strip_infix s : exists p q, s = p ++ strip s ++ q.
Proof.
  destruct (lstrip_suffix s) as (p & Hp & _).
  destruct (rstrip_prefix (lstrip s)) as (q & Hq & _).
  exists p, q. unfold strip. rewrite <- Hq. exact Hp.
Qed.

Lemma strip_Forall (P : ascii -> Prop) s : Forall P s -> Forall P (strip s).
Proof.
  intros H. destruct (strip_infix s) as (p & q & E). rewrite E in H.
  apply Forall_app in H as [_ H]. apply Forall_app in H as [H _]. exact H.
Qed.

(** *** [re.sub] on a text where the pattern matches nowhere *)

Lemma sub_go_no_match (m : str -> option (str * nat)) (P : ascii -> Prop) :
  (forall c t, P c -> m (c :: t) = None) ->
  forall s, Forall P s -> sub_go m 0 s = s.
Proof.
  intros Hm s. induction s as [|c t IH]; intros HF; simpl; [reflexivity|].
  inversion HF; subst. rewrite Hm by assumption. f_equal. auto.
Qed.

End PyFacts.

(** ** The word-overlap matcher of merge_pdfs_v3.py *)
Section MergeMatcher.
Import Py Merge.

Lemma titles_match_sym (title1 title2 : str) (threshold : Q) :
  titles_match title1 title2 threshold = titles_match title2 title1 threshold.
Proof.
  unfold titles_match.
  rewrite (orb_comm (bool_decide (_ = ∅))).
  rewrite (comm_L (∩) (list_to_set (get_title_words title1))).
  rewrite (Nat.min_comm (size (list_to_set (get_title_words title1) : gset str))).
  reflexivity.
Qed.

(** C9.  When the smaller of the two sets of significant words (the words
    of the normalized title that are no stop words and have more than two
    characters) has fewer than three elements, [titles_match] answers
    [false], whatever the threshold and whatever the overlap. *)
Theorem short_titles_never_match (title1 title2 : str) (threshold : Q) :
  let words1 : gset str := list_to_set (get_title_words title1) in
  let words2 : gset str := list_to_set (get_title_words title2) in
  Nat.min (size words1) (size words2) < 3 ->
  titles_match title1 title2 threshold = false.
Proof.
  intros words1 words2 Hmin. unfold titles_match.
  fold words1 words2.
  destruct (bool_decide (words1 = ∅) || bool_decide (words2 = ∅)); [reflexivity|].
  apply Nat.ltb_lt in Hmin. rewrite Hmin. reflexivity.
Qed.

(** Two titles with the same two significant words: the overlap ratio is
    1, and still no match. *)
Lemma short_titles_never_match_witness :
  Nat.min (size (list_to_set (get_title_words (py "Religion and Health")) : gset str))
          (size (list_to_set (get_title_words (py "Health and Religion")) : gset str)) < 3
  /\ titles_match (py "Religion and Health") (py "Health and Religion") (0 # 1) = false.
Proof.
  assert (H : Nat.min (size (list_to_set (get_title_words (py "Religion and Health")) : gset str))
          (size (list_to_set (get_title_words (py "Health and Religion")) : gset str)) < 3).
  { vm_compute. lia. }
  split; [exact H|].
  apply (short_titles_never_match (py "Religion and Health") (py "Health and Religion") (0 # 1)).
  exact H.
Defined.

End MergeMatcher.

(** ** Deduplication by DOI *)
Section Dedup.
Import Py Clean.

(** The entry a group of equal DOI is reduced to: the first one with the
    largest number of fields.  [cur] is the best entry so far. *)
Fixpoint best_of (cur : entry) (l : list entry) : entry :=
  match l with
  | [] => cur
  | e :: t => if nfields cur <? nfields e then best_of e t else best_of cur t
  end.

Definition first_max (l : list entry) : option entry :=
  match l with
  | [] => None
  | e :: t => Some (best_of e t)
  end.

Lemma best_of_snoc cur l e :
  best_of cur (l ++ [e])
  = if nfields (best_of cur l) <? nfields e then e else best_of cur l.
Proof.
  revert cur. induction l as [|x l IH]; intros cur; simpl; [reflexivity|].
  destruct (nfields cur <? nfields x); apply IH.
Qed.

Lemma first_max_snoc l e :
  first_max (l ++ [e])
  = match first_max l with
    | None => Some e
    | Some b => if nfields b <? nfields e then Some e else Some b
    end.
Proof.
  destruct l as [|x l]; simpl; [reflexivity|].
  rewrite best_of_snoc. destruct (_ <? _); reflexivity.
Qed.

Lemma first_max_None l : first_max l = None -> l = [].
Proof. destruct l; simpl; [reflexivity | discriminate]. Qed.

(** What [best_of] picks: nothing before it has as many fields, nothing
    after it has more. *)
Lemma best_of_spec cur l :
  exists pre post,
    cur :: l = pre ++ best_of cur l :: post
    /\ Forall (fun e => nfields e < nfields (best_of cur l)) pre
    /\ Forall (fun e => nfields e <= nfields (best_of cur l)) post.
Proof.
  induction l as [|e l IH] using rev_ind.
  - exists [], []. simpl. repeat split; constructor.
  - destruct IH as (pre & post & Heq & Hpre & Hpost).
    rewrite best_of_snoc. destruct (nfields (best_of cur l) <? nfields e) eqn:E.
    + apply Nat.ltb_lt in E. exists (cur :: l), []. repeat split; [|constructor].
      rewrite Heq. apply Forall_app. split; [|constructor].
      * eapply Forall_impl; [exact Hpre|]. simpl. lia.
      * exact E.
      * eapply Forall_impl; [exact Hpost|]. simpl. lia.
    + apply Nat.ltb_ge in E. exists pre, (post ++ [e]). repeat split.
      * rewrite app_comm_cons, Heq, <- app_assoc. reflexivity.
      * exact Hpre.
      * apply Forall_app. split; [exact Hpost|]. constructor; [exact E | constructor].
Qed.

Definition option_list (o : option entry) : list entry :=
  match o with Some e => [e] | None => [] end.

(** The state of the loop after the entries [p]. *)
Record dedup_inv (p : list entry) (st : dedup_state) : Prop := {
  inv_seen : forall d, d <> [] -> seen_dois st !! d = first_max (filter (has_doi d) p);
  inv_unique : forall d, d <> [] ->
    filter (has_doi d) (unique_entries st) = option_list (seen_dois st !! d);
  inv_doi : forall d e, seen_dois st !! d = Some e -> entry_doi e = d;
  inv_sub : forall e, e ∈ unique_entries st -> e ∈ p
}.

Lemma index_Some l x : x ∈ l -> exists i l1 l2,
  index l x = Some i /\ l = l1 ++ x :: l2 /\ length l1 = i.
Proof.
  induction l as [|y l IH]; intros Hin; [inversion Hin|]. simpl.
  destruct (bool_decide (y = x)) eqn:E.
  - apply bool_decide_eq_true in E. subst. exists 0, [], l. auto.
  - apply bool_decide_eq_false in E. apply elem_of_cons in Hin as [->|Hin]; [congruence|].
    destruct (IH Hin) as (i & l1 & l2 & Hi & Hl & Hlen).
    exists (S i), (y :: l1), l2. rewrite Hi. simpl. subst. auto.
Qed.

Lemma filter_singleton_split (P : entry -> Prop) `{!forall e, Decision (P e)}
    (l1 l2 : list entry) (x y : entry) :
  filter P (l1 ++ x :: l2) = [y] -> P x -> filter P l1 = [] /\ filter P l2 = [] /\ x = y.
Proof.
  intros Hf Hx. rewrite filter_app, filter_cons_True in Hf by exact Hx.
  destruct (filter P l1) as [|a r]; simpl in Hf.
  - injection Hf as Hxy Hl2. auto.
  - injection Hf as _ Hr. destruct r; discriminate.
Qed.

Lemma filter_snoc_other (P : entry -> Prop) `{!forall e, Decision (P e)} l e :
  ~ P e -> filter P (l ++ [e]) = filter P l.
Proof.
  intros Hn. rewrite filter_app, filter_cons_False by exact Hn.
  rewrite filter_nil. apply app_nil_r.
Qed.

Lemma filter_snoc_same (P : entry -> Prop) `{!forall e, Decision (P e)} l e :
  P e -> filter P (l ++ [e]) = filter P l ++ [e].
Proof.
  intros Hy. rewrite filter_app, filter_cons_True by exact Hy. reflexivity.
Qed.

Lemma dedup_step_inv p st e :
  dedup_inv p st -> exists st', dedup_step st e = Some st' /\ dedup_inv (p ++ [e]) st'.
Proof.
  intros [Hseen Huniq Hdoi Hsub]. unfold dedup_step.
  fold (entry_doi e). fold (nfields e).
  destruct (entry_doi e) as [|c0 d0] eqn:Ed.
  - (* no DOI: the title path *)
    assert (Hother : forall d, d <> [] -> ~ has_doi d e).
    { intros d Hd He. unfold has_doi in He. congruence. }
    assert (Hkeep : dedup_inv (p ++ [e]) st).
    { split; [| exact Huniq | exact Hdoi |].
      - intros d Hd. rewrite filter_snoc_other by auto. auto.
      - intros x Hx. apply elem_of_app. left. auto. }
    assert (Hadd : dedup_inv (p ++ [e])
              (DedupState (seen_dois st) (seen_titles st) (unique_entries st ++ [e]))).
    { split; simpl.
      - intros d Hd. rewrite filter_snoc_other by auto. auto.
      - intros d Hd. rewrite filter_snoc_other by auto. auto.
      - exact Hdoi.
      - intros x Hx. apply elem_of_app in Hx as [Hx|Hx]; apply elem_of_app; auto. }
    destruct (normalize_title_key _) as [|c1 t1].
    + eexists. split; [reflexivity | exact Hadd].
    + destruct (bool_decide _).
      * eexists. split; [reflexivity | exact Hkeep].
      * eexists. split; [reflexivity|].
        destruct Hadd as [A1 A2 A3 A4]. split; assumption.
  - (* a DOI *)
    set (d := c0 :: d0) in *. assert (Hd : d <> []) by discriminate.
    assert (He : has_doi d e) by exact Ed.
    destruct (seen_dois st !! d) as [existing|] eqn:Elook.
    + fold (nfields existing).
      pose proof (Hdoi _ _ Elook) as Hex.
      destruct (nfields existing <? nfields e) eqn:Elt.
      * pose proof (Huniq d Hd) as Hu. rewrite Elook in Hu. simpl in Hu.
        assert (Hin : existing ∈ unique_entries st).
        { assert (H : existing ∈ filter (has_doi d) (unique_entries st))
            by (rewrite Hu; apply list_elem_of_here).
          apply list_elem_of_filter in H. tauto. }
        destruct (index_Some _ _ Hin) as (i & l1 & l2 & Hi & Hl & Hlen).
        rewrite Hi. simpl. eexists. split; [reflexivity|].
        assert (Hins : <[i := e]> (unique_entries st) = l1 ++ e :: l2).
        { rewrite Hl, <- Hlen. rewrite insert_app_r_alt by lia.
          rewrite Nat.sub_diag. reflexivity. }
        rewrite Hl in Hu.
        destruct (filter_singleton_split (has_doi d) l1 l2 existing existing Hu Hex)
          as (Hl1 & Hl2 & _).
        split; simpl.
        -- intros d' Hd'. destruct (decide (d = d')) as [<-|Hne].
           ++ rewrite lookup_insert_eq, filter_snoc_same, first_max_snoc by exact He.
              rewrite <- (Hseen d Hd), Elook, Elt. reflexivity.
           ++ rewrite lookup_insert_ne by exact Hne.
              rewrite filter_snoc_other; [auto|]. unfold has_doi. congruence.
        -- intros d' Hd'. rewrite Hins. destruct (decide (d = d')) as [<-|Hne].
           ++ rewrite lookup_insert_eq, filter_app, filter_cons_True by exact He.
              rewrite Hl1, Hl2. reflexivity.
           ++ rewrite lookup_insert_ne by exact Hne. rewrite <- (Huniq d' Hd'), Hl.
              rewrite !filter_app, !filter_cons_False; [reflexivity | |];
                unfold has_doi; congruence.
        -- intros d' x. destruct (decide (d = d')) as [<-|Hne].
           ++ rewrite lookup_insert_eq. intros [= <-]. exact Ed.
           ++ rewrite lookup_insert_ne by exact Hne. apply Hdoi.
        -- intros x Hx. rewrite Hins in Hx. apply elem_of_app.
           apply elem_of_app in Hx as [Hx|Hx].
           ++ left. apply Hsub. rewrite Hl. apply elem_of_app. auto.
           ++ apply elem_of_cons in Hx as [->|Hx]; [right; apply list_elem_of_here|].
              left. apply Hsub. rewrite Hl. apply elem_of_app. right.
              apply list_elem_of_further. exact Hx.
      * eexists. split; [reflexivity|]. split.
        -- intros d' Hd'. destruct (decide (d = d')) as [<-|Hne].
           ++ rewrite filter_snoc_same, first_max_snoc by exact He.
              rewrite <- (Hseen d Hd), Elook, Elt. reflexivity.
           ++ rewrite filter_snoc_other; [auto|]. unfold has_doi. congruence.
        -- exact Huniq.
        -- exact Hdoi.
        -- intros x Hx. apply elem_of_app. auto.
    + eexists. split; [reflexivity|]. split; simpl.
      * intros d' Hd'. destruct (decide (d = d')) as [<-|Hne].
        -- rewrite lookup_insert_eq, filter_snoc_same, first_max_snoc by exact He.
           rewrite <- (Hseen d Hd), Elook. reflexivity.
        -- rewrite lookup_insert_ne by exact Hne.
           rewrite filter_snoc_other; [auto|]. unfold has_doi. congruence.
      * intros d' Hd'. destruct (decide (d = d')) as [<-|Hne].
        -- rewrite lookup_insert_eq, filter_snoc_same by exact He.
           rewrite (Huniq d Hd), Elook. reflexivity.
        -- rewrite lookup_insert_ne by exact Hne.
           rewrite filter_snoc_other; [auto|]. unfold has_doi. congruence.
      * intros d' x. destruct (decide (d = d')) as [<-|Hne].
        -- rewrite lookup_insert_eq. intros [= <-]. exact Ed.
        -- rewrite lookup_insert_ne by exact Hne. apply Hdoi.
      * intros x Hx. apply elem_of_app in Hx as [Hx|Hx]; apply elem_of_app; auto.
Qed.

Lemma dedup_loop_inv rest : forall p st,
  dedup_inv p st -> exists st', dedup_loop st rest = Some st' /\ dedup_inv (p ++ rest) st'.
Proof.
  induction rest as [|e rest IH]; intros p st Hinv; simpl.
  - exists st. rewrite app_nil_r. auto.
  - destruct (dedup_step_inv p st e Hinv) as (st1 & Hstep & Hinv1).
    rewrite Hstep. simpl.
    destruct (IH _ _ Hinv1) as (st' & Hloop & Hinv').
    exists st'. rewrite <- app_assoc in Hinv'. auto.
Qed.

Lemma dedup_inv_init : dedup_inv [] (DedupState ∅ ∅ []).
Proof.
  split; simpl; intros.
  - rewrite lookup_empty. reflexivity.
  - rewrite lookup_empty. reflexivity.
  - rewrite lookup_empty in H. discriminate.
  - inversion H.
Qed.

(** [deduplicate_by_doi] never raises, and its result obeys the invariant. *)
Lemma deduplicate_by_doi_inv entries :
  exists st, deduplicate_by_doi entries = Some (unique_entries st) /\ dedup_inv entries st.
Proof.
  destruct (dedup_loop_inv entries [] _ dedup_inv_init) as (st & Hloop & Hinv).
  exists st. unfold deduplicate_by_doi. rewrite Hloop. auto.
Qed.

Lemma deduplicate_by_doi_subset entries out e :
  deduplicate_by_doi entries = Some out -> e ∈ out -> e ∈ entries.
Proof.
  intros Hout Hin. destruct (deduplicate_by_doi_inv entries) as (st & Hst & Hinv).
  rewrite Hst in Hout. injection Hout as <-. exact (inv_sub _ _ Hinv e Hin).
Qed.

(** C1.  [deduplicate_by_doi] never fails, and among the entries whose
    normalized DOI is a given non-empty [d] its result holds exactly one:
    the member [best] of the group such that no member before it has as
    many fields and no member after it has more.  The DOI values
    [10.1234/ABC] and [https://doi.org/10.1234/abc] normalize to the same
    identifier, and of two entries carrying them one survives. *)
Theorem dedup_keeps_first_largest :
  (forall (entries : list entry) (d : str),
     d <> [] -> (exists e, e ∈ entries /\ entry_doi e = d) ->
     exists out pre best post,
       deduplicate_by_doi entries = Some out
       /\ filter (has_doi d) entries = pre ++ best :: post
       /\ Forall (fun e => nfields e < nfields best) pre
       /\ Forall (fun e => nfields e <= nfields best) post
       /\ filter (has_doi d) out = [best])
  /\ normalize_identifier (py "10.1234/ABC")
     = normalize_identifier (py "https://doi.org/10.1234/abc")
  /\ deduplicate_by_doi [Inputs.e_upper; Inputs.e_url] = Some [Inputs.e_url].
Proof.
  split; [|split; vm_compute; reflexivity].
  intros entries d Hd (e0 & Hin & He0).
  destruct (deduplicate_by_doi_inv entries) as (st & Hout & Hinv).
  pose proof (inv_seen _ _ Hinv d Hd) as Hseen.
  pose proof (inv_unique _ _ Hinv d Hd) as Huniq.
  destruct (filter (has_doi d) entries) as [|g0 g] eqn:Eg.
  { assert (H : e0 ∈ filter (has_doi d) entries)
      by (apply list_elem_of_filter; split; assumption).
    rewrite Eg in H. inversion H. }
  simpl in Hseen. rewrite Hseen in Huniq. simpl in Huniq.
  destruct (best_of_spec g0 g) as (pre & post & Heq & Hpre & Hpost).
  exists (unique_entries st), pre, (best_of g0 g), post. auto.
Qed.

Lemma dedup_keeps_first_largest_witness :
  let entries := [Inputs.e_upper; Inputs.e_url] in
  let d := py "10.1234/abc" in
  d <> []
  /\ (exists e, e ∈ entries /\ entry_doi e = d)
  /\ exists out pre best post,
       deduplicate_by_doi entries = Some out
       /\ filter (has_doi d) entries = pre ++ best :: post
       /\ Forall (fun e => nfields e < nfields best) pre
       /\ Forall (fun e => nfields e <= nfields best) post
       /\ filter (has_doi d) out = [best].
Proof.
  intros entries d.
  assert (H1 : d <> []) by discriminate.
  assert (H2 : exists e, e ∈ entries /\ entry_doi e = d).
  { exists Inputs.e_upper. split; [apply list_elem_of_here | vm_compute; reflexivity]. }
  split; [exact H1|]. split; [exact H2|].
  exact (proj1 dedup_keeps_first_largest entries d H1 H2).
Defined.

(** ** The author filter of [main] *)

Lemma is_bulbulia_author_contains a :
  is_bulbulia_author a = true -> contains (py "bulbulia") (lower a) = true.
Proof. destruct a; [discriminate | auto]. Qed.

(** C10.  The entries that survive [main]'s filter and deduplication are
    input entries whose parsed author field contains [bulbulia] in some
    case, and an entry without author field is not among them. *)
Theorem only_bulbulia_entries_survive (entries : list entry) :
  exists out,
    surviving_entries entries = Some out
    /\ (forall e, e ∈ out ->
          e ∈ entries
          /\ contains (py "bulbulia")
               (lower (get (parse_fields (fields_str e)) "author" [])) = true)
    /\ (forall e, lookup_field (py "author") (parse_fields (fields_str e)) = None ->
          e ∉ out).
Proof.
  unfold surviving_entries.
  destruct (deduplicate_by_doi_inv (filter (fun e => is_bulbulia_entry e = true) entries))
    as (st & Hout & Hinv).
  exists (unique_entries st). split; [exact Hout|].
  assert (Hsub : forall e, e ∈ unique_entries st ->
            e ∈ entries /\ is_bulbulia_entry e = true).
  { intros e He. apply (deduplicate_by_doi_subset _ _ _ Hout) in He.
    apply list_elem_of_filter in He. tauto. }
  split.
  - intros e He. destruct (Hsub e He) as [H1 H2]. split; [exact H1|].
    apply is_bulbulia_author_contains. exact H2.
  - intros e Hnone He. destruct (Hsub e He) as [_ H2].
    unfold is_bulbulia_entry, get in H2. rewrite Hnone in H2. discriminate.
Qed.

Lemma only_bulbulia_entries_survive_witness :
  let entries := [Inputs.e_smith; Inputs.e_no_author; Inputs.e_url] in
  lookup_field (py "author") (parse_fields (fields_str Inputs.e_no_author)) = None
  /\ surviving_entries entries = Some [Inputs.e_url]
  /\ exists out,
       surviving_entries entries = Some out
       /\ (forall e, e ∈ out ->
             e ∈ entries
             /\ contains (py "bulbulia")
                  (lower (get (parse_fields (fields_str e)) "author" [])) = true)
       /\ (forall e, lookup_field (py "author") (parse_fields (fields_str e)) = None ->
             e ∉ out).
Proof.
  intros entries.
  split; [vm_compute; reflexivity|]. split; [vm_compute; reflexivity|].
  exact (only_bulbulia_entries_survive entries).
Defined.

End Dedup.

(** ** Citation keys *)
Section Keys.
Import Py Clean.








(** C2 fails on three entries that survive the filter and the
    deduplication: the second gets the key of the first with the suffix
    [_a], which is the unmodified base key of the third. *)
Theorem keys_collide :
  surviving_entries [Inputs.e_slash; Inputs.e_dash; Inputs.e_dot_a]
  = Some [Inputs.e_slash; Inputs.e_dash; Inputs.e_dot_a]
  /\ (map fst <$> formatted_entries [Inputs.e_slash; Inputs.e_dash; Inputs.e_dot_a])
     = Some [py "Bulbulia_2020_10_1234_xy"; py "Bulbulia_2020_10_1234_xy_a";
             py "Bulbulia_2020_10_1234_xy_a"].
Proof. vm_compute. split; reflexivity. Qed.

End Keys.

(** ** The duplicate report of audit_publications.py *)
Section Report.
Import Py Audit.

(** What the pair loop computes: a pair is a preprint pair exactly when
    one of the two lower-cased DOIs, and not the other, contains [osf.io],
    [psyarxiv] or [31234]. *)
Lemma classify_spec (e1 e2 : entry) :
  classify e1 e2 = preprint_published
  <-> has_marker (lower (get e1 "doi")) <> has_marker (lower (get e2 "doi")).
Proof.
  unfold classify.
  destruct (has_marker (lower (get e1 "doi"))), (has_marker (lower (get e2 "doi")));
    simpl; split; congruence.
Qed.

(** C6 fails on an arXiv preprint and its published version: the pair is
    reported, as [similar_title], although [find_preprints] takes the first
    entry, and not the second, for a preprint. *)
Theorem arxiv_pair_not_classified :
  find_duplicates [Inputs.b_arxiv; Inputs.b_journal]
  = Some [TitlePair similar_title
            (Some (py "p1"), py "Religion and Health", py "10.48550/arXiv.2301.01234")
            (Some (py "p2"), py "Religion and Health", py "10.1037/rel0000123")]
  /\ is_preprint Inputs.b_arxiv = true
  /\ is_preprint Inputs.b_journal = false.
Proof. vm_compute. repeat split; reflexivity. Qed.

End Report.

(** ** The field tokenizer *)
Section Tokenizer.
Import Py Clean Layout.

Ltac by_cases_on c := destruct c as [[] [] [] [] [] [] [] []]; vm_compute; intuition congruence.

Lemma is_word_facts c :
  is_word c = true ->
  is_space c = false /\ c <> "="%char /\ c <> "{"%char /\ c <> "}"%char.
Proof. by_cases_on c. Qed.

Lemma is_space_facts c :
  is_space c = true -> is_word c = false /\ c <> "="%char /\ c <> "{"%char /\ c <> "}"%char.
Proof. by_cases_on c. Qed.

(** *** Maximal runs *)

Lemma span_len_all (p : ascii -> bool) (s t : str) :
  Forall (fun c => p c = true) s -> span_len p (s ++ t) = length s + span_len p t.
Proof. induction 1 as [|c s Hc _ IH]; simpl; [reflexivity|]. rewrite Hc, IH. reflexivity. Qed.

Lemma span_len_stop (p : ascii -> bool) (c : ascii) (t : str) :
  p c = false -> span_len p (c :: t) = 0.
Proof. intros H. simpl. rewrite H. reflexivity. Qed.

(** Where a run ends: the text splits into the run and a rest that is empty
    or starts with a character outside the class. *)
Lemma span_split (p : ascii -> bool) (s : str) :
  exists a b, s = a ++ b /\ span_len p s = length a
              /\ Forall (fun c => p c = true) a
              /\ match b with c :: _ => p c = false | [] => True end.
Proof.
  induction s as [|c s IH]; simpl.
  - exists [], []. repeat split; constructor.
  - destruct (p c) eqn:E.
    + destruct IH as (a & b & -> & Hlen & Ha & Hb).
      exists (c :: a), b. rewrite Hlen. repeat split; [constructor; assumption | exact Hb].
    + exists [], (c :: s). repeat split; [constructor | exact E].
Qed.

(** A run inside [s ++ t], when [t] starts outside the class, ends in [s]
    or at the head of [t]. *)
Lemma span_app_stop (p : ascii -> bool) (s : str) (h : ascii) (t : str) :
  p h = false ->
  exists a b, s ++ h :: t = a ++ b /\ span_len p (s ++ h :: t) = length a
              /\ match b with c :: _ => c = h \/ c ∈ s | [] => False end.
Proof.
  intros Hh. induction s as [|c s IH]; simpl.
  - rewrite Hh. exists [], (h :: t). repeat split. left. reflexivity.
  - destruct (p c) eqn:E.
    + destruct IH as (a & b & Heq & Hlen & Hb).
      exists (c :: a), b. simpl. rewrite Hlen. split; [congruence|]. split; [reflexivity|].
      destruct b; [exact Hb|]. destruct Hb as [->|Hb]; [left; reflexivity|].
      right. apply list_elem_of_further. exact Hb.
    + exists [], (c :: s ++ h :: t). repeat split. right. apply list_elem_of_here.
Qed.

(** *** The field pattern *)

(** A text in which the field pattern cannot start: no equal sign, and no
    word character at the end. *)
Definition quiet (s : str) : Prop :=
  no_eq s /\ match last s with Some z => is_word z = false | None => True end.

Lemma match_field_intro (g sp sp2 r : str) :
  g <> [] -> Forall (fun c => is_word c = true) g ->
  Forall (fun c => is_space c = true) sp -> Forall (fun c => is_space c = true) sp2 ->
  match r with c :: _ => is_space c = false | [] => True end ->
  match_field (g ++ sp ++ "="%char :: sp2 ++ r)
  = Some (g, length g + length sp + 1 + length sp2).
Proof.
  intros Hne Hg Hsp Hsp2 Hr. unfold match_field.
  assert (Hw : span_len is_word (g ++ sp ++ "="%char :: sp2 ++ r) = length g).
  { rewrite span_len_all by exact Hg.
    destruct sp as [|c sp']; simpl.
    - lia.
    - inversion Hsp; subst. apply is_space_facts in H1 as [-> _]. lia. }
  rewrite Hw. destruct (length g) as [|n] eqn:El; [destruct g; simpl in El; congruence|].
  rewrite <- El. rewrite drop_app_length.
  rewrite span_len_all by exact Hsp.
  change (span_len is_space ("="%char :: sp2 ++ r)) with 0.
  rewrite Nat.add_0_r, drop_app_length.
  rewrite span_len_all by exact Hsp2.
  assert (Hr0 : span_len is_space r = 0) by (destruct r; simpl; [|rewrite Hr]; reflexivity).
  rewrite Hr0, take_app_length. repeat f_equal. lia.
Qed.

Lemma match_field_quiet (s : str) (h : ascii) (t : str) :
  s <> [] -> quiet s -> is_space h = false -> h <> "="%char ->
  match_field (s ++ h :: t) = None.
Proof.
  intros Hne [Hno Hlast] Hh Heq. unfold match_field.
  destruct (last s) as [z|] eqn:Ez; [|apply last_None in Ez; congruence].
  apply last_Some in Ez as (s0 & ->).
  (* the run of word characters ends inside [s] *)
  destruct (span_split is_word s0) as (a & b & -> & Hlen & Ha & Hb).
  assert (Hw : span_len is_word (((a ++ b) ++ [z]) ++ h :: t) = length a).
  { rewrite <- !app_assoc. rewrite span_len_all by exact Ha.
    destruct b as [|c b']; simpl; [rewrite Hlast | rewrite Hb]; lia. }
  rewrite Hw. destruct (length a) as [|n] eqn:El; [reflexivity|]. rewrite <- El.
  rewrite <- !app_assoc, drop_app_length.
  (* the run of white space after it ends in [s] or at [h] *)
  destruct (span_app_stop is_space (b ++ [z]) h t Hh) as (a' & b' & Heq' & Hlen' & Hb').
  rewrite <- app_assoc in Heq', Hlen'. rewrite Hlen', Heq', drop_app_length.
  destruct b' as [|c b'']; [contradiction|].
  destruct Hb' as [->|Hin].
  - destruct h as [[] [] [] [] [] [] [] []]; try reflexivity. congruence.
  - assert (Hc : c <> "="%char).
    { unfold no_eq in Hno. rewrite Forall_forall in Hno. apply Hno.
      rewrite <- app_assoc. apply elem_of_app. right. exact Hin. }
    destruct c as [[] [] [] [] [] [] [] []]; try reflexivity. congruence.
Qed.

Lemma quiet_tail c s : s <> [] -> quiet (c :: s) -> quiet s.
Proof.
  intros Hne [Hno Hlast]. split.
  - inversion Hno; assumption.
  - destruct s; [congruence|]. rewrite last_cons_cons in Hlast. exact Hlast.
Qed.

(** [re.search] passes over a quiet text. *)
Lemma search_field_quiet (pre : str) (h : ascii) (t : str) :
  quiet pre -> is_space h = false -> h <> "="%char ->
  search_field (pre ++ h :: t)
  = (fun '(g, e) => (g, length pre + e)) <$> search_field (h :: t).
Proof.
  intros Hq Hh Heq. remember (search_field (h :: t)) as found eqn:Ef.
  induction pre as [|c pre IH].
  - simpl app. rewrite <- Ef. destruct found as [[g e]|]; reflexivity.
  - change ((c :: pre) ++ h :: t) with (c :: (pre ++ h :: t)).
    cbn [search_field].
    change (c :: (pre ++ h :: t)) with ((c :: pre) ++ h :: t).
    rewrite match_field_quiet by (try discriminate; assumption).
    assert (Hq' : quiet pre).
    { destruct pre; [split; [constructor | exact I] | apply (quiet_tail c); [discriminate | exact Hq]]. }
    rewrite (IH Hq'). destruct found as [[g e]|]; reflexivity.
Qed.

Lemma match_field_has_eq (u : str) r : match_field u = Some r -> "="%char ∈ u.
Proof.
  unfold match_field. destruct (span_len is_word u) as [|w]; [discriminate|].
  destruct (drop _ (drop (S w) u)) as [|c r2] eqn:E; [discriminate|].
  intros H.
  assert (c = "="%char).
  { destruct c as [[] [] [] [] [] [] [] []]; try discriminate. reflexivity. }
  subst c. rewrite drop_drop in E.
  assert (Hin : "="%char ∈ drop (S w + span_len is_space (drop (S w) u)) u)
    by (rewrite E; apply list_elem_of_here).
  destruct (suffix_drop u (S w + span_len is_space (drop (S w) u))) as (k & Hk).
  rewrite Hk. apply elem_of_app. right. exact Hin.
Qed.

Lemma search_field_no_eq (u : str) : no_eq u -> search_field u = None.
Proof.
  induction u as [|c u IH]; intros Hno.
  - reflexivity.
  - cbn [search_field]. destruct (match_field (c :: u)) as [r|] eqn:E.
    + apply match_field_has_eq in E. unfold no_eq in Hno. rewrite Forall_forall in Hno.
      exfalso. exact (Hno _ E eq_refl).
    + inversion Hno; subst. rewrite IH by assumption. reflexivity.
Qed.

Lemma search_field_word (u : str) (g : str) (e : nat) :
  search_field u = Some (g, e) ->
  g <> [] /\ Forall (fun c => is_word c = true) g /\ 2 <= e.
Proof.
  revert e. induction u as [|c u IH]; intros e.
  - cbn. discriminate.
  - cbn [search_field]. destruct (match_field (c :: u)) as [[g' e']|] eqn:E.
    + intros [= -> ->]. clear IH. unfold match_field in E.
      destruct (span_split is_word (c :: u)) as (a & b & Hab & Hlen & Ha & _).
      rewrite Hlen in E. destruct (length a) as [|n] eqn:El; [discriminate|].
      destruct (drop _ (drop (S n) (c :: u))) as [|c1 r2]; [discriminate|].
      destruct c1 as [[] [] [] [] [] [] [] []]; try discriminate.
      assert (Ht : take (S n) (c :: u) = a) by (rewrite Hab, <- El; apply take_app_length).
      rewrite Ht in E. injection E as <- <-.
      repeat split; [destruct a; simpl in El; congruence | exact Ha | lia].
    + destruct (search_field u) as [[g' e']|]; [|discriminate].
      simpl. intros [= -> <-]. destruct (IH e' eq_refl) as (H1 & H2 & H3).
      repeat split; [assumption | assumption | lia].
Qed.

(** *** Brace groups *)


Lemma brace_depth_app (a b : str) (n : nat) :
  brace_depth n (a ++ b) = brace_depth n a ≫= fun m => brace_depth m b.
Proof.
  revert n. induction a as [|c a IH]; intros n; simpl; [reflexivity|].
  destruct (eqc c "{"%char); [apply IH|].
  destruct (eqc c "}"%char); [|apply IH].
  destruct n; [reflexivity | apply IH].
Qed.


Lemma scan_braces_depth (v rest : str) (n m : nat) (d d' : Z) :
  brace_depth n v = Some m -> d = Z.of_nat (S n) -> d' = Z.of_nat (S m) ->
  scan_braces d (v ++ rest) = (fun x => length v + x) <$> scan_braces d' rest.
Proof.
  revert n d. induction v as [|c v IH]; intros n d; cbn [brace_depth scan_braces app].
  - intros [= ->] -> ->. destruct (scan_braces _ rest); reflexivity.
  - destruct (eqc c "{"%char).
    + intros H Hd Hd'. rewrite (IH (S n) (d + 1)%Z H) by lia.
      destruct (scan_braces _ rest); reflexivity.
    + destruct (eqc c "}"%char).
      * destruct n as [|n']; [discriminate|]. intros H Hd Hd'.
        assert (Hz : (d - 1 =? 0)%Z = false) by (apply Z.eqb_neq; lia).
        rewrite Hz. rewrite (IH n' (d - 1)%Z H) by lia.
        destruct (scan_braces _ rest); reflexivity.
      * intros H Hd Hd'. rewrite (IH n d H) by lia.
        destruct (scan_braces _ rest); reflexivity.
Qed.

Lemma scan_braces_app (v rest : str) (n m : nat) :
  brace_depth n v = Some m ->
  scan_braces (Z.of_nat (S n)) (v ++ rest)
  = (fun x => length v + x) <$> scan_braces (Z.of_nat (S m)) rest.
Proof. intros H. apply (scan_braces_depth v rest n m); [exact H | reflexivity..]. Qed.

Lemma scan_braces_nil (d : Z) : scan_braces d [] = None.
Proof. reflexivity. Qed.

(** A balanced value in braces is read back whole. *)
Lemma extract_braced_content_balanced (p v rest : str) :
  balanced v ->
  extract_braced_content (p ++ "{"%char :: v ++ "}"%char :: rest) (length p)
  = (Some v, length p + length v + 2).
Proof.
  intros Hv. unfold extract_braced_content.
  rewrite list_lookup_middle by reflexivity.
  rewrite bool_decide_eq_true_2 by reflexivity.
  assert (Hlen : (length (p ++ "{"%char :: v ++ "}"%char :: rest) <=? length p) = false).
  { apply Nat.leb_gt. rewrite length_app. simpl. lia. }
  rewrite Hlen. cbn [orb negb]. rewrite drop_app_length.
  cbn [scan_braces]. change (eqc "{" "{") with true. cbv iota.
  change (0 + 1)%Z with (Z.of_nat 1).
  rewrite (scan_braces_app v _ 0 0 Hv). cbn [scan_braces].
  change (eqc "}" "{") with false. change (eqc "}" "}") with true. cbv iota.
  change (Z.of_nat 1 - 1 =? 0)%Z with true. cbv iota. cbn [fmap option_fmap option_map].
  f_equal; [|lia]. f_equal. unfold slice.
  replace (length p + S (length v + 0) - (length p + 1)) with (length v) by lia.
  rewrite (cons_middle "{"%char p), app_assoc.
  rewrite drop_app_length' by (rewrite length_app; reflexivity).
  apply take_app_length.
Qed.

(** A brace group that is never closed gives nothing, and the position
    stays on the opening brace. *)
Lemma extract_braced_content_open (p r : str) :
  scan_braces 0 ("{"%char :: r) = None ->
  extract_braced_content (p ++ "{"%char :: r) (length p) = (None, length p).
Proof.
  intros H. unfold extract_braced_content. rewrite drop_app_length, H.
  destruct (_ || _); reflexivity.
Qed.

Lemma open_group (w : str) (m : nat) :
  brace_depth 0 w = Some m -> scan_braces 0 ("{"%char :: w) = None.
Proof.
  intros H. cbn [scan_braces]. change (eqc "{" "{") with true. cbv iota.
  change (0 + 1)%Z with (Z.of_nat 1).
  rewrite <- (app_nil_r w), (scan_braces_app w [] 0 m H). reflexivity.
Qed.

Lemma extract_braced_content_next (s : str) (start_pos : nat) :
  start_pos <= snd (extract_braced_content s start_pos).
Proof.
  unfold extract_braced_content. destruct (_ || _); simpl; [lia|].
  destruct (scan_braces _ _); simpl; lia.
Qed.

(** *** The loop *)

Lemma find_from_ge (c : ascii) (s : str) (start e : nat) :
  find_from c s start = Some e -> start <= e.
Proof.
  revert s e. induction start as [|k IH]; intros s e; [lia|].
  destruct s as [|d t]; simpl; [discriminate|].
  destruct (find_from c t k) as [e'|] eqn:E; [|discriminate].
  intros [= <-]. apply IH in E. lia.
Qed.

(** Every turn of the loop moves the position forward: the loop ends. *)
Lemma parse_step_advances (u : str) (fs : fields) (next_pos : nat) (fs' : fields) :
  parse_step u fs = Some (next_pos, fs') -> 2 <= next_pos.
Proof.
  unfold parse_step. destruct (search_field u) as [[name mend]|] eqn:Es; [|discriminate].
  apply search_field_word in Es as (_ & _ & Hm).
  destruct (u !! mend) as [c|]; [|discriminate].
  destruct (eqc c "{"%char).
  { pose proof (extract_braced_content_next u mend) as Hn.
    destruct (extract_braced_content u mend) as [content np]. simpl in Hn.
    intros [= <- _]. lia. }
  destruct (eqc c dquote).
  { destruct (find_from dquote u (mend + 1)) as [e|] eqn:Ef.
    - apply find_from_ge in Ef. intros [= <- _]. lia.
    - intros [= <- _]. lia. }
  destruct (isdigit c); [destruct (span_len _ _)|]; intros [= <- _]; lia.
Qed.

Lemma parse_loop_skip (k : nat) (u : str) (fs : fields) :
  parse_loop k u fs = parse_loop 0 (drop k u) fs.
Proof.
  revert k. induction u as [|c u IH]; intros k.
  - rewrite drop_nil. destruct k; reflexivity.
  - destruct k as [|k]; [reflexivity|]. simpl. apply IH.
Qed.

Lemma parse_loop_step (u : str) (fs : fields) :
  u <> [] ->
  parse_loop 0 u fs
  = match parse_step u fs with
    | None => fs
    | Some (next_pos, fs') => parse_loop 0 (drop next_pos u) fs'
    end.
Proof.
  intros Hne. destruct u as [|c t]; [congruence|]. cbn [parse_loop].
  destruct (parse_step (c :: t) fs) as [[np fs']|] eqn:E; [|reflexivity].
  apply parse_step_advances in E. rewrite parse_loop_skip.
  destruct np as [|np]; [lia|]. simpl. rewrite Nat.sub_0_r. reflexivity.
Qed.

Lemma parse_loop_no_eq (u : str) (fs : fields) : no_eq u -> parse_loop 0 u fs = fs.
Proof.
  intros H. destruct u as [|c t] eqn:E; [reflexivity|]. rewrite <- E in *.
  rewrite parse_loop_step by (subst; discriminate).
  unfold parse_step. rewrite search_field_no_eq by exact H. reflexivity.
Qed.

(** The field pattern is found at the first name that follows a quiet
    text, and the position after the match is on the opening brace. *)
Lemma search_field_name (pre name sp1 sp2 r : str) :
  quiet pre -> name <> [] -> Forall (fun c => is_word c = true) name ->
  Forall (fun c => is_space c = true) sp1 -> Forall (fun c => is_space c = true) sp2 ->
  search_field (pre ++ name ++ sp1 ++ "="%char :: sp2 ++ "{"%char :: r)
  = Some (name, length (pre ++ name ++ sp1 ++ "="%char :: sp2)).
Proof.
  intros Hq Hne Hname Hsp1 Hsp2.
  destruct name as [|h name'] eqn:En; [congruence|]. rewrite <- En in *.
  assert (Hh : is_word h = true) by (rewrite En in Hname; inversion Hname; assumption).
  apply is_word_facts in Hh as (Hh1 & Hh2 & _).
  assert (Hm : search_field (name ++ sp1 ++ "="%char :: sp2 ++ "{"%char :: r)
               = Some (name, length name + length sp1 + 1 + length sp2)).
  { rewrite En. change ((h :: name') ++ ?x) with (h :: (name' ++ x)).
    cbn [search_field]. change (h :: (name' ++ ?x)) with ((h :: name') ++ x).
    rewrite <- En. rewrite match_field_intro; [reflexivity | assumption..|reflexivity]. }
  rewrite En in Hm |- *. change ((h :: name') ++ ?x) with (h :: (name' ++ x)) in *.
  rewrite search_field_quiet by assumption. rewrite Hm. simpl fmap.
  f_equal. f_equal. rewrite !length_app. simpl. rewrite !length_app. simpl. lia.
Qed.

(** One well-formed field: the loop adds it, unless the name is already
    there, and goes on after the closing brace. *)
Lemma parse_loop_field (pre name sp1 sp2 v rest : str) (fs : fields) :
  quiet pre -> name <> [] -> Forall (fun c => is_word c = true) name ->
  Forall (fun c => is_space c = true) sp1 -> Forall (fun c => is_space c = true) sp2 ->
  balanced v ->
  parse_loop 0 (pre ++ name ++ sp1 ++ "="%char :: sp2 ++ "{"%char :: v ++ "}"%char :: rest) fs
  = parse_loop 0 rest (set_new (lower name) v fs).
Proof.
  intros Hq Hne Hname Hsp1 Hsp2 Hv.
  set (P := pre ++ name ++ sp1 ++ "="%char :: sp2).
  assert (Hu : pre ++ name ++ sp1 ++ "="%char :: sp2 ++ "{"%char :: v ++ "}"%char :: rest
               = P ++ "{"%char :: v ++ "}"%char :: rest).
  { unfold P. rewrite <- ?app_assoc. simpl. rewrite <- ?app_assoc. reflexivity. }
  rewrite parse_loop_step by (destruct pre, name; simpl; congruence).
  unfold parse_step. rewrite search_field_name by assumption. fold P.
  rewrite Hu. rewrite list_lookup_middle by reflexivity.
  change (eqc "{" "{") with true. cbv iota.
  rewrite extract_braced_content_balanced by exact Hv.
  f_equal. rewrite (cons_middle "{"%char), (cons_middle "}"%char), !app_assoc.
  apply drop_app_length'. rewrite !length_app. simpl. lia.
Qed.

(** One field whose brace group is never closed: the loop keeps the
    dictionary and goes on from the opening brace. *)
Lemma parse_loop_open_field (pre name sp1 sp2 r : str) (fs : fields) :
  quiet pre -> name <> [] -> Forall (fun c => is_word c = true) name ->
  Forall (fun c => is_space c = true) sp1 -> Forall (fun c => is_space c = true) sp2 ->
  scan_braces 0 ("{"%char :: r) = None ->
  parse_loop 0 (pre ++ name ++ sp1 ++ "="%char :: sp2 ++ "{"%char :: r) fs
  = parse_loop 0 ("{"%char :: r) fs.
Proof.
  intros Hq Hne Hname Hsp1 Hsp2 Hopen.
  set (P := pre ++ name ++ sp1 ++ "="%char :: sp2).
  assert (Hu : pre ++ name ++ sp1 ++ "="%char :: sp2 ++ "{"%char :: r = P ++ "{"%char :: r).
  { unfold P. rewrite <- ?app_assoc. simpl. rewrite <- ?app_assoc. reflexivity. }
  rewrite parse_loop_step by (destruct pre, name; simpl; congruence).
  unfold parse_step. rewrite search_field_name by assumption. fold P.
  rewrite Hu. rewrite list_lookup_middle by reflexivity.
  change (eqc "{" "{") with true. cbv iota.
  rewrite extract_braced_content_open by exact Hopen.
  rewrite drop_app_length. reflexivity.
Qed.

(** *** The dedicated author scan *)

(** A text in which the author pattern cannot start: no equal sign, and
    white space at the end. *)
Definition quiet_sp (s : str) : Prop :=
  no_eq s /\ match last s with Some z => is_space z = true | None => True end.

Lemma quiet_sp_quiet s : quiet_sp s -> quiet s.
Proof.
  intros [H1 H2]. split; [exact H1|]. destruct (last s) as [z|]; [|exact I].
  apply is_space_facts in H2. tauto.
Qed.

Lemma startswith_ci_nth (p u : str) :
  startswith_ci p u = true ->
  forall i c, u !! i = Some c -> i < length p -> p !! i = Some (lower_char c).
Proof.
  revert u. induction p as [|a p IH]; intros u H i c Hu Hi; [simpl in Hi; lia|].
  destruct u as [|b u]; [discriminate|]. simpl in H.
  apply andb_true_iff in H as [Hab Hrest]. apply eqc_true in Hab.
  destruct i as [|i]; simpl in *.
  - injection Hu as <-. congruence.
  - apply (IH u Hrest i c Hu). lia.
Qed.

Lemma startswith_ci_lower (name x : str) : startswith_ci (lower name) (name ++ x) = true.
Proof.
  induction name as [|b name IH]; [reflexivity|]. simpl.
  rewrite eqc_refl. exact IH.
Qed.

Lemma author_letters (i : nat) (c : ascii) :
  py "author" !! i = Some c -> is_space c = false /\ c <> "="%char.
Proof.
  do 6 (destruct i as [|i]; [intros [= <-]; split; [reflexivity | discriminate]|]).
  discriminate.
Qed.

Lemma match_author_quiet (s : str) (h : ascii) (t : str) :
  s <> [] -> quiet_sp s -> is_space h = false -> h <> "="%char ->
  match_author (s ++ h :: t) = None.
Proof.
  intros Hne [Hno Hlast] Hh Heq. unfold match_author.
  destruct (startswith_ci (py "author") (s ++ h :: t)) eqn:E; [|reflexivity].
  destruct (last s) as [z|] eqn:Ez; [|apply last_None in Ez; congruence].
  destruct (decide (length s <= 6)) as [Hle|Hgt].
  - (* the white space at the end of [s] would be a letter of the word *)
    exfalso. rewrite last_lookup in Ez.
    assert (Hz : (s ++ h :: t) !! pred (length s) = Some z)
      by (apply lookup_app_l_Some; exact Ez).
    assert (Hlt : pred (length s) < length (py "author")).
    { destruct s; [congruence|]. simpl in *. lia. }
    pose proof (startswith_ci_nth _ _ E _ _ Hz Hlt) as Hp.
    apply author_letters in Hp as [Hp _].
    rewrite is_space_lower_char in Hp. congruence.
  - rewrite drop_app_le by lia.
    destruct (span_app_stop is_space (drop 6 s) h t Hh) as (a & b & Hab & Hlen & Hb).
    rewrite Hlen, Hab, drop_app_length.
    destruct b as [|c b']; [contradiction|].
    assert (Hc : c <> "="%char).
    { destruct Hb as [->|Hin]; [exact Heq|].
      unfold no_eq in Hno. rewrite Forall_forall in Hno. apply Hno.
      destruct (suffix_drop s 6) as (k & Hk). rewrite Hk.
      apply elem_of_app. right. exact Hin. }
    destruct c as [[] [] [] [] [] [] [] []]; try reflexivity. congruence.
Qed.

Lemma quiet_sp_tail c s : s <> [] -> quiet_sp (c :: s) -> quiet_sp s.
Proof.
  intros Hne [Hno Hlast]. split.
  - inversion Hno; assumption.
  - destruct s; [congruence|]. rewrite last_cons_cons in Hlast. exact Hlast.
Qed.

Lemma search_author_quiet (pre : str) (h : ascii) (t : str) :
  quiet_sp pre -> is_space h = false -> h <> "="%char ->
  search_author (pre ++ h :: t) = (fun e => length pre + e) <$> search_author (h :: t).
Proof.
  intros Hq Hh Heq. remember (search_author (h :: t)) as found eqn:Ef.
  induction pre as [|c pre IH].
  - simpl app. rewrite <- Ef. destruct found; reflexivity.
  - change ((c :: pre) ++ h :: t) with (c :: (pre ++ h :: t)).
    cbn [search_author].
    change (c :: (pre ++ h :: t)) with ((c :: pre) ++ h :: t).
    rewrite match_author_quiet by (try discriminate; assumption).
    assert (Hq' : quiet_sp pre).
    { destruct pre; [split; [constructor | exact I]
                    | apply (quiet_sp_tail c); [discriminate | exact Hq]]. }
    rewrite (IH Hq'). destruct found; reflexivity.
Qed.

Lemma match_author_intro (name sp1 sp2 r : str) :
  lower name = py "author" ->
  Forall (fun c => is_space c = true) sp1 -> Forall (fun c => is_space c = true) sp2 ->
  match r with c :: _ => is_space c = false | [] => True end ->
  match_author (name ++ sp1 ++ "="%char :: sp2 ++ r)
  = Some (6 + length sp1 + 1 + length sp2).
Proof.
  intros Hname Hsp1 Hsp2 Hr. unfold match_author.
  rewrite <- Hname, startswith_ci_lower.
  assert (Hlen : length name = 6).
  { apply (f_equal (@length ascii)) in Hname. unfold lower in Hname.
    rewrite length_map in Hname. exact Hname. }
  rewrite drop_app_length' by (symmetry; exact Hlen).
  rewrite span_len_all by exact Hsp1.
  change (span_len is_space ("="%char :: sp2 ++ r)) with 0.
  rewrite Nat.add_0_r, drop_app_length.
  rewrite span_len_all by exact Hsp2.
  assert (Hr0 : span_len is_space r = 0) by (destruct r; simpl; [|rewrite Hr]; reflexivity).
  rewrite Hr0. f_equal. lia.
Qed.

Lemma lower_author_head (name : str) :
  lower name = py "author" ->
  exists h name', name = h :: name' /\ is_space h = false /\ h <> "="%char.
Proof.
  destruct name as [|h name']; [discriminate|]. intros H. exists h, name'.
  split; [reflexivity|]. injection H as Hh _.
  assert (Hs : is_space (lower_char h) = false) by (rewrite Hh; reflexivity).
  rewrite is_space_lower_char in Hs. split; [exact Hs|].
  intros ->. vm_compute in Hh. discriminate.
Qed.

(** The author scan finds an author field that follows a quiet text, and
    reads its balanced value. *)
Lemma parse_author_field_first (pre name sp1 sp2 v rest : str) :
  quiet_sp pre -> lower name = py "author" ->
  Forall (fun c => is_space c = true) sp1 -> Forall (fun c => is_space c = true) sp2 ->
  balanced v ->
  parse_author_field
    (pre ++ name ++ sp1 ++ "="%char :: sp2 ++ "{"%char :: v ++ "}"%char :: rest)
  = Some v.
Proof.
  intros Hq Hname Hsp1 Hsp2 Hv.
  set (P := pre ++ name ++ sp1 ++ "="%char :: sp2).
  assert (Hu : pre ++ name ++ sp1 ++ "="%char :: sp2 ++ "{"%char :: v ++ "}"%char :: rest
               = P ++ "{"%char :: v ++ "}"%char :: rest).
  { unfold P. rewrite <- ?app_assoc. simpl. rewrite <- ?app_assoc. reflexivity. }
  assert (Hs : search_author
                 (pre ++ name ++ sp1 ++ "="%char :: sp2 ++ "{"%char :: v ++ "}"%char :: rest)
               = Some (length P)).
  { destruct (lower_author_head name Hname) as (h & name' & En & Hh1 & Hh2).
    assert (Hm : search_author (name ++ sp1 ++ "="%char :: sp2 ++ "{"%char :: v ++ "}"%char :: rest)
                 = Some (6 + length sp1 + 1 + length sp2)).
    { pose proof (match_author_intro name sp1 sp2 ("{"%char :: v ++ "}"%char :: rest)
                    Hname Hsp1 Hsp2 eq_refl) as Hm.
      rewrite En in Hm |- *. change ((h :: name') ++ ?x) with (h :: (name' ++ x)) in *.
      cbn [search_author]. rewrite Hm. reflexivity. }
    assert (Hlen : length name = 6).
    { apply (f_equal (@length ascii)) in Hname. unfold lower in Hname.
      rewrite length_map in Hname. exact Hname. }
    rewrite En in Hm |- *. change ((h :: name') ++ ?x) with (h :: (name' ++ x)) in *.
    rewrite search_author_quiet by assumption. rewrite Hm. simpl fmap. f_equal.
    subst P. rewrite !length_app. cbn [length]. rewrite ?length_app. lia. }
  unfold parse_author_field. rewrite Hs, Hu.
  rewrite list_lookup_middle by reflexivity.
  change (eqc "{" "{") with true. cbv iota.
  rewrite extract_braced_content_balanced by exact Hv. reflexivity.
Qed.

(** *** The author scan over a text *)

Lemma match_author_has_eq (u : str) (e : nat) : match_author u = Some e -> "="%char ∈ u.
Proof.
  unfold match_author. destruct (startswith_ci (py "author") u); [|discriminate].
  destruct (drop (span_len is_space (drop 6 u)) (drop 6 u)) as [|c r] eqn:E; [discriminate|].
  intros H.
  assert (Hc : c = "="%char).
  { destruct (Ascii.eqb_spec c "="%char) as [->|Hne]; [reflexivity|].
    exfalso. revert H. destruct c as [[] [] [] [] [] [] [] []]; try discriminate.
    exfalso. apply Hne. reflexivity. }
  subst c.
  assert (Hin : "="%char ∈ drop (span_len is_space (drop 6 u)) (drop 6 u))
    by (rewrite E; apply list_elem_of_here).
  rewrite drop_drop in Hin.
  exact (elem_of_sublist _ _ _ Hin (sublist_drop _ _)).
Qed.

Lemma search_author_no_eq (u : str) : no_eq u -> search_author u = None.
Proof.
  induction u as [|c t IH]; intros H.
  - reflexivity.
  - cbn [search_author].
    destruct (match_author (c :: t)) as [e|] eqn:E.
    + apply match_author_has_eq in E. unfold no_eq in H. rewrite Forall_forall in H.
      exfalso. exact (H _ E eq_refl).
    + rewrite IH; [reflexivity|]. unfold no_eq in *. inversion H; assumption.
Qed.




















(** *** Dictionaries *)

Lemma lookup_field_app (k : str) (l1 l2 : fields) :
  lookup_field k (l1 ++ l2)
  = match lookup_field k l1 with Some v => Some v | None => lookup_field k l2 end.
Proof.
  induction l1 as [|[k' v] l1 IH]; simpl; [reflexivity|].
  destruct (bool_decide (k' = k)); [reflexivity | exact IH].
Qed.

Lemma lookup_set_new (k n v : str) (fs : fields) :
  lookup_field k (set_new n v fs)
  = match lookup_field k fs with
    | Some x => Some x
    | None => if bool_decide (n = k) then Some v else None
    end.
Proof.
  unfold set_new, has_field. destruct (lookup_field n fs) as [x|] eqn:En.
  - rewrite bool_decide_eq_true_2 by eauto.
    destruct (lookup_field k fs) eqn:Ek; [reflexivity|].
    destruct (bool_decide (n = k)) eqn:E; [|reflexivity].
    apply bool_decide_eq_true in E. congruence.
  - rewrite bool_decide_eq_false_2 by (intros [? ?]; discriminate).
    rewrite lookup_field_app. simpl. destruct (lookup_field k fs); reflexivity.
Qed.

Lemma lookup_add_all (k : str) (fs st : fields) :
  lookup_field k (add_all fs st)
  = match lookup_field k st with
    | Some x => Some x
    | None => lookup_field k (lowered fs)
    end.
Proof.
  revert st. induction fs as [|[n v] fs IH]; intros st.
  - simpl. destruct (lookup_field k st); reflexivity.
  - change (add_all ((n, v) :: fs) st) with (add_all fs (set_new (lower n) v st)).
    rewrite IH, lookup_set_new. simpl.
    destruct (lookup_field k st); [reflexivity|].
    destruct (bool_decide (lower n = k)); reflexivity.
Qed.


End Tokenizer.

(** ** A record body with one brace group left open *)
Section OpenGroup.
Import Py Clean Layout.

Lemma no_eq_app (a b : str) : no_eq a -> no_eq b -> no_eq (a ++ b).
Proof. intros Ha Hb. apply Forall_app. split; assumption. Qed.

Lemma quiet_indent (q : str) : no_eq q -> quiet (q ++ py "  ").
Proof.
  intros Hq. split.
  - apply no_eq_app; [exact Hq|]. repeat constructor; discriminate.
  - change (py "  ") with ([" "%char] ++ [" "%char]).
    rewrite app_assoc, last_snoc. reflexivity.
Qed.

(** The separator the loop stands on after the fields [fs], when it stood
    on [q] before them. *)
Definition sep_after (q : str) (fs : fields) : str :=
  match fs with [] => q | _ => py "," ++ newline end.

Lemma sep_after_no_eq q fs : no_eq q -> no_eq (sep_after q fs).
Proof.
  intros Hq. destruct fs; [exact Hq|]. repeat constructor; discriminate.
Qed.

Lemma bib_field_shape (q n v tail : str) :
  q ++ bib_field (n, v) ++ tail
  = (q ++ py "  ") ++ n ++ py " " ++ "="%char :: py " " ++ "{"%char :: v
    ++ "}"%char :: (py "," ++ newline) ++ tail.
Proof.
  unfold bib_field. cbn [fst snd]. rewrite <- !app_assoc. reflexivity.
Qed.


Lemma space_str : Forall (fun c => is_space c = true) (py " ").
Proof. repeat constructor. Qed.

Lemma parse_loop_bib_fields (fs : fields) : forall (q rest : str) (st : fields),
  no_eq q -> Forall wf_field fs ->
  parse_loop 0 (q ++ bib_fields fs ++ rest) st
  = parse_loop 0 (sep_after q fs ++ rest) (add_all fs st).
Proof.
  induction fs as [|[n v] fs IH]; intros q rest st Hq Hwf; [reflexivity|].
  inversion Hwf as [|? ? (Hne & Hword & Hbal) Hwf']; subst. cbn [fst snd] in *.
  change (bib_fields ((n, v) :: fs)) with (bib_field (n, v) ++ bib_fields fs).
  rewrite <- app_assoc, bib_field_shape.
  rewrite parse_loop_field;
    [| apply quiet_indent; exact Hq | assumption | assumption
     | exact space_str | exact space_str | assumption].
  rewrite <- app_assoc.
  rewrite (IH (py "," ++ newline) rest _); [|repeat constructor; discriminate | exact Hwf'].
  destruct fs; reflexivity.
Qed.








Lemma lookup_author_fields (text k : str) :
  k <> py "author" -> lookup_field k (author_fields text) = None.
Proof.
  intros Hk. unfold author_fields.
  destruct (parse_author_field text) as [[|c a]|]; try reflexivity.
  cbn [lookup_field].
  rewrite bool_decide_eq_false_2 by (intros E; apply Hk; symmetry; exact E).
  reflexivity.
Qed.











Lemma wf_body_before : Forall wf_field Inputs.body_before.
Proof.
  repeat (constructor;
          [unfold wf_field; cbn [fst snd];
           split; [discriminate | split; [repeat constructor | reflexivity]]|]).
  constructor.
Qed.





End OpenGroup.

(** ** Serializer and tokenizer *)
Section RoundTrip.
Import Py Clean Layout.

(** *** The keys of a parsed dictionary *)


(** *** The fields the serializer writes, in its order *)

Definition out_fields (fs : fields) : fields :=
  omap (fun field => (fun v => (field, v)) <$> lookup_field field fs) field_order
  ++ omap (fun f => if bool_decide (fst f ∈ field_order) || bool_decide (fst f ∈ skip_fields)
                    then None else Some f) fs.

Definition line_of (f : str * str) : str := field_line (fst f) (snd f).

Lemma omap_ordered_lines (fs : fields) (l : list str) :
  omap (fun field => field_line field <$> lookup_field field fs) l
  = map line_of (omap (fun field => (fun v => (field, v)) <$> lookup_field field fs) l).
Proof.
  induction l as [|x l IH]; [reflexivity|].
  cbn [omap list_omap]. destruct (lookup_field x fs); cbn [fmap option_fmap option_map map];
    rewrite IH; reflexivity.
Qed.

Lemma omap_rest_lines (fs : fields) :
  omap (fun '(field, value) =>
          if bool_decide (field ∈ field_order) || bool_decide (field ∈ skip_fields)
          then None else Some (field_line field value)) fs
  = map line_of
      (omap (fun f => if bool_decide (fst f ∈ field_order) || bool_decide (fst f ∈ skip_fields)
                      then None else Some f) fs).
Proof.
  induction fs as [|[f v] fs IH]; [reflexivity|].
  cbn [omap list_omap fst]. destruct (_ || _); cbn [map]; rewrite IH; reflexivity.
Qed.

Lemma render_out_fields (entry_type key : str) (fs : fields) :
  render entry_type key fs
  = join [ascii_of_nat 10]
      (fix_last_line ((py "@" ++ entry_type ++ py "{" ++ key ++ py ",")
                      :: map line_of (out_fields fs))
       ++ [py "}"]).
Proof.
  unfold render, out_fields. rewrite map_app, omap_ordered_lines, omap_rest_lines.
  reflexivity.
Qed.

Lemma lookup_field_In (k v : str) (fs : fields) :
  lookup_field k fs = Some v -> (k, v) ∈ fs.
Proof.
  induction fs as [|[k' v'] fs IH]; simpl; [discriminate|].
  destruct (bool_decide (k' = k)) eqn:E.
  - apply bool_decide_eq_true in E. intros [= ->]. subst. apply list_elem_of_here.
  - intros H. apply list_elem_of_further. auto.
Qed.

Lemma out_fields_subset (fs : fields) (f : str * str) : f ∈ out_fields fs -> f ∈ fs.
Proof.
  unfold out_fields. intros H. apply elem_of_app in H as [H|H].
  - apply list_elem_of_omap in H as (x & _ & Hx).
    destruct (lookup_field x fs) as [v|] eqn:E; [|discriminate].
    injection Hx as <-. apply lookup_field_In. exact E.
  - apply list_elem_of_omap in H as (x & Hin & Hx).
    destruct (_ || _); [discriminate|]. injection Hx as <-. exact Hin.
Qed.

Lemma lookup_omap_order (k : str) (fs : fields) (l : list str) :
  lookup_field k (omap (fun field => (fun v => (field, v)) <$> lookup_field field fs) l)
  = if bool_decide (k ∈ l) then lookup_field k fs else None.
Proof.
  induction l as [|x l IH]; [reflexivity|]. cbn [omap list_omap].
  destruct (decide (x = k)) as [->|Hne].
  - rewrite (bool_decide_eq_true_2 (k ∈ k :: l)) by apply list_elem_of_here.
    destruct (lookup_field k fs) as [v|] eqn:E; cbn [fmap option_fmap option_map].
    + cbn [lookup_field]. rewrite bool_decide_eq_true_2 by reflexivity. reflexivity.
    + rewrite IH. destruct (bool_decide (k ∈ l)); reflexivity.
  - assert (Hiff : bool_decide (k ∈ x :: l) = bool_decide (k ∈ l)).
    { apply bool_decide_ext. rewrite elem_of_cons. split; [intros [?|?]; congruence | auto]. }
    rewrite Hiff.
    destruct (lookup_field x fs) as [v|]; cbn [fmap option_fmap option_map]; [|exact IH].
    cbn [lookup_field]. rewrite bool_decide_eq_false_2 by exact Hne. exact IH.
Qed.

Lemma lookup_omap_rest (k : str) (fs : fields) :
  lookup_field k
    (omap (fun f => if bool_decide (fst f ∈ field_order) || bool_decide (fst f ∈ skip_fields)
                    then None else Some f) fs)
  = if bool_decide (k ∈ field_order) || bool_decide (k ∈ skip_fields)
    then None else lookup_field k fs.
Proof.
  induction fs as [|[f v] fs IH]; cbn [omap list_omap fst].
  - destruct (_ || _); reflexivity.
  - cbn [lookup_field]. destruct (bool_decide (f = k)) eqn:E.
    + apply bool_decide_eq_true in E. subst f.
      destruct (_ || _); [exact IH|]. cbn [lookup_field].
      rewrite bool_decide_eq_true_2 by reflexivity. reflexivity.
    + destruct (bool_decide (f ∈ field_order) || bool_decide (f ∈ skip_fields)); [exact IH|].
      cbn [lookup_field]. rewrite E. exact IH.
Qed.

Lemma order_not_skipped (k : str) : k ∈ field_order -> k ∉ skip_fields.
Proof.
  intros H Hs. unfold field_order, skip_fields in *. cbn [map] in *.
  repeat (apply elem_of_cons in H as [->|H];
          [repeat (apply elem_of_cons in Hs as [Hs|Hs]; [vm_compute in Hs; discriminate|]);
           inversion Hs|]).
  inversion H.
Qed.

(** The serializer writes every field outside the deny-list once. *)
Lemma lookup_out_fields (k : str) (fs : fields) :
  lookup_field k (out_fields fs)
  = if bool_decide (k ∈ skip_fields) then None else lookup_field k fs.
Proof.
  unfold out_fields. rewrite lookup_field_app, lookup_omap_order, lookup_omap_rest.
  destruct (bool_decide (k ∈ field_order)) eqn:E.
  - apply bool_decide_eq_true in E.
    rewrite (bool_decide_eq_false_2 _ (order_not_skipped k E)).
    cbn [orb]. destruct (lookup_field k fs); reflexivity.
  - cbn [orb]. reflexivity.
Qed.

Lemma lookup_map_values (g : str -> str) (k : str) (fs : fields) :
  lookup_field k (map (fun f => (fst f, g (snd f))) fs) = g <$> lookup_field k fs.
Proof.
  induction fs as [|[k' v] fs IH]; [reflexivity|]. cbn [map fst snd lookup_field].
  destruct (bool_decide (k' = k)); [reflexivity | exact IH].
Qed.


(** *** The text of an entry *)









(** *** Reading the text back *)






Lemma quiet_sp_indent (q : str) : no_eq q -> quiet_sp (q ++ py "  ").
Proof.
  intros Hq. split.
  - apply no_eq_app; [exact Hq|]. repeat constructor; discriminate.
  - change (py "  ") with ([" "%char] ++ [" "%char]).
    rewrite app_assoc, last_snoc. reflexivity.
Qed.












Example rendered_entry_plain :
  let text := fst (format_entry Inputs.e_plain ∅) in
  parse_fields (fields_str Inputs.e_plain)
  = [(py "author", py "Bulbulia, J."); (py "title", py "Faith <scp>and</scp> {H}ealth");
     (py "year", py "2020"); (py "keywords", py "a, b"); (py "note", py "x = {y}")]
  /\ parse_fields text
     = [(py "author", py "Bulbulia, J."); (py "title", py "Faith and {H}ealth");
        (py "year", py "2020"); (py "note", py "x = {y}")].
Proof. vm_compute. split; reflexivity. Qed.


End RoundTrip.

(** ** Symmetry of the two similarity scorers *)
Section Symmetry.
Import Py.

(** Two normalized titles on which [SequenceMatcher] finds 20 matching
    characters in one order and 19 in the other, out of 47. *)
Lemma similar_order_dependent :
  Audit.similar (py "attendance belief in ritual") (py "and belief in ritual")
                Audit.default_threshold = Some true
  /\ Audit.similar (py "and belief in ritual") (py "attendance belief in ritual")
                   Audit.default_threshold = Some false.
Proof. vm_compute. split; reflexivity. Qed.

(** C7, as the code has it.  The word-overlap matcher is symmetric for all
    titles and thresholds.  The whole-string predicate is not: it compares
    the ratio of [difflib.SequenceMatcher], which depends on the order of
    its arguments. *)
Theorem scorers_symmetry :
  (forall (title1 title2 : str) (threshold : Q),
     Merge.titles_match title1 title2 threshold
     = Merge.titles_match title2 title1 threshold)
  /\ (exists a b : str,
        Audit.similar a b Audit.default_threshold = Some true
        /\ Audit.similar b a Audit.default_threshold = Some false).
Proof.
  split; [exact titles_match_sym|].
  exists (py "attendance belief in ritual"), (py "and belief in ritual").
  exact similar_order_dependent.
Qed.

(** C7 as stated fails for the whole-string predicate. *)
Lemma similar_not_symmetric :
  ~ (forall a b : str,
       Audit.similar a b Audit.default_threshold
       = Audit.similar b a Audit.default_threshold).
Proof.
  intros H.
  specialize (H (py "attendance belief in ritual") (py "and belief in ritual")).
  vm_compute in H. discriminate.
Qed.

End Symmetry.

(** ** Idempotence of the normalizers *)
Section Idempotence.
Import Py.

Ltac by_cases_on c := destruct c as [[] [] [] [] [] [] [] []]; vm_compute; intuition congruence.

Lemma filter_all (P : ascii -> Prop) `{!forall c, Decision (P c)} (s : str) :
  Forall P s -> filter P s = s.
Proof.
  induction 1 as [|c t Hc _ IH]; [reflexivity|].
  rewrite filter_cons_True by exact Hc. f_equal. exact IH.
Qed.

Lemma map_all (f : ascii -> ascii) (s : str) :
  Forall (fun c => f c = c) s -> map f s = s.
Proof. induction 1 as [|c t Hc _ IH]; simpl; congruence. Qed.

(** No two white-space characters in a row. *)
Fixpoint nodbl (s : str) : Prop :=
  match s with
  | [] => True
  | a :: t => (is_space a = true -> hd_ok t) /\ nodbl t
  end.

Lemma nodbl_app_r (p s : str) : nodbl (p ++ s) -> nodbl s.
Proof. induction p as [|a p IH]; simpl; [auto | intros [_ H]; auto]. Qed.

Lemma nodbl_app_l (s q : str) : nodbl (s ++ q) -> nodbl s.
Proof.
  induction s as [|a s IH]; simpl; [auto|].
  intros [H1 H2]. split; [|auto].
  intros Ha. specialize (H1 Ha). destruct s; simpl in *; auto.
Qed.

Lemma nodbl_strip s : nodbl s -> nodbl (strip s).
Proof.
  intros H. destruct (strip_infix s) as (p & q & E). rewrite E in H.
  apply nodbl_app_r in H. apply nodbl_app_l in H. exact H.
Qed.

Lemma hd_ok_lower s : hd_ok s -> hd_ok (lower s).
Proof. destruct s; simpl; [auto|]. rewrite is_space_lower_char. auto. Qed.

Lemma nodbl_lower s : nodbl s -> nodbl (lower s).
Proof.
  induction s as [|a s IH]; simpl; [auto|].
  intros [H1 H2]. split; [|auto].
  rewrite is_space_lower_char. intros Ha. apply hd_ok_lower. auto.
Qed.

Lemma collapse_go_shape b s :
  nodbl (collapse_go b s) /\ (b = true -> hd_ok (collapse_go b s)).
Proof.
  revert b. induction s as [|c t IH]; intros b; simpl; [auto|].
  destruct (is_space c) eqn:Ec.
  - destruct b.
    + apply IH.
    + split; [|discriminate]. simpl. split; [|apply IH].
      intros _. apply IH. reflexivity.
  - split.
    + simpl. split; [congruence | apply IH].
    + intros _. simpl. exact Ec.
Qed.

Lemma collapse_go_Forall (P : ascii -> Prop) b s :
  P " "%char -> Forall (fun c => is_space c = false -> P c) s ->
  Forall P (collapse_go b s).
Proof.
  intros Hsp. revert b. induction s as [|c t IH]; intros b HF; simpl; [constructor|].
  inversion HF; subst.
  destruct (is_space c) eqn:Ec.
  - destruct b; [auto | constructor; auto].
  - constructor; auto.
Qed.

Lemma collapse_go_id b s :
  nodbl s -> Forall (fun c => is_space c = true -> c = " "%char) s ->
  (b = true -> hd_ok s) -> collapse_go b s = s.
Proof.
  revert b. induction s as [|c t IH]; intros b Hn HF Hb; simpl; [reflexivity|].
  inversion HF as [|? ? Hc HF']; subst. destruct Hn as [Hn1 Hn2].
  destruct (is_space c) eqn:Ec.
  - destruct b.
    + specialize (Hb eq_refl). simpl in Hb. congruence.
    + rewrite (Hc eq_refl). f_equal. apply IH; auto.
  - f_equal. apply IH; auto; discriminate.
Qed.

(** The shape of a normalized title of merge_pdfs_v3.py: lower-case letters
    and digits, separated by single spaces. *)
Definition merge_tidy (s : str) : Prop :=
  Forall (fun c => Clean.is_lower_alnum c = true \/ c = " "%char) s
  /\ nodbl s /\ hd_ok s /\ hd_ok (rev s).

Lemma merge_normalize_title_tidy title : merge_tidy (Merge.normalize_title title).
Proof.
  unfold Merge.normalize_title. destruct title as [|c0 t0].
  { repeat split; simpl; auto. }
  set (u := map _ (filter _ _)).
  assert (Hu : Forall (fun c => is_space c = false -> is_alnum_ascii c = true) u).
  { unfold u. apply Forall_map. apply Forall_forall. intros c _.
    simpl. destruct (is_alnum_ascii c) eqn:E1; simpl; [auto|].
    destruct (is_space c) eqn:E2; simpl; intros H;
      [congruence | vm_compute in H; discriminate]. }
  generalize dependent u. intros u Hu.
  repeat split.
  - apply strip_Forall. unfold lower. apply Forall_map.
    apply (collapse_go_Forall (fun c => Clean.is_lower_alnum (lower_char c) = true
                                        \/ lower_char c = " "%char)).
    + right. reflexivity.
    + eapply Forall_impl; [exact Hu|]. simpl. intros c Hc Hs. left.
      apply alnum_lower_fix. auto.
  - apply nodbl_strip, nodbl_lower, collapse_go_shape.
  - apply strip_hd_ok.
  - apply strip_last_ok.
Qed.

Lemma match_command_group_None c t : c <> "\"%char -> Merge.match_command_group (c :: t) = None.
Proof. intros H. destruct c as [[] [] [] [] [] [] [] []]; try reflexivity. congruence. Qed.

Lemma match_command_None c t : c <> "\"%char -> Merge.match_command (c :: t) = None.
Proof. intros H. destruct c as [[] [] [] [] [] [] [] []]; try reflexivity. congruence. Qed.

Lemma merge_normalize_title_fix s : merge_tidy s -> Merge.normalize_title s = s.
Proof.
  intros (Hc & Hn & Hh & Hl). unfold Merge.normalize_title.
  destruct s as [|c0 t0] eqn:Es; [reflexivity|]. rewrite <- Es in *. clear Es c0 t0.
  assert (Hbs : Forall (fun c => c <> "\"%char) s).
  { eapply Forall_impl; [exact Hc|]. simpl. intros c [H | ->]; [|discriminate].
    apply lower_alnum_facts in H. tauto. }
  unfold re_sub.
  rewrite (sub_go_no_match _ _ match_command_group_None s Hbs).
  rewrite (sub_go_no_match _ _ match_command_None s Hbs).
  rewrite filter_all.
  2:{ eapply Forall_impl; [exact Hc|]. simpl. intros c [H | ->]; [|exact I].
      apply lower_alnum_facts in H. destruct H as (_ & _ & _ & H & _). rewrite H. exact I. }
  rewrite map_all.
  2:{ eapply Forall_impl; [exact Hc|]. simpl. intros c [H | ->]; [|reflexivity].
      apply lower_alnum_facts in H. destruct H as (_ & H & _). rewrite H. reflexivity. }
  unfold collapse_spaces. rewrite collapse_go_id; [| exact Hn | | discriminate].
  2:{ eapply Forall_impl; [exact Hc|]. simpl. intros c [H | ->]; [|reflexivity].
      apply lower_alnum_facts in H. destruct H as (_ & _ & H & _). congruence. }
  unfold lower. rewrite map_all.
  2:{ eapply Forall_impl; [exact Hc|]. simpl. intros c [H | ->]; [|reflexivity].
      apply lower_alnum_facts in H. tauto. }
  apply strip_id; assumption.
Qed.

Lemma merge_normalize_title_idem title :
  Merge.normalize_title (Merge.normalize_title title) = Merge.normalize_title title.
Proof. apply merge_normalize_title_fix, merge_normalize_title_tidy. Qed.

(** *** audit_publications.py *)

Lemma split_go_word (w rest cur : str) :
  Forall (fun c => is_space c = false) w ->
  split_go cur (w ++ rest) = split_go (rev w ++ cur) rest.
Proof.
  revert cur. induction w as [|c w IH]; intros cur HF; simpl; [reflexivity|].
  inversion HF; subst. rewrite H1. rewrite IH by assumption.
  rewrite <- app_assoc. reflexivity.
Qed.

Definition is_token (w : str) : Prop :=
  w <> [] /\ Forall (fun c => is_space c = false) w.

Lemma split_join (ws : list str) :
  Forall is_token ws -> split (join (py " ") ws) = ws.
Proof.
  unfold split. induction ws as [|w ws IH]; intros HF; [reflexivity|].
  inversion HF as [|? ? [Hne Hw] HF']; subst.
  destruct ws as [|w' ws'].
  - simpl. rewrite <- (app_nil_r w) at 1. rewrite split_go_word by exact Hw.
    simpl. rewrite app_nil_r. destruct (rev w) eqn:E.
    + apply (f_equal (@rev ascii)) in E. rewrite rev_involutive in E. simpl in E. congruence.
    + rewrite <- E, rev_involutive. reflexivity.
  - change (join (py " ") (w :: w' :: ws')) with (w ++ py " " ++ join (py " ") (w' :: ws')).
    rewrite split_go_word by exact Hw. rewrite app_nil_r. simpl.
    destruct (rev w) eqn:E.
    + apply (f_equal (@rev ascii)) in E. rewrite rev_involutive in E. simpl in E. congruence.
    + rewrite <- E, rev_involutive. f_equal. apply IH. exact HF'.
Qed.

Lemma split_go_tokens (P : ascii -> Prop) (s cur : str) :
  Forall (fun c => is_space c = false /\ P c) cur ->
  Forall (fun c => is_space c = false -> P c) s ->
  Forall (fun w => w <> [] /\ Forall (fun c => is_space c = false /\ P c) w) (split_go cur s).
Proof.
  assert (Hrev : forall c0 cur0, Forall (fun c => is_space c = false /\ P c) (c0 :: cur0) ->
            rev (c0 :: cur0) <> [] /\ Forall (fun c => is_space c = false /\ P c) (rev (c0 :: cur0))).
  { intros c0 cur0 H. split.
    - simpl. destruct (rev cur0); discriminate.
    - apply Forall_rev. exact H. }
  revert cur. induction s as [|c t IH]; intros cur Hcur Hs; simpl.
  - destruct cur as [|c0 cur0]; [constructor|]. constructor; [|constructor].
    apply Hrev. exact Hcur.
  - inversion Hs; subst. destruct (is_space c) eqn:Ec.
    + destruct cur as [|c0 cur0].
      * apply IH; [constructor | assumption].
      * constructor; [apply Hrev; exact Hcur|]. apply IH; [constructor | assumption].
    + apply IH; [|assumption]. constructor; auto.
Qed.

Lemma join_Forall (P : ascii -> Prop) (ws : list str) :
  P " "%char -> Forall (Forall P) ws -> Forall P (join (py " ") ws).
Proof.
  intros Hsp. induction 1 as [|w ws Hw HF IH]; simpl; [constructor|].
  destruct ws as [|w' ws']; [exact Hw|].
  apply Forall_app. split; [exact Hw|]. simpl. constructor; [exact Hsp | exact IH].
Qed.

Lemma audit_normalize_title_idem title :
  Audit.normalize_title (Audit.normalize_title title) = Audit.normalize_title title.
Proof.
  unfold Audit.normalize_title.
  set (v := filter _ (lower (filter _ title))).
  pose (P := fun c => is_word c = true /\ lower_char c = c).
  assert (Hv : Forall (fun c => is_space c = false -> P c) v).
  { unfold v. apply Forall_forall. intros c Hc Hs.
    apply list_elem_of_filter in Hc as [Hc1 Hc2].
    rewrite Hs, orb_false_r in Hc1. split; [apply Is_true_true; exact Hc1|].
    unfold lower in Hc2. apply list_elem_of_In, in_map_iff in Hc2 as (c' & <- & _).
    apply lower_char_idem. }
  pose proof (split_go_tokens P v [] (Forall_nil_2 _) Hv) as Hws.
  fold (split v) in Hws. clearbody v. set (ws := split v) in *. clearbody ws.
  assert (Hout : Forall (fun c => P c \/ c = " "%char) (join (py " ") ws)).
  { apply join_Forall; [right; reflexivity|].
    eapply Forall_impl; [exact Hws|]. simpl. intros w [_ Hw].
    eapply Forall_impl; [exact Hw|]. simpl. tauto. }
  rewrite (filter_all _ (join (py " ") ws)).
  2:{ eapply Forall_impl; [exact Hout|]. simpl. intros c [[H _] | ->]; [|exact I].
      rewrite (is_word_not_brace c H). exact I. }
  unfold lower. rewrite map_all.
  2:{ eapply Forall_impl; [exact Hout|]. simpl. intros c [[_ H] | ->]; [exact H | reflexivity]. }
  rewrite (filter_all _ (join (py " ") ws)).
  2:{ eapply Forall_impl; [exact Hout|]. simpl. intros c [[H _] | ->]; [|exact I].
      rewrite H. exact I. }
  rewrite split_join; [reflexivity|].
  eapply Forall_impl; [exact Hws|]. simpl. intros w [Hne Hw]. split; [exact Hne|].
  eapply Forall_impl; [exact Hw|]. simpl. tauto.
Qed.

(** *** The identifier normalizer of clean_publications_v5.py *)

Lemma startswith_app (p q s : str) :
  startswith (p ++ q) s = startswith p s && startswith q (drop (length p) s).
Proof.
  revert s. induction p as [|a p IH]; intros s; simpl; [reflexivity|].
  destruct s as [|b s]; simpl; [reflexivity|].
  rewrite IH. apply andb_assoc.
Qed.

Lemma strip_doi_prefix_suffix (s : str) : Clean.strip_doi_prefix s `suffix_of` s.
Proof.
  unfold Clean.strip_doi_prefix.
  repeat match goal with
         | |- context [if ?b then _ else _] => destruct b
         end;
  repeat (first [ reflexivity | apply suffix_drop
                | (etrans; [apply suffix_drop|]) ]).
Qed.

Lemma no_prefix_strip_id (s : str) :
  Clean.has_doi_prefix s = false -> Clean.strip_doi_prefix s = s.
Proof.
  unfold Clean.has_doi_prefix, Clean.doi_prefixes. cbn [existsb map].
  change (py "http://doi.org/") with (py "http" ++ py "://" ++ py "doi.org/").
  change (py "https://doi.org/") with (py "http" ++ py "s" ++ py "://" ++ py "doi.org/").
  change (py "http://dx.doi.org/") with (py "http" ++ py "://" ++ py "dx." ++ py "doi.org/").
  change (py "https://dx.doi.org/")
    with (py "http" ++ py "s" ++ py "://" ++ py "dx." ++ py "doi.org/").
  rewrite !startswith_app.
  change (length (py "http")) with 4. change (length (py "s")) with 1.
  change (length (py "://")) with 3. change (length (py "dx.")) with 3.
  unfold Clean.strip_doi_prefix.
  change (length (py "s")) with 1. change (length (py "dx.")) with 3.
  rewrite !drop_drop. simpl Nat.add. intros H.
  destruct (startswith (py "http") s); cbv iota; [|reflexivity].
  repeat (rewrite ?drop_drop; simpl Nat.add; cbv iota;
          match goal with
          | |- context [startswith ?p (drop ?n s)] =>
              destruct (startswith p (drop n s)) eqn:?
          end);
  cbv iota; try reflexivity;
  repeat match goal with
         | E : startswith _ _ = _ |- _ => rewrite E in H; clear E
         end;
  repeat match type of H with
         | context [startswith ?p ?u] => destruct (startswith p u)
         end;
  cbn [andb orb] in H; discriminate.
Qed.

Lemma normalize_identifier_fix (doi : str) :
  let y := Clean.normalize_identifier doi in
  hd_ok y -> Clean.has_doi_prefix y = false -> Clean.normalize_identifier y = y.
Proof.
  intros y Hhd Hpre. unfold Clean.normalize_identifier at 1.
  assert (Hsuf : y `suffix_of` strip (lower doi)) by apply strip_doi_prefix_suffix.
  assert (Hlow : lower y = y).
  { unfold lower. apply map_all. destruct Hsuf as (k & Hk).
    assert (HF : Forall (fun c => lower_char c = c) (strip (lower doi))).
    { apply strip_Forall. unfold lower. apply Forall_map, Forall_forall.
      intros c _. apply lower_char_idem. }
    rewrite Hk in HF. apply Forall_app in HF. tauto. }
  assert (Hlast : hd_ok (rev y)).
  { destruct Hsuf as (k & Hk). pose proof (strip_last_ok (lower doi)) as Hl.
    rewrite Hk, rev_app_distr in Hl.
    destruct (rev y) eqn:E; [exact I|]. exact Hl. }
  rewrite Hlow, strip_id by assumption.
  apply no_prefix_strip_id. exact Hpre.
Qed.

Lemma normalize_identifier_twice :
  let doi := py "https://doi.org/https://doi.org/10.1234/abc" in
  Clean.normalize_identifier doi = py "https://doi.org/10.1234/abc"
  /\ Clean.normalize_identifier (Clean.normalize_identifier doi) = py "10.1234/abc".
Proof. vm_compute. split; reflexivity. Qed.

(** C8, as the code has it.  Both title normalizers are idempotent on every
    input.  The identifier normalizer (lower case, strip, one removal of the
    resolver prefix) is idempotent on every input whose normalized form
    neither starts with white space nor carries a resolver prefix of its
    own. *)
Theorem normalizers_idempotent :
  (forall title : str,
     Audit.normalize_title (Audit.normalize_title title) = Audit.normalize_title title)
  /\ (forall title : str,
     Merge.normalize_title (Merge.normalize_title title) = Merge.normalize_title title)
  /\ (forall doi : str,
     hd_ok (Clean.normalize_identifier doi) ->
     Clean.has_doi_prefix (Clean.normalize_identifier doi) = false ->
     Clean.normalize_identifier (Clean.normalize_identifier doi)
     = Clean.normalize_identifier doi).
Proof.
  split; [exact audit_normalize_title_idem|].
  split; [exact merge_normalize_title_idem|].
  intros doi. apply normalize_identifier_fix.
Qed.

Lemma normalizers_idempotent_witness :
  let doi := py " HTTPS://dx.doi.org/10.1234/ABC " in
  hd_ok (Clean.normalize_identifier doi)
  /\ Clean.has_doi_prefix (Clean.normalize_identifier doi) = false
  /\ Clean.normalize_identifier doi = py "10.1234/abc"
  /\ Clean.normalize_identifier (Clean.normalize_identifier doi)
     = Clean.normalize_identifier doi.
Proof.
  intros doi.
  assert (H1 : hd_ok (Clean.normalize_identifier doi)) by (vm_compute; reflexivity).
  assert (H2 : Clean.has_doi_prefix (Clean.normalize_identifier doi) = false)
    by (vm_compute; reflexivity).
  split; [exact H1|]. split; [exact H2|]. split; [vm_compute; reflexivity|].
  exact (proj2 (proj2 normalizers_idempotent) doi H1 H2).
Defined.

(** C8 as stated fails for the identifier normalizer: a DOI that carries
    the resolver prefix twice loses one prefix per application. *)
Lemma normalize_identifier_not_idempotent :
  ~ (forall doi : str,
       Clean.normalize_identifier (Clean.normalize_identifier doi)
       = Clean.normalize_identifier doi).
Proof.
  intros H. specialize (H (py "https://doi.org/https://doi.org/10.1234/abc")).
  vm_compute in H. discriminate.
Qed.

End Idempotence.

(** * Further properties *)

(** ** Brace groups and the keys of a parsed dictionary *)
Section Braces.
Import Py Clean Layout.

Lemma scan_braces_inv (r : str) : forall (n k : nat),
  scan_braces (Z.of_nat (S n)) r = Some k ->
  exists v rest, r = v ++ "}"%char :: rest /\ length v = k /\ brace_depth n v = Some 0.
Proof.
  induction r as [|c t IH]; intros n k H; [discriminate|].
  cbn [scan_braces] in H. cbn [brace_depth].
  destruct (eqc c "{"%char) eqn:Eo.
  - apply eqc_true in Eo. subst c.
    replace (Z.of_nat (S n) + 1)%Z with (Z.of_nat (S (S n))) in H by lia.
    destruct (scan_braces (Z.of_nat (S (S n))) t) as [k'|] eqn:E; [|discriminate].
    injection H as <-. destruct (IH _ _ E) as (v & rest & -> & <- & Hd).
    exists ("{"%char :: v), rest. repeat split. cbn [brace_depth]. exact Hd.
  - destruct (eqc c "}"%char) eqn:Ec.
    + apply eqc_true in Ec. subst c.
      destruct n as [|n'].
      * replace (Z.of_nat 1 - 1 =? 0)%Z with true in H by reflexivity.
        injection H as <-. exists [], t. repeat split.
      * replace (Z.of_nat (S (S n')) - 1 =? 0)%Z with false in H by (symmetry; apply Z.eqb_neq; lia).
        replace (Z.of_nat (S (S n')) - 1)%Z with (Z.of_nat (S n')) in H by lia.
        destruct (scan_braces (Z.of_nat (S n')) t) as [k'|] eqn:E; [|discriminate].
        injection H as <-. destruct (IH _ _ E) as (v & rest & -> & <- & Hd).
        exists ("}"%char :: v), rest. repeat split. cbn [brace_depth]. exact Hd.
    + destruct (scan_braces (Z.of_nat (S n)) t) as [k'|] eqn:E; [|discriminate].
      injection H as <-. destruct (IH _ _ E) as (v & rest & -> & <- & Hd).
      exists (c :: v), rest. repeat split. cbn [brace_depth]. rewrite Eo, Ec. exact Hd.
Qed.

(** X1.  [extract_braced_content] returns a content exactly when the text
    holds, at [start_pos], an opening brace, a content whose braces match,
    and the closing brace; the next position is then the one after that
    brace.  In every other case the position comes back unchanged. *)
Theorem extract_braced_content_spec (s : str) (start_pos : nat) :
  (forall (v : str) (next_pos : nat),
     extract_braced_content s start_pos = (Some v, next_pos)
     <-> exists p rest,
           s = p ++ "{"%char :: v ++ "}"%char :: rest /\ length p = start_pos
           /\ balanced v /\ next_pos = start_pos + length v + 2)
  /\ (fst (extract_braced_content s start_pos) = None ->
      snd (extract_braced_content s start_pos) = start_pos).
Proof.
  split.
  - intros v next_pos. split.
    + unfold extract_braced_content.
      destruct (length s <=? start_pos) eqn:El; [discriminate|]. cbn [orb].
      destruct (bool_decide (s !! start_pos = Some "{"%char)) eqn:Eb; [|discriminate].
      cbn [negb]. apply bool_decide_eq_true in Eb.
      apply list_elem_of_split_length in Eb as (p & r & Hs & Hp).
      subst s. subst start_pos.
      rewrite drop_app_length. cbn [scan_braces]. rewrite (eqc_refl "{"%char).
      change (0 + 1)%Z with (Z.of_nat 1).
      destruct (scan_braces (Z.of_nat 1) r) as [k|] eqn:E; [|discriminate].
      cbn [fmap option_fmap option_map]. intros H. injection H as Hv Hn.
      destruct (scan_braces_inv _ _ _ E) as (w & rest & -> & <- & Hd).
      exists p, rest.
      assert (Hslice : slice (p ++ "{"%char :: w ++ "}"%char :: rest) (length p + 1)
                             (length p + S (length w)) = w).
      { unfold slice. replace (length p + S (length w) - (length p + 1)) with (length w) by lia.
        replace (p ++ "{"%char :: w ++ "}"%char :: rest)
          with ((p ++ ["{"%char]) ++ w ++ "}"%char :: rest) by (rewrite <- app_assoc; reflexivity).
        replace (length p + 1) with (length (p ++ ["{"%char])) by (rewrite length_app; reflexivity).
        rewrite drop_app_length. apply take_app_length. }
      rewrite Hslice in Hv. subst v. repeat split; [exact Hd | lia].
    + intros (p & rest & -> & <- & Hb & ->). apply extract_braced_content_balanced. exact Hb.
  - unfold extract_braced_content.
    destruct ((length s <=? start_pos) || negb (bool_decide (s !! start_pos = Some "{"%char)));
      [reflexivity|].
    destruct (scan_braces 0 (drop start_pos s)); [discriminate | reflexivity].
Qed.

Lemma lookup_field_None (k : str) (fs : fields) :
  lookup_field k fs = None <-> k ∉ map fst fs.
Proof.
  induction fs as [|[k' v] fs IH]; cbn [lookup_field map fst].
  - split; [intros _; apply not_elem_of_nil | reflexivity].
  - rewrite not_elem_of_cons. destruct (bool_decide (k' = k)) eqn:E.
    + apply bool_decide_eq_true in E. split; [discriminate | intros [H _]; congruence].
    + apply bool_decide_eq_false in E. rewrite IH. split; [intros H; split; congruence | tauto].
Qed.

Lemma set_new_NoDup (name v : str) (fs : fields) :
  NoDup (map fst fs) -> NoDup (map fst (set_new name v fs)).
Proof.
  intros H. unfold set_new, has_field.
  destruct (bool_decide (is_Some (lookup_field name fs))) eqn:E; [exact H|].
  apply bool_decide_eq_false in E. rewrite map_app. cbn [map fst].
  apply NoDup_app. split; [exact H|]. split.
  - intros x Hx Hx'. apply list_elem_of_singleton in Hx'. subst x.
    apply lookup_field_None in Hx; [exact Hx|].
    destruct (lookup_field name fs); [exfalso; apply E; eauto | reflexivity].
  - apply NoDup_singleton.
Qed.

Lemma parse_step_NoDup (u : str) (fs : fields) (next_pos : nat) (fs' : fields) :
  parse_step u fs = Some (next_pos, fs') -> NoDup (map fst fs) -> NoDup (map fst fs').
Proof.
  unfold parse_step. intros H Hfs.
  destruct (search_field u) as [[name mend]|]; [|discriminate].
  destruct (u !! mend) as [c|]; [|discriminate].
  destruct (eqc c "{"%char).
  { destruct (extract_braced_content u mend) as [[w|] np]; injection H as _ <-;
      [apply set_new_NoDup|]; assumption. }
  destruct (eqc c dquote).
  { destruct (find_from dquote u (mend + 1)); injection H as _ <-;
      [apply set_new_NoDup|]; assumption. }
  destruct (isdigit c).
  { destruct (span_len is_09 (drop mend u)); injection H as _ <-;
      [|apply set_new_NoDup]; assumption. }
  injection H as _ <-. assumption.
Qed.

Lemma parse_loop_NoDup (u : str) : forall (skip : nat) (fs : fields),
  NoDup (map fst fs) -> NoDup (map fst (parse_loop skip u fs)).
Proof.
  induction u as [|c t IH]; intros skip fs H; [exact H|].
  cbn [parse_loop]. destruct skip as [|k]; [|apply IH; exact H].
  destruct (parse_step (c :: t) fs) as [[np fs']|] eqn:E; [|exact H].
  apply IH. eapply parse_step_NoDup; eassumption.
Qed.

(** A key that is the lower-casing of a non-empty run of word characters. *)
Definition lowered_word (k : str) : Prop :=
  exists name, name <> [] /\ Forall (fun c => is_word c = true) name /\ k = lower name.

Lemma set_new_lowered_word (name v : str) (fs : fields) :
  lowered_word name -> Forall (fun f => lowered_word (fst f)) fs ->
  Forall (fun f => lowered_word (fst f)) (set_new name v fs).
Proof.
  intros Hk Hfs. unfold set_new. destruct (has_field name fs); [exact Hfs|].
  apply Forall_app. split; [exact Hfs | constructor; [exact Hk | constructor]].
Qed.

Lemma parse_step_lowered_word (u : str) (fs : fields) (next_pos : nat) (fs' : fields) :
  parse_step u fs = Some (next_pos, fs') ->
  Forall (fun f => lowered_word (fst f)) fs -> Forall (fun f => lowered_word (fst f)) fs'.
Proof.
  unfold parse_step. destruct (search_field u) as [[name mend]|] eqn:Es; [|discriminate].
  apply search_field_word in Es as (Hne & Hw & _).
  assert (Hk : lowered_word (lower name)) by (exists name; auto).
  destruct (u !! mend) as [c|]; [|discriminate].
  destruct (eqc c "{"%char).
  { destruct (extract_braced_content u mend) as [[content|] np]; intros [= _ <-] H;
      [apply set_new_lowered_word; auto | exact H]. }
  destruct (eqc c dquote).
  { destruct (find_from dquote u (mend + 1)); intros [= _ <-] H;
      [apply set_new_lowered_word; auto | exact H]. }
  destruct (isdigit c); [destruct (span_len _ _)|]; intros [= _ <-] H;
    try exact H; apply set_new_lowered_word; auto.
Qed.

Lemma parse_loop_lowered_word (u : str) : forall (skip : nat) (fs : fields),
  Forall (fun f => lowered_word (fst f)) fs ->
  Forall (fun f => lowered_word (fst f)) (parse_loop skip u fs).
Proof.
  induction u as [|c u IH]; intros skip fs H; [exact H|]. cbn [parse_loop].
  destruct skip as [|skip]; [|apply IH; exact H].
  destruct (parse_step (c :: u) fs) as [[np fs']|] eqn:E; [|exact H].
  apply IH. exact (parse_step_lowered_word _ _ _ _ E H).
Qed.

(** X2.  The dictionary of [parse_fields] has pairwise distinct keys, and
    every key is the lower-casing of a non-empty run of word characters. *)
Theorem parse_fields_keys_distinct (fields_str : str) :
  NoDup (map fst (parse_fields fields_str))
  /\ Forall (fun f => exists name,
                 name <> [] /\ Forall (fun c => is_word c = true) name
                 /\ fst f = lower name) (parse_fields fields_str).
Proof.
  split.
  - unfold parse_fields. apply parse_loop_NoDup. unfold author_fields.
    destruct (parse_author_field fields_str) as [[|]|]; cbn [map fst];
      [apply NoDup_nil_2 | apply NoDup_singleton | apply NoDup_nil_2].
  - unfold parse_fields. apply (parse_loop_lowered_word fields_str 0). unfold author_fields.
    destruct (parse_author_field fields_str) as [[|c a]|]; try constructor; [|constructor].
    exists (py "author"). cbn [fst]. split; [discriminate|].
    split; [apply (bool_decide_unpack _); vm_compute; exact I | reflexivity].
Qed.

(** X3.  A text without equal sign gives the empty dictionary: neither the
    author scan nor the field loop finds anything. *)
Theorem parse_fields_no_eq (fields_str : str) :
  no_eq fields_str -> parse_fields fields_str = [].
Proof.
  intros H. unfold parse_fields. rewrite (parse_loop_no_eq _ _ H).
  unfold author_fields, parse_author_field. rewrite (search_author_no_eq _ H). reflexivity.
Qed.

Lemma parse_fields_no_eq_witness :
  no_eq (py "@comment{ nothing here, {at all} }")
  /\ parse_fields (py "@comment{ nothing here, {at all} }") = [].
Proof.
  assert (H : no_eq (py "@comment{ nothing here, {at all} }")).
  { unfold no_eq. apply (bool_decide_unpack _); vm_compute; exact I. }
  split; [exact H | exact (parse_fields_no_eq _ H)].
Defined.

End Braces.

Section LayoutRoundTrip.
Import Py Clean Layout.

(** X4.  A body written one field per line, each name a non-empty word and
    each value in matching braces, is read back field by field: names in
    lower case, the first occurrence of a name kept, and nothing inside a
    value read as a field.  Only the dedicated author scan, which looks at
    the whole text, can add an entry of its own; it adds none when the first
    field is named [author] and its value is not empty. *)
Theorem parse_fields_bib_fields (fs : fields) :
  Forall wf_field fs ->
  let text := bib_fields fs in
  parse_fields text = add_all fs (author_fields text)
  /\ (forall k, k <> py "author" ->
        lookup_field k (parse_fields text) = lookup_field k (lowered fs))
  /\ (forall n v fs', fs = (n, v) :: fs' -> lower n = py "author" -> v <> [] ->
        parse_fields text = add_all fs []).
Proof.
  intros Hwf text.
  assert (Heq : parse_fields text = add_all fs (author_fields text)).
  { unfold parse_fields.
    pose proof (parse_loop_bib_fields fs [] [] (author_fields text)
                  (Forall_nil_2 _) Hwf) as H.
    rewrite app_nil_l, app_nil_r in H. fold text in H. rewrite H.
    rewrite app_nil_r. apply parse_loop_no_eq. apply sep_after_no_eq. apply Forall_nil_2. }
  split; [exact Heq|]. split.
  - intros k Hk. rewrite Heq, lookup_add_all, (lookup_author_fields _ _ Hk). reflexivity.
  - intros n v fs' -> Hn Hv. rewrite Heq.
    assert (Ha : author_fields text = [(py "author", v)]).
    { unfold author_fields, text, bib_fields. cbn [map concat].
      pose proof (bib_field_shape [] n v (concat (map bib_field fs'))) as Hs.
      rewrite app_nil_l in Hs. rewrite Hs.
      rewrite parse_author_field_first.
      - destruct v; [congruence | reflexivity].
      - apply (quiet_sp_indent []). apply Forall_nil_2.
      - exact Hn.
      - apply space_str.
      - apply space_str.
      - inversion Hwf as [|? ? Hf _]. apply Hf. }
    rewrite Ha. unfold add_all. cbn [foldl fst snd]. rewrite Hn. reflexivity.
Qed.

Lemma parse_fields_bib_fields_witness :
  Forall wf_field Inputs.body_before
  /\ parse_fields (bib_fields Inputs.body_before)
     = [(py "author", py "Bulbulia, J."); (py "title", py "A {B}ook")]
  /\ parse_fields (bib_fields Inputs.body_before)
     = add_all Inputs.body_before (author_fields (bib_fields Inputs.body_before)).
Proof.
  split; [exact wf_body_before|]. split; [vm_compute; reflexivity|].
  exact (proj1 (parse_fields_bib_fields _ wf_body_before)).
Defined.

End LayoutRoundTrip.

Section KeyShape.
Import Py Clean.

Lemma last_n_length (n : nat) (s : str) : length (last_n n s) <= n.
Proof. unfold last_n. rewrite length_drop. lia. Qed.

Lemma last_n_Forall (P : ascii -> Prop) (n : nat) (s : str) :
  Forall P s -> Forall P (last_n n s).
Proof. unfold last_n. apply Forall_drop. Qed.

Lemma lastname_letters (author_str l : str) :
  get_first_author_lastname author_str = Some l ->
  l <> [] /\ Forall (fun c => is_az c = true) l.
Proof.
  unfold get_first_author_lastname. destruct author_str as [|a0 author']; [discriminate|].
  set (fa := filter _ (re_sub match_braced_letter _)).
  destruct (if contains (py ",") fa then Some (strip (split_first (py ",") fa))
            else last (split fa)) as [ln|]; [|discriminate].
  destruct (filter (fun c => is_az c) ln) as [|c t] eqn:E; [discriminate|].
  intros H. injection H as <-. split; [discriminate|].
  rewrite <- E. apply Forall_forall. intros x Hx.
  apply list_elem_of_filter in Hx as [Hx _]. apply Is_true_true. exact Hx.
Qed.

(** X5.  A citation key is a surname, the year and a suffix, joined by
    underscores.  The surname is never empty and holds letters only
    ([Unknown] when no author can be read); the suffix has at most 25
    characters, each a letter, a digit or an underscore.  The entry type
    plays no part. *)
Theorem generate_citation_key_shape (fs : fields) (entry_type : str) :
  exists last_name suffix : str,
    generate_citation_key fs entry_type
    = last_name ++ py "_" ++ get fs "year" (py "XXXX") ++ py "_" ++ suffix
    /\ last_name <> [] /\ Forall (fun c => is_az c = true) last_name
    /\ length suffix <= 25
    /\ Forall (fun c => is_alnum_ascii c = true \/ c = "_"%char) suffix
    /\ forall entry_type', generate_citation_key fs entry_type'
                           = generate_citation_key fs entry_type.
Proof.
  unfold generate_citation_key.
  eexists _, _. split; [reflexivity|].
  split; [|split; [|split; [|split; [|reflexivity]]]].
  - destruct (get_first_author_lastname (get fs "author" [])) as [l|] eqn:E; cbn [default].
    + apply (lastname_letters _ _ E).
    + discriminate.
  - destruct (get_first_author_lastname (get fs "author" [])) as [l|] eqn:E; cbn [default].
    + apply (lastname_letters _ _ E).
    + apply (bool_decide_unpack _); vm_compute; exact I.
  - destruct (get fs "doi" []) as [|d0 d'].
    + rewrite length_take. lia.
    + unfold doi_suffix_of. apply last_n_length.
  - destruct (get fs "doi" []) as [|d0 d'].
    + apply Forall_take. apply Forall_forall. intros x Hx.
      apply list_elem_of_filter in Hx as [Hx _]. left. apply Is_true_true. exact Hx.
    + unfold doi_suffix_of. apply last_n_Forall. apply Forall_forall. intros x Hx.
      apply list_elem_of_fmap in Hx as (y & -> & _).
      destruct (is_alnum_ascii y) eqn:E; [left; exact E | right; reflexivity].
Qed.

End KeyShape.

Section Identifier.
Import Py Clean.

Lemma lstrip_app_stop (a b : str) : b <> [] -> hd_ok b -> lstrip (a ++ b) = lstrip a ++ b.
Proof.
  intros Hne Hb. induction a as [|c a IH].
  - cbn [app lstrip]. apply lstrip_id. exact Hb.
  - cbn [app lstrip]. destruct (is_space c); [exact IH | reflexivity].
Qed.

Lemma rstrip_app_stop (p x : str) : p <> [] -> hd_ok (rev p) -> rstrip (p ++ x) = p ++ rstrip x.
Proof.
  intros Hne Hp. unfold rstrip. rewrite rev_app_distr, lstrip_app_stop.
  - rewrite rev_app_distr, rev_involutive. reflexivity.
  - intros H. apply Hne. rewrite <- (rev_involutive p), H. reflexivity.
  - exact Hp.
Qed.

Lemma lstrip_spaces (ws s : str) :
  Forall (fun c => is_space c = true) ws -> lstrip (ws ++ s) = lstrip s.
Proof.
  induction 1 as [|c ws Hc _ IH]; [reflexivity|]. cbn [app lstrip]. rewrite Hc. exact IH.
Qed.

Lemma strip_doi_prefix_drop (p y : str) : p ∈ doi_prefixes -> strip_doi_prefix (p ++ y) = y.
Proof.
  intros Hp. unfold doi_prefixes in Hp. cbn [map] in Hp.
  repeat (apply elem_of_cons in Hp as [->|Hp]; [vm_compute; reflexivity|]).
  apply elem_of_nil in Hp. destruct Hp.
Qed.

Lemma doi_prefix_ends (p : str) : p ∈ doi_prefixes -> p <> [] /\ hd_ok p /\ hd_ok (rev p).
Proof.
  intros Hp. unfold doi_prefixes in Hp. cbn [map] in Hp.
  repeat (apply elem_of_cons in Hp as [->|Hp]; [vm_compute; repeat split; discriminate|]).
  apply elem_of_nil in Hp. destruct Hp.
Qed.

Lemma Forall_suffix (P : ascii -> Prop) (y s : str) : y `suffix_of` s -> Forall P s -> Forall P y.
Proof. intros [k ->] H. apply Forall_app in H. apply H. Qed.

Lemma hd_ok_rev_suffix (y s : str) : y `suffix_of` s -> hd_ok (rev s) -> hd_ok (rev y).
Proof.
  intros [k ->]. rewrite rev_app_distr. intros H.
  destruct (rev y) as [|c t] eqn:E; [exact I|]. exact H.
Qed.

(** X6.  The identifier under which [deduplicate_by_doi] groups a DOI is
    in lower case and does not end with white space; it is what is left of
    the DOI in lower case once a beginning and the white space at the end
    are taken away.  Written with a resolver prefix in any of its four
    spellings, in any case and after any white space, a DOI has as
    identifier the text after the prefix, in lower case, without the white
    space at its end. *)
Theorem normalize_identifier_spec :
  (forall doi : str,
     lower (normalize_identifier doi) = normalize_identifier doi
     /\ (exists a q, lower doi = a ++ normalize_identifier doi ++ q
                      /\ Forall (fun c => is_space c = true) q)
     /\ hd_ok (rev (normalize_identifier doi)))
  /\ (forall ws P d : str,
        lower P ∈ doi_prefixes -> Forall (fun c => is_space c = true) ws ->
        normalize_identifier (ws ++ P ++ d) = rstrip (lower d)).
Proof.
  split.
  - intros doi.
    assert (Hs : normalize_identifier doi `suffix_of` strip (lower doi))
      by apply strip_doi_prefix_suffix.
    split; [|split].
    + apply map_all. apply (Forall_suffix _ _ _ Hs). apply strip_Forall.
      apply Forall_forall. intros c Hc. apply list_elem_of_fmap in Hc as (y & -> & _).
      apply lower_char_idem.
    + destruct Hs as [k Hk].
      destruct (lstrip_suffix (lower doi)) as (p & Hp & _).
      destruct (rstrip_prefix (lstrip (lower doi))) as (q & Hq & Hsp).
      fold (strip (lower doi)) in Hq.
      exists (p ++ k), q. split; [|exact Hsp].
      rewrite Hp at 1. rewrite Hq at 1. rewrite Hk. rewrite <- !app_assoc. reflexivity.
    + apply (hd_ok_rev_suffix _ _ Hs). apply strip_last_ok.
  - intros ws P d HP Hws. destruct (doi_prefix_ends _ HP) as (Hne & Hhd & Hlast).
    unfold normalize_identifier, lower, strip. rewrite !map_app.
    rewrite lstrip_spaces.
    2:{ apply Forall_forall. intros c Hc. apply list_elem_of_fmap in Hc as (y & -> & Hy).
        rewrite is_space_lower_char. rewrite Forall_forall in Hws. exact (Hws _ Hy). }
    fold (lower P). fold (lower d).
    rewrite lstrip_id.
    2:{ destruct (lower P); [congruence | exact Hhd]. }
    rewrite (rstrip_app_stop _ _ Hne Hlast). apply strip_doi_prefix_drop. exact HP.
Qed.

Lemma normalize_identifier_spec_witness :
  lower (py "HTTPS://dx.doi.org/") ∈ doi_prefixes
  /\ Forall (fun c => is_space c = true) (py "  ")
  /\ normalize_identifier (py "  " ++ py "HTTPS://dx.doi.org/" ++ py "10.1234/ABC ")
     = rstrip (lower (py "10.1234/ABC ")).
Proof.
  assert (H1 : lower (py "HTTPS://dx.doi.org/") ∈ doi_prefixes).
  { vm_compute. do 3 apply list_elem_of_further. apply list_elem_of_here. }
  assert (H2 : Forall (fun c => is_space c = true) (py "  ")).
  { apply (bool_decide_unpack _); vm_compute; exact I. }
  split; [exact H1|]. split; [exact H2|].
  exact (proj2 normalize_identifier_spec _ _ _ H1 H2).
Defined.

End Identifier.

(** ** Deduplication: the entries without DOI *)
Section DedupTitles.
Import Py Clean.

(** The title key of an entry, as the loop computes it. *)
Definition title_key (e : entry) : str := normalize_title_key (parse_fields (fields_str e)).

(** The entry has no DOI and the title key [t]. *)
Definition by_title (t : str) (e : entry) : Prop := entry_doi e = [] /\ title_key e = t.

#[local] Instance by_title_dec t e : Decision (by_title t e).
Proof. unfold by_title. apply _. Defined.

(** The state of the loop after the entries [p], on the side of the
    titles. *)
Record title_inv (p : list entry) (st : dedup_state) : Prop := {
  tinv_seen : forall t, t <> [] -> t ∈ seen_titles st <-> filter (by_title t) p <> [];
  tinv_unique : forall t, t <> [] ->
    filter (by_title t) (unique_entries st) = take 1 (filter (by_title t) p);
  tinv_untitled : filter (by_title []) (unique_entries st) = filter (by_title []) p;
  tinv_length : length (unique_entries st) <= length p
}.

Lemma index_Some_inv (l : list entry) (x : entry) (i : nat) :
  index l x = Some i -> exists l1 l2, l = l1 ++ x :: l2 /\ length l1 = i.
Proof.
  revert i. induction l as [|y l IH]; intros i H; [discriminate|]. cbn [index] in H.
  destruct (bool_decide (y = x)) eqn:E.
  - apply bool_decide_eq_true in E. subst y. injection H as <-. exists [], l. auto.
  - destruct (index l x) as [j|]; [|discriminate]. injection H as <-.
    destruct (IH _ eq_refl) as (l1 & l2 & -> & <-). exists (y :: l1), l2. auto.
Qed.

Lemma title_inv_step (p : list entry) (st st' : dedup_state) (e : entry) :
  dedup_inv p st -> title_inv p st -> dedup_step st e = Some st' ->
  title_inv (p ++ [e]) st'.
Proof.
  intros [_ _ Hdoi _] [Hseen Huniq Hunt Hlen]. unfold dedup_step.
  fold (entry_doi e). fold (title_key e).
  destruct (entry_doi e) as [|c0 d0] eqn:Ed.
  - (* no DOI *)
    destruct (title_key e) as [|c1 t1] eqn:Et.
    + intros [= <-]. split; cbn [seen_titles unique_entries].
      * intros t Ht. rewrite filter_snoc_other; [auto|]. intros [_ H]. congruence.
      * intros t Ht. rewrite !filter_snoc_other; [auto| |]; intros [_ H]; congruence.
      * rewrite !filter_snoc_same by (split; assumption). rewrite Hunt. reflexivity.
      * rewrite !length_app. cbn [length]. lia.
    + set (k := c1 :: t1) in *. assert (Hk : k <> []) by discriminate.
      assert (He : by_title k e) by (split; assumption).
      assert (Hother : forall t, t <> k -> ~ by_title t e).
      { intros t Ht [_ H]. congruence. }
      destruct (bool_decide (k ∈ seen_titles st)) eqn:Eseen.
      * apply bool_decide_eq_true in Eseen. intros [= <-].
        pose proof (proj1 (Hseen k Hk) Eseen) as Hne.
        split.
        -- intros t Ht. destruct (decide (t = k)) as [->|Hn].
           ++ rewrite filter_snoc_same by exact He. split; [|intros _; exact Eseen].
              intros _ H. apply app_eq_nil in H as [_ H]. discriminate.
           ++ rewrite filter_snoc_other by auto. auto.
        -- intros t Ht. destruct (decide (t = k)) as [->|Hn].
           ++ rewrite filter_snoc_same by exact He. rewrite (Huniq k Hk).
              destruct (filter (by_title k) p); [congruence | reflexivity].
           ++ rewrite filter_snoc_other by auto. auto.
        -- rewrite filter_snoc_other; [exact Hunt|]. apply Hother. discriminate.
        -- rewrite length_app. lia.
      * apply bool_decide_eq_false in Eseen. intros [= <-].
        assert (Hnil : filter (by_title k) p = []).
        { destruct (filter (by_title k) p) eqn:E; [reflexivity|].
          exfalso. apply Eseen. apply (Hseen k Hk). rewrite E. discriminate. }
        split; cbn [seen_titles unique_entries].
        -- intros t Ht. destruct (decide (t = k)) as [->|Hn].
           ++ rewrite filter_snoc_same by exact He. split.
              ** intros _ H. apply app_eq_nil in H as [_ H]. discriminate.
              ** intros _. apply elem_of_union_l, elem_of_singleton. reflexivity.
           ++ rewrite filter_snoc_other by auto. rewrite <- (Hseen t Ht).
              rewrite elem_of_union, elem_of_singleton. intuition congruence.
        -- intros t Ht. destruct (decide (t = k)) as [->|Hn].
           ++ rewrite !filter_snoc_same by exact He. rewrite (Huniq k Hk), Hnil. reflexivity.
           ++ rewrite !filter_snoc_other by auto. auto.
        -- rewrite !filter_snoc_other; [exact Hunt| |]; apply Hother; discriminate.
        -- rewrite !length_app. cbn [length]. lia.
  - (* a DOI: no group of titles changes *)
    assert (Hnot : forall t, ~ by_title t e).
    { intros t [H _]. congruence. }
    assert (Hp : forall t, filter (by_title t) (p ++ [e]) = filter (by_title t) p).
    { intros t. apply filter_snoc_other. apply Hnot. }
    destruct (seen_dois st !! (c0 :: d0)) as [existing|] eqn:Elook.
    + destruct (length (parse_fields (fields_str existing))
                <? length (parse_fields (fields_str e))).
      * destruct (index (unique_entries st) existing) as [i|] eqn:Ei; [|discriminate].
        cbn [mbind option_bind]. intros [= <-].
        destruct (index_Some_inv _ _ _ Ei) as (l1 & l2 & Hl & Hi).
        assert (Hins : <[i := e]> (unique_entries st) = l1 ++ e :: l2).
        { rewrite Hl, <- Hi. rewrite insert_app_r_alt by lia.
          rewrite Nat.sub_diag. reflexivity. }
        assert (Hex : forall t, ~ by_title t existing).
        { intros t [H _]. rewrite (Hdoi _ _ Elook) in H. discriminate. }
        assert (Hu : forall t, filter (by_title t) (l1 ++ e :: l2)
                               = filter (by_title t) (unique_entries st)).
        { intros t. rewrite Hl, !filter_app, !filter_cons_False by auto. reflexivity. }
        split; cbn [seen_titles unique_entries]; rewrite ?Hins.
        -- intros t Ht. rewrite Hp. auto.
        -- intros t Ht. rewrite Hp, Hu. auto.
        -- rewrite Hp, Hu. exact Hunt.
        -- rewrite <- Hins, length_insert, length_app. lia.
      * intros [= <-]. split.
        -- intros t Ht. rewrite Hp. auto.
        -- intros t Ht. rewrite Hp. auto.
        -- rewrite Hp. exact Hunt.
        -- rewrite length_app. lia.
    + intros [= <-]. split; cbn [seen_titles unique_entries].
      * intros t Ht. rewrite Hp. auto.
      * intros t Ht. rewrite Hp, filter_snoc_other by auto. auto.
      * rewrite Hp, filter_snoc_other by auto. exact Hunt.
      * rewrite !length_app. cbn [length]. lia.
Qed.

Lemma title_inv_init : title_inv [] (DedupState ∅ ∅ []).
Proof.
  split; cbn [seen_titles unique_entries]; try reflexivity.
  intros t _. rewrite filter_nil. split; [|congruence].
  intros H. apply elem_of_empty in H. destruct H.
Qed.

Lemma dedup_loop_title_inv (rest : list entry) : forall p st,
  dedup_inv p st -> title_inv p st ->
  exists st', dedup_loop st rest = Some st'
              /\ dedup_inv (p ++ rest) st' /\ title_inv (p ++ rest) st'.
Proof.
  induction rest as [|e rest IH]; intros p st Hd Ht; cbn [dedup_loop].
  - exists st. rewrite app_nil_r. auto.
  - destruct (dedup_step_inv p st e Hd) as (st1 & Hstep & Hd1).
    pose proof (title_inv_step _ _ _ _ Hd Ht Hstep) as Ht1.
    rewrite Hstep. cbn [mbind option_bind].
    destruct (IH _ _ Hd1 Ht1) as (st' & Hloop & Hd' & Ht').
    exists st'. rewrite <- app_assoc in Hd', Ht'. auto.
Qed.

Lemma deduplicate_by_doi_title_inv (entries : list entry) :
  exists st, deduplicate_by_doi entries = Some (unique_entries st)
             /\ dedup_inv entries st /\ title_inv entries st.
Proof.
  destruct (dedup_loop_title_inv entries [] _ dedup_inv_init title_inv_init)
    as (st & Hloop & Hd & Ht).
  exists st. unfold deduplicate_by_doi. rewrite Hloop. auto.
Qed.

(** X7.  [deduplicate_by_doi] always returns (the [index] call never
    raises); every entry of the result is one of the input, and the result
    is not longer than the input. *)
Theorem deduplicate_by_doi_total (entries : list entry) :
  exists out,
    deduplicate_by_doi entries = Some out
    /\ (forall e, e ∈ out -> e ∈ entries)
    /\ length out <= length entries.
Proof.
  destruct (deduplicate_by_doi_title_inv entries) as (st & Hst & Hd & Ht).
  exists (unique_entries st). split; [exact Hst|]. split.
  - apply (inv_sub _ _ Hd).
  - apply (tinv_length _ _ Ht).
Qed.

(** X8.  Among the entries without DOI, [deduplicate_by_doi] keeps, for
    each non-empty title key, the first entry with that key and no other,
    however many fields the later ones have; the entries whose title key is
    empty are all kept. *)
Theorem dedup_titles_keep_first (entries : list entry) :
  exists out,
    deduplicate_by_doi entries = Some out
    /\ (forall t, t <> [] ->
          filter (by_title t) out = take 1 (filter (by_title t) entries))
    /\ filter (by_title []) out = filter (by_title []) entries.
Proof.
  destruct (deduplicate_by_doi_title_inv entries) as (st & Hst & Hd & Ht).
  exists (unique_entries st). split; [exact Hst|]. split.
  - apply (tinv_unique _ _ Ht).
  - apply (tinv_untitled _ _ Ht).
Qed.

Lemma filter_snoc_length (P : entry -> Prop) `{!forall x, Decision (P x)}
    (p rest : list entry) (e : entry) :
  length (filter P (p ++ e :: rest)) <= 1 -> P e -> filter P p = [].
Proof.
  intros Hlen He. rewrite filter_app, filter_cons_True, length_app in Hlen by exact He.
  cbn [length] in Hlen. destruct (filter P p); [reflexivity | cbn [length] in Hlen; lia].
Qed.

Lemma dedup_step_fresh (p rest : list entry) (st : dedup_state) (e : entry) :
  dedup_inv p st -> title_inv p st -> unique_entries st = p ->
  (forall d, d <> [] -> length (filter (has_doi d) (p ++ e :: rest)) <= 1) ->
  (forall t, t <> [] -> length (filter (by_title t) (p ++ e :: rest)) <= 1) ->
  exists st', dedup_step st e = Some st' /\ unique_entries st' = p ++ [e].
Proof.
  intros Hd Ht Hu Hdois Htitles. unfold dedup_step.
  fold (entry_doi e). fold (title_key e).
  destruct (entry_doi e) as [|c0 d0] eqn:Ed.
  - destruct (title_key e) as [|c1 t1] eqn:Et.
    + eexists. split; [reflexivity|]. cbn [unique_entries]. rewrite Hu. reflexivity.
    + assert (Hnil : filter (by_title (c1 :: t1)) p = []).
      { apply (filter_snoc_length _ p rest e); [apply Htitles; discriminate|].
        split; assumption. }
      rewrite bool_decide_eq_false_2.
      * eexists. split; [reflexivity|]. cbn [unique_entries]. rewrite Hu. reflexivity.
      * intros Hin. apply (tinv_seen _ _ Ht) in Hin; [|discriminate]. congruence.
  - assert (Hnil : filter (has_doi (c0 :: d0)) p = []).
    { apply (filter_snoc_length _ p rest e); [apply Hdois; discriminate | exact Ed]. }
    rewrite (inv_seen _ _ Hd) by discriminate. rewrite Hnil. cbn [first_max].
    eexists. split; [reflexivity|]. cbn [unique_entries]. rewrite Hu. reflexivity.
Qed.

Lemma dedup_loop_fresh (rest : list entry) : forall p st,
  dedup_inv p st -> title_inv p st -> unique_entries st = p ->
  (forall d, d <> [] -> length (filter (has_doi d) (p ++ rest)) <= 1) ->
  (forall t, t <> [] -> length (filter (by_title t) (p ++ rest)) <= 1) ->
  exists st', dedup_loop st rest = Some st' /\ unique_entries st' = p ++ rest.
Proof.
  induction rest as [|e rest IH]; intros p st Hd Ht Hu Hdois Htitles; cbn [dedup_loop].
  - exists st. rewrite app_nil_r. auto.
  - destruct (dedup_step_fresh p rest st e Hd Ht Hu Hdois Htitles) as (st1 & Hstep & Hu1).
    rewrite Hstep. cbn [mbind option_bind].
    destruct (dedup_step_inv p st e Hd) as (st1' & Hstep' & Hd1).
    assert (st1' = st1) by congruence. subst st1'.
    pose proof (title_inv_step _ _ _ _ Hd Ht Hstep) as Ht1.
    destruct (IH (p ++ [e]) st1 Hd1 Ht1 Hu1) as (st' & Hloop & Hu').
    + intros d Hne. rewrite <- app_assoc. apply Hdois. exact Hne.
    + intros t Hne. rewrite <- app_assoc. apply Htitles. exact Hne.
    + exists st'. rewrite <- app_assoc in Hu'. auto.
Qed.

(** X9.  Deduplicating a second time changes nothing: the result of
    [deduplicate_by_doi] is its own deduplication. *)
Theorem deduplicate_by_doi_idempotent (entries : list entry) :
  exists out,
    deduplicate_by_doi entries = Some out /\ deduplicate_by_doi out = Some out.
Proof.
  destruct (deduplicate_by_doi_title_inv entries) as (st & Hst & Hd & Ht).
  exists (unique_entries st). split; [exact Hst|].
  destruct (dedup_loop_fresh (unique_entries st) [] _ dedup_inv_init title_inv_init eq_refl)
    as (st' & Hloop & Hu').
  - intros d Hne. cbn [app]. rewrite (inv_unique _ _ Hd d Hne).
    destruct (seen_dois st !! d); cbn [option_list length]; lia.
  - intros t Hne. cbn [app]. rewrite (tinv_unique _ _ Ht t Hne).
    rewrite length_take. lia.
  - unfold deduplicate_by_doi. rewrite Hloop. cbn [fmap option_fmap option_map app].
    rewrite Hu'. reflexivity.
Qed.

End DedupTitles.

(** ** The keys given in one run *)
Section KeyCounts.
Import Py Clean.

(** The key computed for an entry before the collision policy. *)
Definition base_key (e : entry) : str :=
  generate_citation_key (parse_fields (fields_str e)) (type e).

(** How many of the entries [l] have the base key [b]. *)
Definition uses (b : str) (l : list entry) : nat :=
  length (filter (fun e => base_key e = b) l).

(** The key of an entry whose base key [b] was used [n] times before. *)
Definition nth_key (b : str) (n : nat) : str :=
  match n with
  | 0 => b
  | S _ => b ++ py "_" ++ [chr (96 + n)]
  end.

(** [key_counts] after the entries [pre]. *)
Definition counts (pre : list entry) (key_counts : gmap str nat) : Prop :=
  forall b, key_counts !! b = match uses b pre with 0 => None | S n => Some n end.

Lemma uses_snoc (b : str) (pre : list entry) (e : entry) :
  uses b (pre ++ [e]) = if bool_decide (base_key e = b) then S (uses b pre) else uses b pre.
Proof.
  unfold uses. rewrite filter_app, length_app.
  destruct (bool_decide (base_key e = b)) eqn:E.
  - apply bool_decide_eq_true in E. rewrite filter_cons_True by exact E. cbn. lia.
  - apply bool_decide_eq_false in E. rewrite filter_cons_False by exact E. cbn. lia.
Qed.

Lemma assign_key_counts (pre : list entry) (key_counts : gmap str nat) (e : entry) :
  counts pre key_counts ->
  fst (assign_key (base_key e) key_counts) = nth_key (base_key e) (uses (base_key e) pre)
  /\ counts (pre ++ [e]) (snd (assign_key (base_key e) key_counts)).
Proof.
  intros H. unfold assign_key. pose proof (H (base_key e)) as Hb.
  destruct (uses (base_key e) pre) as [|n] eqn:En; rewrite Hb; cbn [fst snd nth_key].
  - split; [reflexivity|]. intros b. rewrite uses_snoc.
    destruct (bool_decide (base_key e = b)) eqn:E.
    + apply bool_decide_eq_true in E. subst b. rewrite lookup_insert_eq, En. reflexivity.
    + apply bool_decide_eq_false in E. rewrite lookup_insert_ne by exact E. apply H.
  - rewrite Nat.add_1_r. split; [reflexivity|]. intros b. rewrite uses_snoc.
    destruct (bool_decide (base_key e = b)) eqn:E.
    + apply bool_decide_eq_true in E. subst b. rewrite lookup_insert_eq, En. reflexivity.
    + apply bool_decide_eq_false in E. rewrite lookup_insert_ne by exact E. apply H.
Qed.

Lemma format_all_keys (entries : list entry) : forall (pre : list entry) (key_counts : gmap str nat),
  counts pre key_counts ->
  forall (i : nat) (e : entry), entries !! i = Some e ->
  map fst (format_all entries key_counts) !! i
  = Some (nth_key (base_key e) (uses (base_key e) (pre ++ take i entries))).
Proof.
  induction entries as [|e0 rest IH]; intros pre kc Hc i e Hi; [discriminate|].
  cbn [format_all]. unfold format_entry_key. fold (base_key e0).
  destruct (assign_key_counts pre kc e0 Hc) as [Hk Hc'].
  destruct (assign_key (base_key e0) kc) as [key kc'] eqn:Ea. cbn [fst snd] in Hk, Hc'.
  cbn [map fst]. destruct i as [|j].
  - injection Hi as <-. cbn [lookup list_lookup take]. rewrite app_nil_r, Hk. reflexivity.
  - change ((e0 :: rest) !! S j) with (rest !! j) in Hi.
    change (map fst (format_all rest kc') !! j
            = Some (nth_key (base_key e)
                      (uses (base_key e) (pre ++ e0 :: take j rest)))).
    rewrite (IH (pre ++ [e0]) kc' Hc' j e Hi).
    rewrite <- app_assoc. reflexivity.
Qed.

Lemma counts_empty : counts [] ∅.
Proof. intros b. rewrite lookup_empty. reflexivity. Qed.

(** X10.  In one run of the formatting loop the key of an entry depends
    only on its base key and on how many earlier entries had the same base
    key: none, and the entry gets the base key itself; [n] of them, and it
    gets the base key, an underscore and the character [chr(96 + n)]. *)
Theorem format_all_key_by_count (entries : list entry) (i : nat) (e : entry) :
  entries !! i = Some e ->
  map fst (format_all entries ∅) !! i
  = Some (nth_key (base_key e) (uses (base_key e) (take i entries))).
Proof.
  intros Hi. exact (format_all_keys entries [] ∅ counts_empty i e Hi).
Qed.

Lemma format_all_key_by_count_witness :
  let entries := [Inputs.e_smith; Inputs.e_no_author; Inputs.e_smith2] in
  entries !! 2 = Some Inputs.e_smith2
  /\ uses (base_key Inputs.e_smith2) (take 2 entries) = 1
  /\ map fst (format_all entries ∅) !! 2
     = Some (nth_key (base_key Inputs.e_smith2) (uses (base_key Inputs.e_smith2) (take 2 entries))).
Proof.
  split; [reflexivity|]. split; [vm_compute; reflexivity|].
  exact (format_all_key_by_count [Inputs.e_smith; Inputs.e_no_author; Inputs.e_smith2] 2
           Inputs.e_smith2 eq_refl).
Defined.

Lemma uses_take_lt (entries : list entry) (i j : nat) (ei : entry) :
  i < j -> entries !! i = Some ei ->
  uses (base_key ei) (take i entries) < uses (base_key ei) (take j entries).
Proof.
  intros Hij Hi.
  assert (Hsplit : take j entries = take i entries ++ ei :: take (j - S i) (drop (S i) entries)).
  { rewrite <- (take_drop_middle entries i ei Hi) at 1.
    assert (Hlen : length (take i entries) = i).
    { apply length_take_le. apply lookup_lt_Some in Hi. lia. }
    rewrite take_app_ge by lia. rewrite Hlen.
    replace (j - i) with (S (j - S i)) by lia. reflexivity. }
  rewrite Hsplit. unfold uses. rewrite filter_app, filter_cons_True by reflexivity.
  rewrite length_app. cbn [length]. lia.
Qed.

Lemma chr_inj (n m : nat) : n < 256 -> m < 256 -> chr n = chr m -> n = m.
Proof.
  unfold chr. intros Hn Hm H.
  rewrite <- (nat_ascii_embedding n Hn), <- (nat_ascii_embedding m Hm), H. reflexivity.
Qed.

Lemma nth_key_inj (b : str) (n m : nat) :
  n < 160 -> m < 160 -> nth_key b n = nth_key b m -> n = m.
Proof.
  intros Hn Hm H. destruct n as [|n], m as [|m]; cbn [nth_key] in H.
  - reflexivity.
  - exfalso. apply (f_equal length) in H. rewrite !length_app in H. cbn in H. lia.
  - exfalso. apply (f_equal length) in H. rewrite !length_app in H. cbn in H. lia.
  - apply app_inv_head in H. apply app_inv_head in H. injection H as H.
    apply chr_inj in H; lia.
Qed.

(** X11.  Two entries of one run that have the same base key never get
    the same key, as long as the base key is used fewer than 160 times (the
    range in which the suffix character is within the character model). *)
Theorem same_base_keys_differ (entries : list entry) (i j : nat) (ei ej : entry) :
  i < j -> entries !! i = Some ei -> entries !! j = Some ej ->
  base_key ei = base_key ej -> uses (base_key ej) (take j entries) < 160 ->
  map fst (format_all entries ∅) !! i <> map fst (format_all entries ∅) !! j.
Proof.
  intros Hij Hi Hj Hb Hlt.
  rewrite (format_all_keys entries [] ∅ counts_empty i ei Hi).
  rewrite (format_all_keys entries [] ∅ counts_empty j ej Hj). cbn [app].
  pose proof (uses_take_lt entries i j ei Hij Hi) as Hu. rewrite Hb in *.
  intros H. injection H as H. apply nth_key_inj in H; lia.
Qed.

Lemma same_base_keys_differ_witness :
  let entries := [Inputs.e_smith; Inputs.e_no_author; Inputs.e_smith2] in
  0 < 2 /\ entries !! 0 = Some Inputs.e_smith /\ entries !! 2 = Some Inputs.e_smith2
  /\ base_key Inputs.e_smith = base_key Inputs.e_smith2
  /\ uses (base_key Inputs.e_smith2) (take 2 entries) < 160
  /\ map fst (format_all entries ∅) !! 0 <> map fst (format_all entries ∅) !! 2.
Proof.
  assert (Hb : base_key Inputs.e_smith = base_key Inputs.e_smith2) by (vm_compute; reflexivity).
  assert (Hu : uses (base_key Inputs.e_smith2)
                 (take 2 [Inputs.e_smith; Inputs.e_no_author; Inputs.e_smith2]) < 160).
  { apply Nat.ltb_lt. vm_compute. reflexivity. }
  split; [lia|]. split; [reflexivity|]. split; [reflexivity|]. split; [exact Hb|].
  split; [exact Hu|].
  exact (same_base_keys_differ [Inputs.e_smith; Inputs.e_no_author; Inputs.e_smith2] 0 2
           Inputs.e_smith Inputs.e_smith2 (Nat.lt_0_succ 1) eq_refl eq_refl Hb Hu).
Defined.

End KeyCounts.

(** ** What the serializer writes *)
Section Written.
Import Py Clean Layout.

Lemma drop_trailing_comma_snoc (x : str) : drop_trailing_comma (x ++ py ",") = x.
Proof.
  unfold drop_trailing_comma. change (py ",") with [","%char].
  rewrite last_snoc, length_app. cbn [length].
  replace (length x + 1 - 1) with (length x) by lia. apply take_app_length.
Qed.

Lemma out_fields_skipped (fs : fields) :
  Forall (fun f => fst f ∈ skip_fields) fs -> out_fields fs = [].
Proof.
  intros H.
  assert (Hnone : forall k, k ∉ skip_fields -> lookup_field k fs = None).
  { intros k Hk. apply lookup_field_None. intros Hin.
    apply list_elem_of_fmap in Hin as (f & -> & Hf).
    rewrite Forall_forall in H. exact (Hk (H _ Hf)). }
  unfold out_fields.
  match goal with |- ?a ++ ?b = [] => assert (Ha : a = []); [|assert (Hb : b = []);
    [|rewrite Ha, Hb; reflexivity]] end.
  - assert (Hall : Forall (fun k => k ∉ skip_fields) field_order).
    { apply Forall_forall. intros k Hk. apply order_not_skipped. exact Hk. }
    induction Hall as [|k l Hk _ IH]; [reflexivity|].
    cbn [omap list_omap]. rewrite (Hnone k Hk). exact IH.
  - clear Hnone Ha. induction H as [|f l Hf _ IH]; [reflexivity|].
    cbn [omap list_omap]. rewrite (bool_decide_eq_true_2 (fst f ∈ skip_fields) Hf).
    rewrite orb_true_r. exact IH.
Qed.

(** X12.  When none of the fields of an entry is written (there is none,
    or all are on the deny-list), the last line of the text is the header,
    and it is the header that loses its comma: the text is the opening line
    without comma, a line break and the closing brace. *)
Theorem render_without_fields (entry_type key : str) (fs : fields) :
  Forall (fun f => fst f ∈ skip_fields) fs ->
  render entry_type key fs = py "@" ++ entry_type ++ py "{" ++ key ++ newline ++ py "}".
Proof.
  intros H. rewrite render_out_fields, (out_fields_skipped _ H).
  cbn [map fix_last_line app join].
  replace (py "@" ++ entry_type ++ py "{" ++ key ++ py ",")
    with ((py "@" ++ entry_type ++ py "{" ++ key) ++ py ",")
    by (rewrite <- !app_assoc; reflexivity).
  rewrite drop_trailing_comma_snoc. rewrite <- !app_assoc. reflexivity.
Qed.

Lemma render_without_fields_witness :
  let fs := parse_fields (py "keywords = {a, b}, language = {en}") in
  Forall (fun f => fst f ∈ skip_fields) fs
  /\ render (py "article") (py "K") fs = py "@article{K" ++ newline ++ py "}".
Proof.
  assert (H : Forall (fun f => fst f ∈ skip_fields)
                     (parse_fields (py "keywords = {a, b}, language = {en}"))).
  { apply (bool_decide_unpack _); vm_compute; exact I. }
  split; [exact H|].
  exact (render_without_fields (py "article") (py "K") _ H).
Defined.

Lemma lookup_field_Some_NoDup (k v : str) (fs : fields) :
  NoDup (map fst fs) -> (k, v) ∈ fs -> lookup_field k fs = Some v.
Proof.
  induction fs as [|[k' v'] fs IH]; intros Hnd Hin; [inversion Hin|].
  cbn [map fst] in Hnd. apply NoDup_cons in Hnd as [Hk' Hnd]. cbn [lookup_field].
  apply elem_of_cons in Hin as [Heq|Hin].
  - injection Heq as <- <-. rewrite bool_decide_eq_true_2 by reflexivity. reflexivity.
  - rewrite bool_decide_eq_false_2.
    + apply IH; assumption.
    + intros ->. apply Hk'. apply list_elem_of_fmap. exists (k, v). auto.
Qed.

Lemma NoDup_fst (fs : fields) : NoDup (map fst fs) -> NoDup fs.
Proof. apply NoDup_fmap_1. Qed.

Lemma omap_order_keys (fs : fields) (l : list str) :
  map fst (omap (fun field => (fun v => (field, v)) <$> lookup_field field fs) l)
  `sublist_of` l.
Proof.
  induction l as [|k l IH]; [constructor|]. cbn [omap list_omap].
  destruct (lookup_field k fs); cbn [fmap option_fmap option_map map fst].
  - apply sublist_skip. exact IH.
  - apply sublist_cons. exact IH.
Qed.

Lemma omap_rest_keys (fs : fields) :
  map fst (omap (fun f => if bool_decide (fst f ∈ field_order) || bool_decide (fst f ∈ skip_fields)
                          then None else Some f) fs)
  `sublist_of` map fst fs.
Proof.
  induction fs as [|f fs IH]; [constructor|]. cbn [omap list_omap map].
  destruct (bool_decide (fst f ∈ field_order) || bool_decide (fst f ∈ skip_fields)).
  - apply sublist_cons. exact IH.
  - cbn [map]. apply sublist_skip. exact IH.
Qed.

Lemma field_order_NoDup : NoDup field_order.
Proof. apply (bool_decide_unpack (NoDup field_order)). vm_compute. exact I. Qed.

Lemma out_fields_NoDup (fs : fields) : NoDup (map fst fs) -> NoDup (map fst (out_fields fs)).
Proof.
  intros Hnd. unfold out_fields. rewrite map_app. apply NoDup_app. split; [|split].
  - eapply sublist_NoDup; [apply field_order_NoDup | apply omap_order_keys].
  - intros k Hk Hk'.
    pose proof (elem_of_sublist _ _ _ Hk (omap_order_keys fs field_order)) as Hin.
    apply list_elem_of_fmap in Hk' as (f & -> & Hf).
    apply list_elem_of_omap in Hf as (g & _ & Hg).
    destruct (bool_decide (fst g ∈ field_order)) eqn:E.
    + discriminate.
    + apply bool_decide_eq_false in E. destruct (bool_decide (fst g ∈ skip_fields)); [discriminate|].
      injection Hg as <-. exact (E Hin).
  - eapply sublist_NoDup; [exact Hnd | apply omap_rest_keys].
Qed.

Lemma out_fields_member (fs : fields) (f : str * str) :
  NoDup (map fst fs) -> f ∈ out_fields fs <-> f ∈ fs /\ fst f ∉ skip_fields.
Proof.
  intros Hnd. destruct f as [k v]. cbn [fst]. split.
  - intros H. pose proof (out_fields_subset _ _ H) as Hin. split; [exact Hin|].
    intros Hs.
    assert (Hl : lookup_field k (out_fields fs) = Some v).
    { apply lookup_field_Some_NoDup; [apply out_fields_NoDup; exact Hnd | exact H]. }
    rewrite lookup_out_fields, (bool_decide_eq_true_2 _ Hs) in Hl. discriminate.
  - intros [Hin Hs]. apply lookup_field_In.
    rewrite lookup_out_fields, (bool_decide_eq_false_2 _ Hs).
    apply lookup_field_Some_NoDup; assumption.
Qed.

(** X13.  The text of an entry is its header, one line for each field
    written, and the closing brace.  The fields written are the fields of
    the parsed dictionary that are not on the deny-list, each one exactly
    once: none is dropped, none is written twice. *)
Theorem format_entry_writes_each_field_once (e : entry) (key_counts : gmap str nat) :
  exists written : fields,
    fst (format_entry e key_counts)
    = join newline
        (fix_last_line
           ((py "@" ++ type e ++ py "{" ++ fst (fst (format_entry_key e key_counts)) ++ py ",")
            :: map (fun f => field_line (fst f) (snd f)) written)
         ++ [py "}"])
    /\ written ≡ₚ filter (fun f => fst f ∉ skip_fields) (parse_fields (fields_str e)).
Proof.
  exists (out_fields (parse_fields (fields_str e))). split.
  - unfold format_entry, format_entry_key.
    destruct (assign_key _ key_counts) as [key kc']. cbn [fst snd].
    apply render_out_fields.
  - assert (Hnd : NoDup (map fst (parse_fields (fields_str e)))).
    { unfold parse_fields. apply parse_loop_NoDup. unfold author_fields.
      destruct (parse_author_field (fields_str e)) as [[|]|]; cbn [map fst];
        [apply NoDup_nil_2 | apply NoDup_singleton | apply NoDup_nil_2]. }
    apply NoDup_Permutation.
    + apply NoDup_fst. apply out_fields_NoDup. exact Hnd.
    + apply NoDup_filter. apply NoDup_fst. exact Hnd.
    + intros f. rewrite (out_fields_member _ _ Hnd), list_elem_of_filter. tauto.
Qed.

End Written.

(** ** Normalized titles and significant words *)
Section Words.
Import Py.

(** X14.  A title normalized by merge_pdfs_v3.py holds only lower-case
    letters [a-z], digits and single spaces, and neither starts nor ends
    with a space.  A title normalized by audit_publications.py is a list of
    words joined by single spaces; each word is non-empty and made of word
    characters in lower case, so the text holds no brace, no punctuation
    and no upper-case letter. *)
Theorem normalized_titles_shape (title : str) :
  (let t := Merge.normalize_title title in
   Forall (fun c => Clean.is_lower_alnum c = true \/ c = " "%char) t
   /\ nodbl t /\ hd_ok t /\ hd_ok (rev t))
  /\ exists ws : list str,
       Audit.normalize_title title = join (py " ") ws
       /\ Forall (fun w => w <> []
                    /\ Forall (fun c => is_word c = true /\ lower_char c = c
                                        /\ Audit.is_brace c = false) w) ws.
Proof.
  split; [exact (merge_normalize_title_tidy title)|].
  unfold Audit.normalize_title.
  set (v := filter _ (lower (filter _ title))).
  exists (split v). split; [reflexivity|].
  pose (P := fun c => is_word c = true /\ lower_char c = c /\ Audit.is_brace c = false).
  assert (Hv : Forall (fun c => is_space c = false -> P c) v).
  { unfold v. apply Forall_forall. intros c Hc Hs.
    apply list_elem_of_filter in Hc as [Hc1 Hc2].
    rewrite Hs, orb_false_r in Hc1. apply Is_true_true in Hc1.
    split; [exact Hc1|]. split; [|apply is_word_not_brace; exact Hc1].
    apply list_elem_of_fmap in Hc2 as (c' & -> & _). apply lower_char_idem. }
  pose proof (split_go_tokens P v [] (Forall_nil_2 _) Hv) as Hws.
  eapply Forall_impl; [exact Hws|]. cbn beta. intros w [Hne Hw]. split; [exact Hne|].
  eapply Forall_impl; [exact Hw|]. cbn beta. intros c [_ H]. exact H.
Qed.

(** X15.  Every significant word of a title has more than two characters,
    is no stop word, and holds only lower-case letters [a-z] and digits. *)
Theorem get_title_words_significant (title : str) :
  Forall (fun w => 2 < length w /\ (w ∉ Merge.stopwords)
                   /\ Forall (fun c => Clean.is_lower_alnum c = true) w)
         (Merge.get_title_words title).
Proof.
  unfold Merge.get_title_words. apply Forall_forall. intros w Hw.
  apply list_elem_of_filter in Hw as [Hf Hin].
  apply Is_true_true, andb_true_iff in Hf as [Hstop Hlen].
  split; [apply Nat.ltb_lt; exact Hlen|]. split.
  - apply negb_true_iff, bool_decide_eq_false in Hstop. exact Hstop.
  - destruct (merge_normalize_title_tidy title) as (Hc & _).
    assert (Hs : Forall (fun c => is_space c = false -> Clean.is_lower_alnum c = true)
                        (Merge.normalize_title title)).
    { eapply Forall_impl; [exact Hc|]. cbn beta. intros c [H | ->] Hsp; [exact H|].
      vm_compute in Hsp. discriminate. }
    pose proof (split_go_tokens _ _ [] (Forall_nil_2 _) Hs) as Hws.
    rewrite Forall_forall in Hws. destruct (Hws _ Hin) as [_ Hall].
    eapply Forall_impl; [exact Hall|]. cbn beta. tauto.
Qed.

Lemma Qle_bool_one (threshold : Q) (n : nat) :
  (threshold <= 1)%Q -> 0 < n -> Merge.ratio_ge n n threshold = true.
Proof.
  intros Hthr Hn. unfold Merge.ratio_ge. apply Qle_bool_iff.
  destruct threshold as [a b]. unfold Qle in *. cbn [Qnum Qden] in *.
  assert (Hpos : Zpos (Pos.of_nat n) = Z.of_nat n).
  { rewrite <- positive_nat_Z, Nat2Pos.id by lia. reflexivity. }
  rewrite Hpos. nia.
Qed.

(** X16.  When every significant word of one title is a significant word
    of the other, and there are at least three of them, the two titles
    match for every threshold up to 1, however many more words the other
    title has.  In particular a title with three significant words matches
    itself. *)
Theorem titles_match_contained (title1 title2 : str) (threshold : Q) :
  let words1 : gset str := list_to_set (Merge.get_title_words title1) in
  let words2 : gset str := list_to_set (Merge.get_title_words title2) in
  Merge.get_title_words title1 ⊆ Merge.get_title_words title2 ->
  3 <= size words1 -> (threshold <= 1)%Q ->
  Merge.titles_match title1 title2 threshold = true
  /\ Merge.titles_match title1 title1 threshold = true.
Proof.
  intros words1 words2 Hsub Hsize Hthr.
  assert (Hsub' : words1 ⊆ words2).
  { intros w Hw. apply elem_of_list_to_set. apply elem_of_list_to_set in Hw. exact (Hsub _ Hw). }
  assert (Hle : size words1 <= size words2) by (apply subseteq_size; exact Hsub').
  assert (Hgen : forall w2 : gset str, words1 ⊆ w2 -> size words1 <= size w2 ->
            (if bool_decide (words1 = ∅) || bool_decide (w2 = ∅) then false
             else if Nat.min (size words1) (size w2) <? 3 then false
                  else Merge.ratio_ge (size (words1 ∩ w2))
                         (Nat.min (size words1) (size w2)) threshold) = true).
  { intros w2 Hs Hl.
    rewrite (bool_decide_eq_false_2 (words1 = ∅)).
    2:{ intros H. rewrite H, size_empty in Hsize. lia. }
    rewrite (bool_decide_eq_false_2 (w2 = ∅)).
    2:{ intros H. rewrite H, size_empty in Hl. lia. }
    cbn [orb]. rewrite Nat.min_l by exact Hl.
    replace (size words1 <? 3) with false by (symmetry; apply Nat.ltb_ge; exact Hsize).
    replace (words1 ∩ w2) with words1 by (symmetry; apply subseteq_intersection_1_L; exact Hs).
    apply Qle_bool_one; [exact Hthr | lia]. }
  split.
  - exact (Hgen words2 Hsub' Hle).
  - exact (Hgen words1 (reflexivity _) (Nat.le_refl _)).
Qed.

Lemma titles_match_contained_witness :
  let title1 := py "Religion and Well-Being" in
  let title2 := py "RELIGION, {W}ell-being and the study of cooperation" in
  Merge.get_title_words title1 ⊆ Merge.get_title_words title2
  /\ 3 <= size (list_to_set (Merge.get_title_words title1) : gset str)
  /\ (Merge.default_threshold <= 1)%Q
  /\ Merge.titles_match title1 title2 Merge.default_threshold = true
  /\ Merge.titles_match title1 title1 Merge.default_threshold = true.
Proof.
  assert (H1 : Merge.get_title_words (py "Religion and Well-Being")
               ⊆ Merge.get_title_words (py "RELIGION, {W}ell-being and the study of cooperation")).
  { apply (bool_decide_unpack _). vm_compute. exact I. }
  assert (H2 : 3 <= size (list_to_set (Merge.get_title_words (py "Religion and Well-Being"))
                          : gset str)).
  { vm_compute. lia. }
  assert (H3 : (Merge.default_threshold <= 1)%Q) by (vm_compute; discriminate).
  split; [exact H1|]. split; [exact H2|]. split; [exact H3|].
  exact (titles_match_contained _ _ _ H1 H2 H3).
Defined.

End Words.

(** ** The reports of audit_publications.py *)
Section AuditReports.
Import Py Audit.

Lemma has_marker_indicator (s : str) :
  has_marker s = true -> exists ind, ind ∈ preprint_indicators /\ contains ind s = true.
Proof.
  unfold has_marker. intros H.
  apply orb_true_iff in H as [H|H]; [apply orb_true_iff in H as [H|H]|].
  - exists (py "osf.io"). split; [|exact H]. apply list_elem_of_here.
  - exists (py "psyarxiv"). split; [|exact H].
    apply list_elem_of_further, list_elem_of_here.
  - exists (py "31234"). split; [|exact H].
    do 3 apply list_elem_of_further. apply list_elem_of_here.
Qed.

(** X17.  An entry whose DOI makes the pair loop of [find_duplicates]
    treat it as a preprint (its DOI holds one of the three markers) is
    among the entries [find_preprints] lists; and [find_preprints] lists
    entries of its input only. *)
Theorem marked_entries_are_preprints (entries : list entry) (e : entry) :
  e ∈ entries -> has_marker (lower (get e "doi")) = true ->
  e ∈ find_preprints entries /\ find_preprints entries ⊆ entries.
Proof.
  intros Hin Hm. split.
  - unfold find_preprints. apply list_elem_of_filter. split; [|exact Hin].
    unfold is_preprint. apply existsb_exists.
    destruct (has_marker_indicator _ Hm) as (ind & Hind & Hc).
    exists ind. split; [apply list_elem_of_In; exact Hind|]. rewrite Hc. reflexivity.
  - intros x Hx. unfold find_preprints in Hx. apply list_elem_of_filter in Hx. tauto.
Qed.

Lemma marked_entries_are_preprints_witness :
  let e : entry := list_to_map [(py "ID", py "p0"); (py "doi", py "10.31234/OSF.IO/abcde")] in
  e ∈ [Inputs.b_journal; e] /\ has_marker (lower (get e "doi")) = true
  /\ e ∈ find_preprints [Inputs.b_journal; e].
Proof.
  set (e := list_to_map [(py "ID", py "p0"); (py "doi", py "10.31234/OSF.IO/abcde")] : entry).
  assert (H1 : e ∈ [Inputs.b_journal; e]) by (apply list_elem_of_further, list_elem_of_here).
  assert (H2 : has_marker (lower (get e "doi")) = true) by (vm_compute; reflexivity).
  split; [exact H1|]. split; [exact H2|].
  exact (proj1 (marked_entries_are_preprints _ _ H1 H2)).
Defined.

(** The DOI under which [find_duplicates] groups an entry. *)
Definition group_doi (e : entry) : str := strip (lower (get e "doi")).

(** [by_doi.get(d)] *)
Fixpoint group_of (d : str) (by_doi : list (str * list entry)) : option (list entry) :=
  match by_doi with
  | [] => None
  | (d', g) :: rest => if bool_decide (d' = d) then Some g else group_of d rest
  end.

Lemma group_of_add (d d' : str) (e : entry) (by_doi : list (str * list entry)) :
  group_of d' (group_add d e by_doi)
  = if bool_decide (d = d') then Some (default [] (group_of d by_doi) ++ [e])
    else group_of d' by_doi.
Proof.
  induction by_doi as [|[d0 g] rest IH]; cbn [group_add group_of].
  - destruct (bool_decide (d = d')); reflexivity.
  - destruct (bool_decide (d0 = d)) eqn:E0; cbn [group_of].
    + apply bool_decide_eq_true in E0. subst d0.
      destruct (bool_decide (d = d')); reflexivity.
    + apply bool_decide_eq_false in E0. rewrite IH.
      destruct (bool_decide (d0 = d')) eqn:E1; [|reflexivity].
      apply bool_decide_eq_true in E1. subst d0.
      rewrite bool_decide_eq_false_2 by congruence. reflexivity.
Qed.

Lemma group_add_keys (d : str) (e : entry) (by_doi : list (str * list entry)) :
  map fst (group_add d e by_doi)
  = if bool_decide (d ∈ map fst by_doi) then map fst by_doi else map fst by_doi ++ [d].
Proof.
  induction by_doi as [|[d0 g] rest IH]; cbn [group_add map fst].
  - rewrite bool_decide_eq_false_2 by apply not_elem_of_nil. reflexivity.
  - destruct (bool_decide (d0 = d)) eqn:E0; cbn [map fst].
    + apply bool_decide_eq_true in E0. subst d0.
      rewrite bool_decide_eq_true_2 by apply list_elem_of_here. reflexivity.
    + apply bool_decide_eq_false in E0. rewrite IH.
      destruct (bool_decide (d ∈ map fst rest)) eqn:E1.
      * apply bool_decide_eq_true in E1.
        rewrite bool_decide_eq_true_2 by (apply list_elem_of_further; exact E1). reflexivity.
      * apply bool_decide_eq_false in E1. rewrite bool_decide_eq_false_2; [reflexivity|].
        rewrite not_elem_of_cons. split; congruence.
Qed.

Lemma group_of_member (d : str) (g : list entry) (by_doi : list (str * list entry)) :
  NoDup (map fst by_doi) -> (d, g) ∈ by_doi <-> group_of d by_doi = Some g.
Proof.
  induction by_doi as [|[d0 g0] rest IH]; intros Hnd; cbn [group_of].
  - split; [intros H; inversion H | discriminate].
  - cbn [map fst] in Hnd. apply NoDup_cons in Hnd as [Hd0 Hnd].
    rewrite elem_of_cons, (IH Hnd). destruct (bool_decide (d0 = d)) eqn:E.
    + apply bool_decide_eq_true in E. subst d0. split.
      * intros [H|H]; [congruence|]. exfalso. apply Hd0.
        apply (IH Hnd) in H. apply list_elem_of_fmap. exists (d, g). auto.
      * intros [= ->]. left. reflexivity.
    + apply bool_decide_eq_false in E. split; [intros [H|H]; [congruence | exact H] | auto].
Qed.

(** The groups after the entries [p]. *)
Definition group_if_any (g : list entry) : option (list entry) :=
  match g with [] => None | _ => Some g end.

Definition groups_inv (p : list entry) (by_doi : list (str * list entry)) : Prop :=
  NoDup (map fst by_doi)
  /\ group_of [] by_doi = None
  /\ forall d, d <> [] ->
       group_of d by_doi = group_if_any (filter (fun e => group_doi e = d) p).

Lemma group_by_doi_inv (entries : list entry) : groups_inv entries (group_by_doi entries).
Proof.
  unfold group_by_doi.
  assert (Hgen : forall rest p by_doi, groups_inv p by_doi ->
            groups_inv (p ++ rest)
              (foldl (fun by_doi e =>
                        let doi := strip (lower (get e "doi")) in
                        match doi with [] => by_doi | _ => group_add doi e by_doi end)
                     by_doi rest)).
  { induction rest as [|e rest IH]; intros p by_doi Hinv.
    - rewrite app_nil_r. exact Hinv.
    - cbn [foldl]. replace (p ++ e :: rest) with ((p ++ [e]) ++ rest)
        by (rewrite <- app_assoc; reflexivity).
      apply IH. destruct Hinv as (Hnd & Hnil & Hg). fold (group_doi e).
      destruct (group_doi e) as [|c0 d0] eqn:Ed.
      + split; [exact Hnd|]. split; [exact Hnil|]. intros d Hd.
        rewrite (Hg d Hd), filter_app, filter_cons.
        rewrite decide_False by congruence. rewrite filter_nil, app_nil_r. reflexivity.
      + set (k := c0 :: d0) in *. split; [|split].
        * rewrite group_add_keys. destruct (bool_decide (k ∈ map fst by_doi)) eqn:E; [exact Hnd|].
          apply bool_decide_eq_false in E. apply NoDup_app. split; [exact Hnd|]. split.
          -- intros x Hx Hx'. apply list_elem_of_singleton in Hx'. subst x. exact (E Hx).
          -- apply NoDup_singleton.
        * rewrite group_of_add. rewrite bool_decide_eq_false_2 by discriminate. exact Hnil.
        * intros d Hd. rewrite group_of_add, filter_app, filter_cons.
          destruct (bool_decide (k = d)) eqn:E.
          -- apply bool_decide_eq_true in E. subst d. rewrite decide_True by exact Ed.
             rewrite (Hg k Hd).
             destruct (filter (fun x => group_doi x = k) p) as [|x l]; reflexivity.
          -- apply bool_decide_eq_false in E. rewrite decide_False by congruence.
             rewrite filter_nil, app_nil_r. apply Hg. exact Hd. }
  apply (Hgen entries [] []). split; [apply NoDup_nil_2|]. split; [reflexivity|].
  intros d _. rewrite filter_nil. reflexivity.
Qed.

(** X18.  The first part of the report of [find_duplicates] names a DOI
    exactly when at least two entries have it (in lower case, surrounding
    white space apart), and then lists all of them, in the order of the
    input; an empty DOI is never reported. *)
Theorem same_doi_groups (entries : list entry) (d : str) (l : list (option str * str)) :
  SameDoi d l ∈ same_doi_report (group_by_doi entries)
  <-> d <> [] /\ 1 < length (filter (fun e => group_doi e = d) entries)
      /\ l = map (fun e => (e !! py "ID", take 60 (get e "title")))
                 (filter (fun e => group_doi e = d) entries).
Proof.
  destruct (group_by_doi_inv entries) as (Hnd & Hnil & Hg).
  unfold same_doi_report. rewrite list_elem_of_omap. split.
  - intros ([d' g] & Hin & Hf).
    apply (group_of_member _ _ _ Hnd) in Hin.
    destruct (1 <? length g) eqn:El; [|discriminate].
    injection Hf as -> <-. apply Nat.ltb_lt in El.
    assert (Hd : d <> []) by (intros ->; congruence).
    rewrite (Hg d Hd) in Hin.
    destruct (filter (fun e => group_doi e = d) entries) as [|x t] eqn:E; [discriminate|].
    injection Hin as <-. repeat split; [exact Hd | exact El].
  - intros (Hd & Hlen & ->).
    exists (d, filter (fun e => group_doi e = d) entries). split.
    + apply (group_of_member _ _ _ Hnd). rewrite (Hg d Hd).
      destruct (filter (fun e => group_doi e = d) entries) as [|x t];
        [cbn [length] in Hlen; lia | reflexivity].
    + apply Nat.ltb_lt in Hlen. rewrite Hlen. reflexivity.
Qed.

End AuditReports.

(** ** The similarity score always exists *)
Section Similarity.
Import Py Difflib.

(** A block inside the region of a work-list entry. *)
Definition block_ok (alo ahi blo bhi : nat) (x : best) : Prop :=
  alo <= besti x /\ besti x + bestsize x <= ahi
  /\ blo <= bestj x /\ bestj x + bestsize x <= bhi.

(** The lengths recorded for the row before row [i]. *)
Definition lens_ok (alo blo i : nat) (j2len : gmap nat nat) : Prop :=
  map_Forall (fun j v => v + alo <= i /\ v + blo <= j + 1) j2len.

Lemma scan_js_ok (alo ahi blo bhi i : nat) (j2len : gmap nat nat) (js : list nat) :
  alo <= i -> i < ahi -> lens_ok alo blo i j2len ->
  forall (newj2len : gmap nat nat) (bst : best),
    lens_ok alo blo (S i) newj2len -> block_ok alo ahi blo bhi bst ->
    lens_ok alo blo (S i) (fst (scan_js i blo bhi j2len js newj2len bst))
    /\ block_ok alo ahi blo bhi (snd (scan_js i blo bhi j2len js newj2len bst)).
Proof.
  intros Hlo Hhi Hj. induction js as [|j rest IH]; intros newj2len bst Hn Hb.
  - cbn [scan_js fst snd]. auto.
  - cbn [scan_js]. destruct (j <? blo) eqn:E1; [apply IH; assumption|].
    destruct (bhi <=? j) eqn:E2; [cbn [fst snd]; auto|].
    apply Nat.ltb_ge in E1. apply Nat.leb_gt in E2.
    set (k := match j with 0 => 0 | S j' => default 0 (j2len !! j') end + 1).
    assert (Hk : k + alo <= S i /\ k + blo <= j + 1 /\ 1 <= k).
    { unfold k. clear k. destruct j as [|j']; cbv beta iota; [lia|].
      destruct (j2len !! j') as [v|] eqn:Ev; unfold default, from_option, id; [|lia].
      destruct (Hj _ _ Ev) as [A B]. cbn beta in A, B. lia. }
    clearbody k. apply IH.
    + apply map_Forall_insert_2; [lia | exact Hn].
    + destruct (bestsize bst <? k); [|exact Hb].
      unfold block_ok. cbn [besti bestj bestsize]. lia.
Qed.

Lemma scan_rows_ok (b : str) (alo ahi blo bhi : nat) (n : nat) :
  forall (i : nat) (a_rest : str) (j2len : gmap nat nat) (bst : best),
    alo <= i -> i + n <= ahi -> lens_ok alo blo i j2len -> block_ok alo ahi blo bhi bst ->
    block_ok alo ahi blo bhi (scan_rows b blo bhi n i a_rest j2len bst).
Proof.
  induction n as [|n IH]; intros i a_rest j2len bst Hlo Hhi Hj Hb.
  - destruct a_rest; exact Hb.
  - destruct a_rest as [|ai a']; [exact Hb|]. cbn [scan_rows].
    destruct (scan_js_ok alo ahi blo bhi i j2len (b2j b ai) Hlo ltac:(lia) Hj ∅ bst
                (map_Forall_empty _) Hb) as [Hn' Hb'].
    destruct (scan_js i blo bhi j2len (b2j b ai) ∅ bst) as [newj2len bst'].
    cbn [fst snd] in Hn', Hb'. apply IH; [lia | lia | exact Hn' | exact Hb'].
Qed.

Lemma extend_left_ok (a b : str) (alo ahi blo bhi : nat) (bi : nat) :
  forall (bj bsz : nat),
    block_ok alo ahi blo bhi (Best bi bj bsz) ->
    block_ok alo ahi blo bhi (extend_left a b alo blo bi bj bsz).
Proof.
  induction bi as [|i' IH]; intros bj bsz Hb; [destruct bj; exact Hb|].
  destruct bj as [|j']; [exact Hb|]. cbn [extend_left].
  destruct ((alo <? S i') && (blo <? S j') && bool_decide (a !! i' = b !! j')) eqn:E;
    [|exact Hb].
  apply andb_true_iff in E as [E _]. apply andb_true_iff in E as [E1 E2].
  apply Nat.ltb_lt in E1, E2. apply IH.
  unfold block_ok in *. cbn [besti bestj bestsize] in *. lia.
Qed.

Lemma extend_right_ok (a b : str) (alo ahi blo bhi : nat) (fuel : nat) :
  forall (bi bj bsz : nat),
    block_ok alo ahi blo bhi (Best bi bj bsz) ->
    block_ok alo ahi blo bhi (extend_right fuel a b ahi bhi bi bj bsz).
Proof.
  induction fuel as [|f IH]; intros bi bj bsz Hb; [exact Hb|]. cbn [extend_right].
  destruct ((bi + bsz <? ahi) && (bj + bsz <? bhi)
            && bool_decide (a !! (bi + bsz) = b !! (bj + bsz))) eqn:E; [|exact Hb].
  apply andb_true_iff in E as [E _]. apply andb_true_iff in E as [E1 E2].
  apply Nat.ltb_lt in E1, E2. apply IH.
  unfold block_ok in *. cbn [besti bestj bestsize] in *. lia.
Qed.

Lemma find_longest_match_ok (a b : str) (alo ahi blo bhi : nat) :
  alo <= ahi -> blo <= bhi ->
  block_ok alo ahi blo bhi (find_longest_match a b alo ahi blo bhi).
Proof.
  intros Ha Hb. unfold find_longest_match.
  set (x := scan_rows b blo bhi (ahi - alo) alo (drop alo a) ∅ (Best alo blo 0)).
  assert (Hx : block_ok alo ahi blo bhi x).
  { apply scan_rows_ok; [lia | lia | apply map_Forall_empty |].
    unfold block_ok. cbn [besti bestj bestsize]. lia. }
  set (y := extend_left a b alo blo (besti x) (bestj x) (bestsize x)).
  assert (Hy : block_ok alo ahi blo bhi y).
  { apply extend_left_ok. destruct x. exact Hx. }
  apply extend_right_ok. destruct y. exact Hy.
Qed.

(** Measures of the work list: the rows and the columns still to be
    searched, and the fuel the entries need. *)
Definition rows_left (queue : list (nat * nat * nat * nat)) : nat :=
  foldr (fun '(alo, ahi, _, _) n => (ahi - alo) + n) 0 queue.
Definition cols_left (queue : list (nat * nat * nat * nat)) : nat :=
  foldr (fun '(_, _, blo, bhi) n => (bhi - blo) + n) 0 queue.
Definition turns_left (queue : list (nat * nat * nat * nat)) : nat :=
  foldr (fun '(alo, ahi, _, _) n => 2 * (ahi - alo) + 1 + n) 0 queue.
Definition queue_ok (queue : list (nat * nat * nat * nat)) : Prop :=
  Forall (fun '(alo, ahi, blo, bhi) => alo <= ahi /\ blo <= bhi) queue.

Definition block_total (blocks : list best) : nat := foldr Nat.add 0 (map bestsize blocks).

Lemma block_total_snoc (blocks : list best) (x : best) :
  block_total (blocks ++ [x]) = block_total blocks + bestsize x.
Proof.
  unfold block_total. induction blocks as [|y l IH]; cbn [app map foldr]; [lia|].
  rewrite IH. lia.
Qed.

Lemma blocks_loop_total (a b : str) (fuel : nat) :
  forall (queue : list (nat * nat * nat * nat)) (matching_blocks : list best),
    queue_ok queue -> turns_left queue <= fuel ->
    exists blocks,
      blocks_loop fuel a b queue matching_blocks = Some blocks
      /\ block_total blocks <= block_total matching_blocks + rows_left queue
      /\ block_total blocks <= block_total matching_blocks + cols_left queue.
Proof.
  induction fuel as [|f IH]; intros queue mb Hq Hfuel.
  - destruct queue as [|[[[alo ahi] blo] bhi] q'].
    + exists mb. cbn. split; [reflexivity | lia].
    + cbn [turns_left foldr] in Hfuel. lia.
  - destruct queue as [|[[[alo ahi] blo] bhi] q'].
    + exists mb. cbn. split; [reflexivity | lia].
    + cbn [blocks_loop]. apply Forall_cons in Hq as [[Ha Hb] Hq'].
      pose proof (find_longest_match_ok a b alo ahi blo bhi Ha Hb) as Hx.
      set (x := find_longest_match a b alo ahi blo bhi) in *.
      destruct Hx as (H1 & H2 & H3 & H4).
      cbn [turns_left rows_left cols_left foldr] in *.
      fold (turns_left q') in *. fold (rows_left q'). fold (cols_left q').
      destruct (bestsize x =? 0) eqn:Ek.
      * destruct (IH q' mb Hq' ltac:(lia)) as (r & Hr & Hra & Hrb).
        exists r. split; [exact Hr | lia].
      * apply Nat.eqb_neq in Ek.
        destruct ((alo <? besti x) && (blo <? bestj x)) eqn:E1;
          destruct ((besti x + bestsize x <? ahi) && (bestj x + bestsize x <? bhi)) eqn:E2;
          try (apply andb_true_iff in E1 as [E1a E1b]; apply Nat.ltb_lt in E1a, E1b);
          try (apply andb_true_iff in E2 as [E2a E2b]; apply Nat.ltb_lt in E2a, E2b).
        -- destruct (IH ((besti x + bestsize x, ahi, bestj x + bestsize x, bhi)
                         :: (alo, besti x, blo, bestj x) :: q') (mb ++ [x]))
             as (r & Hr & Hra & Hrb).
           ++ repeat (apply Forall_cons; split); [lia | lia | exact Hq'].
           ++ cbn [turns_left foldr]. fold (turns_left q'). lia.
           ++ exists r. split; [exact Hr|]. rewrite block_total_snoc in Hra, Hrb.
              cbn [rows_left cols_left foldr] in Hra, Hrb.
              fold (rows_left q') in Hra. fold (cols_left q') in Hrb. lia.
        -- destruct (IH ((alo, besti x, blo, bestj x) :: q') (mb ++ [x]))
             as (r & Hr & Hra & Hrb).
           ++ repeat (apply Forall_cons; split); [lia | exact Hq'].
           ++ cbn [turns_left foldr]. fold (turns_left q'). lia.
           ++ exists r. split; [exact Hr|]. rewrite block_total_snoc in Hra, Hrb.
              cbn [rows_left cols_left foldr] in Hra, Hrb.
              fold (rows_left q') in Hra. fold (cols_left q') in Hrb. lia.
        -- destruct (IH ((besti x + bestsize x, ahi, bestj x + bestsize x, bhi) :: q')
                         (mb ++ [x])) as (r & Hr & Hra & Hrb).
           ++ repeat (apply Forall_cons; split); [lia | exact Hq'].
           ++ cbn [turns_left foldr]. fold (turns_left q'). lia.
           ++ exists r. split; [exact Hr|]. rewrite block_total_snoc in Hra, Hrb.
              cbn [rows_left cols_left foldr] in Hra, Hrb.
              fold (rows_left q') in Hra. fold (cols_left q') in Hrb. lia.
        -- destruct (IH q' (mb ++ [x]) Hq' ltac:(lia)) as (r & Hr & Hra & Hrb).
           exists r. split; [exact Hr|]. rewrite block_total_snoc in Hra, Hrb. lia.
Qed.

Lemma matches_total (a b : str) :
  exists m, matches a b = Some m /\ m <= length a /\ m <= length b.
Proof.
  unfold matches, get_matching_blocks.
  destruct (blocks_loop_total a b (4 * (length a + length b) + 4)
              [(0, length a, 0, length b)] []) as (r & Hr & Hra & Hrb).
  - apply Forall_cons. split; [lia | apply Forall_nil_2].
  - cbn [turns_left foldr]. lia.
  - rewrite Hr. exists (block_total r). split; [reflexivity|].
    cbn [rows_left cols_left foldr block_total map] in Hra, Hrb. lia.
Qed.

Lemma ratio_total (a b : str) :
  exists r, ratio a b = Some r /\ (0 <= r)%Q /\ (r <= 1)%Q.
Proof.
  destruct (matches_total a b) as (m & Hm & Ha & Hb).
  unfold ratio. rewrite Hm. cbn [fmap option_fmap option_map].
  eexists. split; [reflexivity|]. unfold calculate_ratio.
  destruct (length a + length b) as [|n] eqn:En.
  - split; discriminate.
  - unfold Qle. cbn [Qnum Qden].
    assert (Hpos : Zpos (Pos.of_nat (S n)) = Z.of_nat (S n)).
    { rewrite <- positive_nat_Z, Nat2Pos.id by lia. reflexivity. }
    rewrite Hpos. split; lia.
Qed.

(** X19.  The similarity score of [similar] always exists (the work list
    of the matcher empties within the fuel of the model) and lies between 0
    and 1.  So [similar] answers the comparison of the threshold with that
    score; it accepts every pair when the threshold is 0 or less, and no
    pair when the threshold is above 1. *)
Theorem similar_total (a b : str) (threshold : Q) :
  exists r : Q,
    ratio a b = Some r /\ (0 <= r)%Q /\ (r <= 1)%Q
    /\ Audit.similar a b threshold = Some (Qle_bool threshold r)
    /\ ((threshold <= 0)%Q -> Audit.similar a b threshold = Some true)
    /\ ((1 < threshold)%Q -> Audit.similar a b threshold = Some false).
Proof.
  destruct (ratio_total a b) as (r & Hr & H0 & H1).
  exists r. unfold Audit.similar. rewrite Hr. cbn [fmap option_fmap option_map].
  repeat split; try assumption.
  - intros H. f_equal. apply Qle_bool_iff. eapply Qle_trans; eassumption.
  - intros H. f_equal. destruct (Qle_bool threshold r) eqn:E; [|reflexivity].
    apply Qle_bool_iff in E. exfalso.
    apply (Qlt_irrefl 1). eapply Qlt_le_trans; [exact H|]. eapply Qle_trans; eassumption.
Qed.

Lemma pair_row_total (e1 : Audit.entry) (t1 : str) (later : list (Audit.entry * str)) :
  exists row, Audit.pair_row e1 t1 later = Some row
              /\ Forall (fun d => exists kind x y, d = Audit.TitlePair kind x y) row
              /\ length row <= length later.
Proof.
  induction later as [|[e2 t2] rest IH]; cbn [Audit.pair_row].
  - exists []. repeat split; [constructor | reflexivity].
  - destruct (ratio_total t1 t2) as (r & Hr & _). unfold Audit.similar. rewrite Hr.
    cbn [fmap option_fmap option_map mbind option_bind].
    destruct IH as (more & Hm & Hall & Hlen). rewrite Hm. cbn [mbind option_bind].
    eexists. split; [reflexivity|]. destruct (Qle_bool Audit.default_threshold r).
    + split; [|cbn [length]; lia]. apply Forall_cons. split; [eauto | exact Hall].
    + split; [exact Hall | cbn [length]; lia].
Qed.

Lemma pair_rows_total (titles : list (Audit.entry * str)) :
  exists pairs, Audit.pair_rows titles = Some pairs
                /\ Forall (fun d => exists kind x y, d = Audit.TitlePair kind x y) pairs
                /\ 2 * length pairs <= length titles * (length titles - 1).
Proof.
  induction titles as [|[e1 t1] rest IH]; cbn [Audit.pair_rows].
  - exists []. repeat split; [constructor | cbn; lia].
  - destruct (pair_row_total e1 t1 rest) as (row & Hr & Hrow & Hlen). rewrite Hr.
    cbn [mbind option_bind]. destruct IH as (more & Hm & Hmore & Hlen'). rewrite Hm.
    cbn [mbind option_bind]. eexists. split; [reflexivity|]. split.
    + apply Forall_app. auto.
    + rewrite length_app. cbn [length]. nia.
Qed.

(** X20.  [find_duplicates] always returns a report: the groups of equal
    DOIs first, then pairs of entries with similar titles, at most one pair
    for every two entries. *)
Theorem find_duplicates_total (entries : list Audit.entry) :
  exists pairs,
    Audit.find_duplicates entries
    = Some (Audit.same_doi_report (Audit.group_by_doi entries) ++ pairs)
    /\ Forall (fun d => exists kind x y, d = Audit.TitlePair kind x y) pairs
    /\ 2 * length pairs <= length entries * (length entries - 1).
Proof.
  unfold Audit.find_duplicates.
  destruct (pair_rows_total
              (map (fun e => (e, Audit.normalize_title (Audit.get e "title"))) entries))
    as (pairs & Hp & Hall & Hlen).
  rewrite Hp. cbn [mbind option_bind]. exists pairs. rewrite length_map in Hlen. auto.
Qed.

End Similarity.

(** ** The matching loop of merge_pdfs_v3.py *)
Section Attach.
Import Py MergeMain.



(** X22.  Running the loop a second time with the same CV entries changes
    no entry and adds no link. *)
Theorem attach_all_twice (cv_entries : list cv_entry) (entries : list entry) :
  let entries' := fst (fst (attach_all cv_entries entries)) in
  attach_all cv_entries entries' = (entries', [], 0).
Proof.
  assert (H : forall e, attach cv_entries (fst (attach cv_entries e))
                        = (fst (attach cv_entries e), None)).
  { intros e. unfold attach at 2 3.
    destruct (bool_decide (is_Some (e !! py "file"))) eqn:Ef.
    - cbn [fst]. unfold attach. rewrite Ef. reflexivity.
    - destruct (List.find (doi_matches (bib_doi e)) cv_entries) as [cv|] eqn:Ed.
      + cbn [fst]. unfold attach. rewrite bool_decide_eq_true_2; [reflexivity|].
        rewrite lookup_insert_eq. eauto.
      + destruct (List.find (title_matches (Audit.get e "title")) cv_entries) as [cv|] eqn:Et.
        * cbn [fst]. unfold attach. rewrite bool_decide_eq_true_2; [reflexivity|].
          rewrite lookup_insert_eq. eauto.
        * cbn [fst]. unfold attach. rewrite Ef, Ed, Et. reflexivity. }
  unfold attach_all. cbn [fst].
  set (l := map (attach cv_entries) entries).
  assert (Hl : map (attach cv_entries) (map fst l) = map (fun x => (x, None)) (map fst l)).
  { unfold l. induction entries as [|e rest IH]; [reflexivity|].
    cbn [map]. rewrite H, IH. reflexivity. }
  rewrite Hl. clearbody l. clear Hl.
  assert (Hfst : map fst (map (fun x : entry => (x, @None (option str * str * match_type)))
                              (map fst l)) = map fst l).
  { rewrite map_map. cbn [fst]. apply map_id. }
  assert (Hsnd : omap snd (map (fun x : entry => (x, @None (option str * str * match_type)))
                               (map fst l)) = []).
  { clear Hfst. induction (map fst l) as [|x t IH]; [reflexivity|].
    cbn [map omap list_omap snd]. exact IH. }
  rewrite Hfst, Hsnd. reflexivity.
Qed.

End Attach.

(** ** The report of incomplete entries *)
Section IncompleteReport.
Import Py Audit Incomplete.

(** None of the fields asked of the entry is missing. *)
Definition has_all_fields (e : entry) : Prop :=
  Forall (fun field => is_missing e field = false)
         (required_fields e ++ recommended_fields e).

#[local] Instance complete_dec e : Decision (has_all_fields e).
Proof. unfold has_all_fields. apply _. Defined.

Lemma filter_missing_nil (e : entry) (l : list str) :
  filter (fun field => is_missing e field = true) l = []
  <-> Forall (fun field => is_missing e field = false) l.
Proof.
  induction l as [|x l IH].
  - split; [constructor | reflexivity].
  - rewrite filter_cons. destruct (decide (is_missing e x = true)) as [Hx|Hx].
    + split; [discriminate|]. intros Hall. apply Forall_cons in Hall as [Hall _]. congruence.
    + rewrite IH. apply not_true_is_false in Hx. split; [intros Hall; constructor; assumption|].
      intros Hall. apply Forall_cons in Hall. tauto.
Qed.

Lemma check_None (e : entry) : check e = None <-> has_all_fields e.
Proof.
  unfold check, has_all_fields. rewrite Forall_app, <- !filter_missing_nil.
  destruct (filter (fun field => is_missing e field = true) (required_fields e));
    destruct (filter (fun field => is_missing e field = true) (recommended_fields e));
    split; try discriminate; try tauto; intros [? ?]; discriminate.
Qed.

Lemma check_cases (e : entry) :
  check e
  = if decide (has_all_fields e) then None
    else Some (Incomplete (default (py "unknown") (e !! py "ID")) (entry_type e)
                 (take 50 (get e "title")) (default (py "n.d.") (e !! py "year"))
                 (filter (fun field => is_missing e field = true) (required_fields e))
                 (filter (fun field => is_missing e field = true) (recommended_fields e))).
Proof.
  destruct (decide (has_all_fields e)) as [H|H].
  - apply check_None. exact H.
  - destruct (check e) as [r|] eqn:E; [|exfalso; apply H, check_None; exact E].
    f_equal. unfold check in E.
    destruct (filter (fun field => is_missing e field = true) (required_fields e));
      destruct (filter (fun field => is_missing e field = true) (recommended_fields e));
      try discriminate; injection E as <-; reflexivity.
Qed.

(** X23.  [find_incomplete_entries] gives, in the order of the entries, one
    record for each entry that misses a field required or recommended for
    its type, and none for the others.  The record holds the identifier of
    the entry (or [unknown]), its type in lower case, the first 50
    characters of its title, its year (or [n.d.]), and, kept apart and in
    the order of the two tables, the required fields it misses and the
    recommended fields it misses.  A field is missing when it is absent or
    holds only white space. *)
Theorem find_incomplete_entries_spec (entries : list entry) :
  find_incomplete_entries entries
  = map (fun e =>
           Incomplete (default (py "unknown") (e !! py "ID")) (entry_type e)
             (take 50 (get e "title")) (default (py "n.d.") (e !! py "year"))
             (filter (fun field => is_missing e field = true) (required_fields e))
             (filter (fun field => is_missing e field = true) (recommended_fields e)))
        (filter (fun e => ~ has_all_fields e) entries)
  /\ (forall e field,
        is_missing e field = true
        <-> e !! field = None \/ exists v, e !! field = Some v /\ strip v = [])
  /\ (forall e,
        has_all_fields e
        <-> forall field, field ∈ required_fields e ++ recommended_fields e ->
              is_missing e field = false).
Proof.
  split; [|split].
  - unfold find_incomplete_entries. induction entries as [|e rest IH]; [reflexivity|].
    cbn [omap list_omap]. rewrite filter_cons, check_cases.
    destruct (decide (has_all_fields e)) as [H|H].
    + rewrite decide_False by tauto. exact IH.
    + rewrite decide_True by exact H. cbn [map]. rewrite IH. reflexivity.
  - intros e field. unfold is_missing. destruct (e !! field) as [v|].
    + rewrite bool_decide_eq_true. split.
      * intros Hv. right. eauto.
      * intros [Hv|(v' & [= <-] & Hv)]; [discriminate | exact Hv].
    + split; auto.
  - intros e. unfold has_all_fields. rewrite Forall_forall. reflexivity.
Qed.

End IncompleteReport.

(** ** Surnames and case *)
Section Surname.
Import Py Clean.

Ltac by_cases_on c := destruct c as [[] [] [] [] [] [] [] []]; vm_compute; intuition congruence.

Lemma is_az_facts c :
  is_az c = true ->
  is_space c = false /\ c <> " "%char /\ c <> ","%char /\ c <> "\"%char /\ c <> "{"%char
  /\ is_brace c = false.
Proof. by_cases_on c. Qed.

Lemma sub_go_prefix (m : str -> option (str * nat)) (P : ascii -> Prop) :
  (forall c t, P c -> m (c :: t) = None) ->
  forall p x, Forall P p -> sub_go m 0 (p ++ x) = p ++ sub_go m 0 x.
Proof.
  intros Hm p x Hp. induction Hp as [|c p Hc _ IH]; [reflexivity|].
  cbn [app sub_go]. rewrite (Hm c (p ++ x) Hc), IH. reflexivity.
Qed.

Lemma match_accent_None c t : c <> "\"%char -> match_accent (c :: t) = None.
Proof. intros H. destruct c as [[] [] [] [] [] [] [] []]; try reflexivity. congruence. Qed.

Lemma match_braced_letter_None c t : c <> "{"%char -> match_braced_letter (c :: t) = None.
Proof. intros H. destruct c as [[] [] [] [] [] [] [] []]; try reflexivity. congruence. Qed.

Lemma split_first_prefix (sep p x : str) (c0 : ascii) (sep' : str) :
  sep = c0 :: sep' -> Forall (fun c => c <> c0) p ->
  split_first sep (p ++ x) = p ++ split_first sep x.
Proof.
  intros -> Hp. induction Hp as [|c p Hc _ IH]; [reflexivity|].
  cbn [app split_first startswith].
  assert (E : eqc c0 c = false).
  { destruct (eqc c0 c) eqn:E; [|reflexivity]. apply eqc_true in E. congruence. }
  rewrite E. cbn [andb]. rewrite IH. reflexivity.
Qed.

Lemma split_first_at (p x : str) :
  Forall (fun c => c <> ","%char) p -> split_first (py ",") (p ++ ","%char :: x) = p.
Proof.
  intros Hp. rewrite (split_first_prefix (py ",") p _ ","%char [] eq_refl Hp).
  cbn. rewrite app_nil_r. reflexivity.
Qed.

Lemma contains_after (p x : str) : contains (py ",") (p ++ ","%char :: x) = true.
Proof.
  induction p as [|c p IH]; [reflexivity|].
  cbn [app contains]. rewrite IH. apply orb_true_r.
Qed.

(** X24.  For an author list that starts with a surname made of letters
    only, followed by a comma, the surname used in the citation key is that
    surname, whatever follows the comma. *)
Theorem surname_before_comma (last_name rest : str) :
  last_name <> [] -> Forall (fun c => is_az c = true) last_name ->
  get_first_author_lastname (last_name ++ ","%char :: rest) = Some last_name.
Proof.
  intros Hne Hl.
  assert (Hfacts : Forall (fun c => is_space c = false /\ c <> " "%char /\ c <> ","%char
                                    /\ c <> "\"%char /\ c <> "{"%char /\ is_brace c = false)
                          last_name).
  { eapply Forall_impl; [exact Hl|]. apply is_az_facts. }
  set (p := last_name ++ [","%char]).
  assert (Hp : Forall (fun c => is_space c = false /\ c <> " "%char
                                /\ c <> "\"%char /\ c <> "{"%char /\ is_brace c = false) p).
  { apply Forall_app. split.
    - eapply Forall_impl; [exact Hfacts|]. cbn beta. tauto.
    - repeat constructor; discriminate. }
  unfold get_first_author_lastname.
  destruct (last_name ++ ","%char :: rest) as [|c0 s0] eqn:Es.
  { destruct last_name; discriminate. }
  rewrite <- Es. clear Es c0 s0.
  replace (last_name ++ ","%char :: rest) with (p ++ rest)
    by (unfold p; rewrite <- app_assoc; reflexivity).
  rewrite (split_first_prefix (py " and ") p rest " "%char (py "and ") eq_refl).
  2:{ eapply Forall_impl; [exact Hp|]. cbn beta. tauto. }
  set (y := split_first (py " and ") rest).
  assert (Hstrip : strip (p ++ y) = p ++ rstrip y).
  { unfold strip. rewrite lstrip_id.
    - apply rstrip_app_stop.
      + unfold p. destruct last_name; discriminate.
      + unfold p. rewrite rev_app_distr. exact eq_refl.
    - unfold p. destruct last_name as [|c l]; [congruence|].
      inversion Hfacts as [|? ? Hc _]. apply Hc. }
  rewrite Hstrip. unfold re_sub.
  rewrite (sub_go_prefix match_accent (fun c => c <> "\"%char) match_accent_None).
  2:{ eapply Forall_impl; [exact Hp|]. cbn beta. tauto. }
  rewrite (sub_go_prefix match_braced_letter (fun c => c <> "{"%char) match_braced_letter_None).
  2:{ eapply Forall_impl; [exact Hp|]. cbn beta. tauto. }
  rewrite filter_app. rewrite (filter_all _ p).
  2:{ eapply Forall_impl; [exact Hp|]. cbn beta. intros c (_ & _ & _ & _ & H).
      rewrite H. exact I. }
  unfold p. rewrite <- app_assoc. cbn [app].
  rewrite contains_after, split_first_at.
  2:{ eapply Forall_impl; [exact Hfacts|]. cbn beta. tauto. }
  rewrite strip_id.
  - rewrite filter_all.
    + destruct last_name; [congruence | reflexivity].
    + eapply Forall_impl; [exact Hl|]. cbn beta. intros c H. rewrite H. exact I.
  - destruct last_name as [|c l]; [congruence|]. inversion Hfacts as [|? ? Hc _]. apply Hc.
  - destruct (rev last_name) as [|c l] eqn:E; [exact I|].
    assert (Hin : c ∈ last_name).
    { apply list_elem_of_In, in_rev. rewrite E. left. reflexivity. }
    rewrite Forall_forall in Hfacts. apply (Hfacts _ Hin).
Qed.

Lemma surname_before_comma_witness :
  py "Bulbulia" <> [] /\ Forall (fun c => is_az c = true) (py "Bulbulia")
  /\ get_first_author_lastname (py "Bulbulia" ++ ","%char :: py " Joseph A. and {\'E}mile, X.")
     = Some (py "Bulbulia").
Proof.
  assert (H : Forall (fun c => is_az c = true) (py "Bulbulia")).
  { apply (bool_decide_unpack _); vm_compute; exact I. }
  split; [discriminate|]. split; [exact H|].
  apply (surname_before_comma (py "Bulbulia")); [discriminate | exact H].
Defined.

(** X25.  A value that holds neither an ampersand nor an opening angle
    bracket is written as it is: the serializer changes only the HTML
    entity of the ampersand and the [scp] tags. *)
Theorem clean_value_plain (value : str) :
  Forall (fun c => c <> "&"%char /\ c <> "<"%char) value -> clean_value value = value.
Proof.
  intros H. unfold clean_value, replace, re_sub.
  assert (Hstart : forall (a c : ascii) (q t : str), c <> a -> startswith (a :: q) (c :: t) = false).
  { intros a c q t Hc. cbn [startswith].
    destruct (eqc a c) eqn:E; [|reflexivity]. apply eqc_true in E. congruence. }
  assert (Hamp : sub_go (fun u => if startswith (py "&amp;") u
                                  then Some (py "&", length (py "&amp;")) else None) 0 value
                 = value).
  { apply (sub_go_no_match _ (fun c => c <> "&"%char)).
    - intros c t Hc. change (py "&amp;") with ("&"%char :: py "amp;").
      rewrite (Hstart _ _ _ _ Hc). reflexivity.
    - eapply Forall_impl; [exact H|]. cbn beta. tauto. }
  rewrite Hamp.
  apply (sub_go_no_match _ (fun c => c <> "<"%char)).
  - intros c t Hc. unfold match_scp.
    change (py "<scp>") with ("<"%char :: py "scp>").
    change (py "</scp>") with ("<"%char :: py "/scp>").
    rewrite !(Hstart _ _ _ _ Hc). reflexivity.
  - eapply Forall_impl; [exact H|]. cbn beta. tauto.
Qed.

Lemma clean_value_plain_witness :
  Forall (fun c => c <> "&"%char /\ c <> "<"%char) (py "Faith and {H}ealth, 2nd ed.")
  /\ clean_value (py "Faith and {H}ealth, 2nd ed.") = py "Faith and {H}ealth, 2nd ed.".
Proof.
  assert (H : Forall (fun c => c <> "&"%char /\ c <> "<"%char) (py "Faith and {H}ealth, 2nd ed.")).
  { apply (bool_decide_unpack _); vm_compute; exact I. }
  split; [exact H | exact (clean_value_plain _ H)].
Defined.

End Surname.

(** ** Case *)
Section Case.
Import Py.

Ltac by_cases_on c := destruct c as [[] [] [] [] [] [] [] []]; vm_compute; intuition congruence.

Lemma lower_char_classes c :
  is_az (lower_char c) = is_az c /\ is_alnum_ascii (lower_char c) = is_alnum_ascii c
  /\ eqc (lower_char c) "\"%char = eqc c "\"%char
  /\ eqc (lower_char c) "{"%char = eqc c "{"%char
  /\ eqc (lower_char c) "}"%char = eqc c "}"%char.
Proof. by_cases_on c. Qed.

Lemma lower_idem (s : str) : lower (lower s) = lower s.
Proof.
  unfold lower. rewrite map_map. apply map_ext. intros c. apply lower_char_idem.
Qed.

Lemma span_len_map (p : ascii -> bool) (f : ascii -> ascii) (s : str) :
  (forall c, p (f c) = p c) -> span_len p (map f s) = span_len p s.
Proof.
  intros H. induction s as [|c t IH]; [reflexivity|].
  cbn [map span_len]. rewrite H, IH. reflexivity.
Qed.

Lemma filter_map_bool (p : ascii -> bool) (f : ascii -> ascii) (s : str) :
  (forall c, p (f c) = p c) ->
  filter (fun c => p c) (map f s) = map f (filter (fun c => p c) s).
Proof.
  intros H. induction s as [|c t IH]; [reflexivity|].
  cbn [map]. rewrite !filter_cons, H, IH.
  destruct (decide (p c)); reflexivity.
Qed.

Lemma sub_go_map (m : str -> option (str * nat)) (f : ascii -> ascii) :
  (forall s, m (map f s) = (fun '(r, n) => (map f r, n)) <$> m s) ->
  forall s k, sub_go m k (map f s) = map f (sub_go m k s).
Proof.
  intros Hm s. induction s as [|c t IH]; intros k; [reflexivity|].
  cbn [map sub_go]. destruct k as [|k]; [|apply IH].
  change (f c :: map f t) with (map f (c :: t)). rewrite Hm.
  destruct (m (c :: t)) as [[r [|n]]|]; cbn [fmap option_fmap option_map map].
  - rewrite IH. reflexivity.
  - rewrite IH, map_app. reflexivity.
  - rewrite IH. reflexivity.
Qed.

(** The command pattern with its argument, test by test. *)
Lemma match_command_group_unfold (c : ascii) (t : str) :
  Merge.match_command_group (c :: t)
  = if eqc c "\"%char then
      match span_len is_az t with
      | 0 => None
      | S n' =>
          match drop (S n') t with
          | h :: u =>
              if eqc h "{"%char then
                let k := span_len (fun c => negb (eqc c "}"%char)) u in
                match drop k u with
                | h2 :: _ =>
                    if eqc h2 "}"%char then Some (take k u, 1 + S n' + 1 + k + 1) else None
                | [] => None
                end
              else None
          | [] => None
          end
      end
    else None.
Proof.
  destruct c as [[] [] [] [] [] [] [] []]; try reflexivity.
  unfold Merge.match_command_group.
  change (eqc "\"%char "\"%char) with true. cbv iota.
  destruct (span_len is_az t) as [|n']; [reflexivity|].
  destruct (drop (S n') t) as [|h u]; [reflexivity|].
  destruct h as [[] [] [] [] [] [] [] []]; try reflexivity.
  change (eqc "{"%char "{"%char) with true. cbv iota zeta.
  destruct (drop (span_len (fun c => negb (eqc c "}"%char)) u) u) as [|h2 u2]; [reflexivity|].
  destruct h2 as [[] [] [] [] [] [] [] []]; reflexivity.
Qed.

Lemma match_command_unfold (c : ascii) (t : str) :
  Merge.match_command (c :: t)
  = if eqc c "\"%char then
      match span_len is_az t with
      | S n => Some ([], 1 + S n)
      | 0 => None
      end
    else None.
Proof. destruct c as [[] [] [] [] [] [] [] []]; reflexivity. Qed.

Lemma match_command_group_lower (s : str) :
  Merge.match_command_group (lower s)
  = (fun '(r, n) => (lower r, n)) <$> Merge.match_command_group s.
Proof.
  destruct s as [|c t]; [reflexivity|]. unfold lower. cbn [map]. fold (lower t).
  rewrite !match_command_group_unfold.
  destruct (lower_char_classes c) as (_ & _ & -> & _ & _).
  destruct (eqc c "\"%char); [|reflexivity].
  unfold lower. rewrite (span_len_map is_az lower_char t) by (intros x; apply lower_char_classes).
  destruct (span_len is_az t) as [|n']; [reflexivity|].
  rewrite <- fmap_drop. destruct (drop (S n') t) as [|h u]; [reflexivity|].
  change (lower_char <$> h :: u) with (lower_char h :: map lower_char u).
  destruct (lower_char_classes h) as (_ & _ & _ & -> & _).
  destruct (eqc h "{"%char); [|reflexivity]. cbv zeta.
  rewrite (span_len_map (fun c => negb (eqc c "}"%char)) lower_char u).
  2:{ intros x. destruct (lower_char_classes x) as (_ & _ & _ & _ & ->). reflexivity. }
  rewrite <- fmap_drop.
  destruct (drop (span_len (fun c => negb (eqc c "}"%char)) u) u) as [|h2 u2]; [reflexivity|].
  change (lower_char <$> h2 :: u2) with (lower_char h2 :: map lower_char u2).
  destruct (lower_char_classes h2) as (_ & _ & _ & _ & ->).
  destruct (eqc h2 "}"%char); [|reflexivity].
  cbn [fmap option_fmap option_map]. rewrite <- fmap_take. reflexivity.
Qed.

Lemma match_command_lower (s : str) :
  Merge.match_command (lower s) = (fun '(r, n) => (lower r, n)) <$> Merge.match_command s.
Proof.
  destruct s as [|c t]; [reflexivity|]. unfold lower. cbn [map].
  rewrite !match_command_unfold.
  destruct (lower_char_classes c) as (_ & _ & -> & _ & _).
  destruct (eqc c "\"%char); [|reflexivity].
  rewrite (span_len_map is_az lower_char t) by (intros x; apply lower_char_classes).
  destruct (span_len is_az t); reflexivity.
Qed.

Lemma collapse_go_lower (b : bool) (s : str) :
  collapse_go b (lower s) = lower (collapse_go b s).
Proof.
  revert b. induction s as [|c t IH]; intros b; [reflexivity|].
  unfold lower in *. cbn [map collapse_go]. rewrite is_space_lower_char.
  destruct (is_space c); [destruct b|]; cbn [map]; rewrite IH; reflexivity.
Qed.

Lemma merge_normalize_title_lower (title : str) :
  Merge.normalize_title (lower title) = Merge.normalize_title title.
Proof.
  destruct title as [|c0 t0]; [reflexivity|].
  change (lower (c0 :: t0)) with (lower_char c0 :: lower t0).
  unfold Merge.normalize_title. cbv iota.
  change (lower_char c0 :: lower t0) with (lower (c0 :: t0)).
  generalize (c0 :: t0). clear c0 t0. intros title.
  unfold re_sub, lower.
  rewrite (sub_go_map Merge.match_command_group lower_char match_command_group_lower).
  rewrite (sub_go_map Merge.match_command lower_char match_command_lower).
  rewrite (filter_map_bool (fun c => negb (Merge.is_brace_or_backslash c))).
  2:{ intros c. unfold Merge.is_brace_or_backslash.
      destruct (lower_char_classes c) as (_ & _ & -> & -> & ->). reflexivity. }
  rewrite !map_map.
  set (u := filter _ (sub_go Merge.match_command 0 _)).
  assert (Hmap : map (fun x => if is_alnum_ascii (lower_char x) || is_space (lower_char x)
                               then lower_char x else " "%char) u
                 = map lower_char (map (fun c => if is_alnum_ascii c || is_space c
                                                 then c else " "%char) u)).
  { rewrite map_map. apply map_ext. intros c.
    destruct (lower_char_classes c) as (_ & -> & _). rewrite is_space_lower_char.
    destruct (is_alnum_ascii c || is_space c); reflexivity. }
  rewrite Hmap. unfold collapse_spaces. fold (lower (map (fun c => if is_alnum_ascii c || is_space c
                                                 then c else " "%char) u)).
  rewrite collapse_go_lower. fold (lower (lower (collapse_go false
    (map (fun c => if is_alnum_ascii c || is_space c then c else " "%char) u)))).
  rewrite lower_idem. reflexivity.
Qed.

Lemma audit_normalize_title_lower (title : str) :
  Audit.normalize_title (lower title) = Audit.normalize_title title.
Proof.
  unfold Audit.normalize_title. unfold lower at 2.
  rewrite (filter_map_bool (fun c => negb (Audit.is_brace c))).
  - fold (lower (filter (fun c => negb (Audit.is_brace c)) title)).
    rewrite lower_idem. reflexivity.
  - intros c. unfold Audit.is_brace.
    destruct (lower_char_classes c) as (_ & _ & _ & -> & ->). reflexivity.
Qed.

(** A text of ASCII characters. *)
Definition ascii_text (s : str) : Prop := Forall (fun c => code c < 128) s.

(** X26.  On ASCII text, case plays no part in the normalizers of titles
    and in the tests built on them: changing an ASCII title to lower case
    beforehand changes neither its normalized form in merge_pdfs_v3.py and
    audit_publications.py, nor the answer of [titles_match], nor (for the
    values of a dictionary) the title key of [deduplicate_by_doi]; and the
    author filter ignores the case of an ASCII author string. *)
Theorem normalizers_ignore_case :
  (forall title, ascii_text title ->
     Merge.normalize_title (lower title) = Merge.normalize_title title)
  /\ (forall title, ascii_text title ->
        Audit.normalize_title (lower title) = Audit.normalize_title title)
  /\ (forall title1 title2 threshold, ascii_text title1 ->
        Merge.titles_match (lower title1) title2 threshold
        = Merge.titles_match title1 title2 threshold)
  /\ (forall fs : Clean.fields, Forall (fun f => ascii_text (snd f)) fs ->
        Clean.normalize_title_key (map (fun f => (fst f, lower (snd f))) fs)
        = Clean.normalize_title_key fs)
  /\ (forall author, ascii_text author ->
        Clean.is_bulbulia_author (lower author) = Clean.is_bulbulia_author author).
Proof.
  split; [intros t _; apply merge_normalize_title_lower|].
  split; [intros t _; apply audit_normalize_title_lower|].
  split; [|split].
  - intros t1 t2 thr _. unfold Merge.titles_match, Merge.get_title_words.
    rewrite merge_normalize_title_lower. reflexivity.
  - intros fs _. unfold Clean.normalize_title_key, Clean.get. rewrite lookup_map_values.
    destruct (Clean.lookup_field (py "title") fs) as [v|]; simpl;
      [rewrite lower_idem|]; reflexivity.
  - intros a _. unfold Clean.is_bulbulia_author. destruct a as [|c t]; [reflexivity|].
    change (lower (c :: t)) with (lower_char c :: lower t) at 1.
    cbv iota. change (lower_char c :: lower t) with (lower (c :: t)).
    rewrite lower_idem. reflexivity.
Qed.

Lemma normalizers_ignore_case_witness :
  let fs : Clean.fields := [(py "title", Inputs.t_mixed)] in
  ascii_text Inputs.t_mixed /\ ascii_text Inputs.a_mixed
  /\ Merge.normalize_title Inputs.t_mixed = py "the book of job a study of faith doubt"
  /\ Merge.normalize_title (lower Inputs.t_mixed) = Merge.normalize_title Inputs.t_mixed
  /\ Audit.normalize_title (lower Inputs.t_mixed) = Audit.normalize_title Inputs.t_mixed
  /\ Merge.titles_match (lower Inputs.t_mixed) Inputs.t_mixed (6 # 10)
     = Merge.titles_match Inputs.t_mixed Inputs.t_mixed (6 # 10)
  /\ Clean.normalize_title_key (map (fun f => (fst f, lower (snd f))) fs)
     = Clean.normalize_title_key fs
  /\ Clean.is_bulbulia_author (lower Inputs.a_mixed) = Clean.is_bulbulia_author Inputs.a_mixed.
Proof.
  intros fs.
  assert (Ht : ascii_text Inputs.t_mixed) by (apply (bool_decide_unpack _); vm_compute; exact I).
  assert (Ha : ascii_text Inputs.a_mixed) by (apply (bool_decide_unpack _); vm_compute; exact I).
  assert (Hfs : Forall (fun f => ascii_text (snd f)) fs) by (constructor; [exact Ht | constructor]).
  destruct normalizers_ignore_case as (H1 & H2 & H3 & H4 & H5).
  split; [exact Ht|]. split; [exact Ha|]. split; [vm_compute; reflexivity|].
  split; [exact (H1 _ Ht)|]. split; [exact (H2 _ Ht)|]. split; [exact (H3 _ _ _ Ht)|].
  split; [exact (H4 _ Hfs) | exact (H5 _ Ha)].
Defined.

End Case.

(** ** The entries read from a file *)
Section EntriesRead.
Import Py Clean Layout ExtractEntries.

Lemma lstrip_char_suffix (c : ascii) (s : str) :
  exists p, s = p ++ lstrip_char c s /\ Forall (fun d => d = c) p.
Proof.
  induction s as [|d t IH]; [exists []; split; [reflexivity | constructor]|].
  cbn [lstrip_char]. destruct (eqc d c) eqn:E.
  - apply eqc_true in E. subst d. destruct IH as (p & Hp & Hall).
    exists (c :: p). split; [cbn [app]; rewrite <- Hp; reflexivity | constructor; auto].
  - exists []. split; [reflexivity | constructor].
Qed.

Lemma lstrip_char_head (c : ascii) (s : str) : head (lstrip_char c s) <> Some c.
Proof.
  induction s as [|d t IH]; [discriminate|]. cbn [lstrip_char].
  destruct (eqc d c) eqn:E; [exact IH|]. cbn [head]. intros [= ->].
  rewrite eqc_refl in E. discriminate.
Qed.

Lemma rstrip_char_prefix (c : ascii) (s : str) :
  exists q, s = rstrip_char c s ++ q /\ Forall (fun d => d = c) q.
Proof.
  unfold rstrip_char. destruct (lstrip_char_suffix c (rev s)) as (p & Hp & Hall).
  exists (rev p). split.
  - rewrite <- rev_app_distr, <- Hp, rev_involutive. reflexivity.
  - apply Forall_rev. exact Hall.
Qed.

Lemma last_rev (s : str) : last (rev s) = head s.
Proof. destruct s as [|c t]; [reflexivity|]. cbn [rev head]. apply last_snoc. Qed.

Lemma rstrip_char_last (c : ascii) (s : str) : last (rstrip_char c s) <> Some c.
Proof. unfold rstrip_char. rewrite last_rev. apply lstrip_char_head. Qed.

Lemma hd_ok_prefix (s q : str) : hd_ok (s ++ q) -> hd_ok s.
Proof. destruct s; [intros _; exact I | exact id]. Qed.

Lemma rstrip_char_hd_ok (c : ascii) (s : str) : hd_ok s -> hd_ok (rstrip_char c s).
Proof.
  intros H. destruct (rstrip_char_prefix c s) as (q & Hq & _).
  rewrite Hq in H. exact (hd_ok_prefix _ _ H).
Qed.

Lemma take_span_len (p : ascii -> bool) (s : str) :
  Forall (fun c => p c = true) (take (span_len p s) s).
Proof.
  destruct (span_split p s) as (a & b & -> & -> & Ha & _).
  rewrite take_app_length. exact Ha.
Qed.

Lemma match_entry_groups (s group1 group2 : str) (len : nat) :
  match_entry s = Some (group1, group2, len) ->
  group1 <> [] /\ Forall (fun c => is_word c = true) group1
  /\ Forall (fun c => c <> ","%char) group2.
Proof.
  unfold match_entry. destruct s as [|c t]; [discriminate|].
  destruct c as [[] [] [] [] [] [] [] []]; try discriminate.
  destruct (span_len is_word t) as [|w] eqn:Ew; [discriminate|].
  destruct (drop (span_len is_space (drop (S w) t)) (drop (S w) t)) as [|h r2]; [discriminate|].
  destruct h as [[] [] [] [] [] [] [] []]; try discriminate.
  destruct (span_len (fun c => negb (eqc c ","%char)) r2) as [|k] eqn:Ek; [discriminate|].
  destruct (drop (S k) r2) as [|h2 r3]; [discriminate|].
  destruct h2 as [[] [] [] [] [] [] [] []]; try discriminate.
  intros [= <- <- <-]. split; [|split].
  - intros H. apply (f_equal length) in H. rewrite length_take in H. cbn [length] in H.
    assert (S w <= length t).
    { rewrite <- Ew. clear. induction t as [|c t IH]; cbn; [lia|]. destruct (is_word c); cbn; lia. }
    lia.
  - rewrite <- Ew. apply take_span_len.
  - rewrite <- Ek. eapply Forall_impl; [apply take_span_len|]. cbn beta.
    intros c Hc ->. discriminate.
Qed.

Lemma entries_loop_Forall (P : entry -> Prop) :
  (forall s group1 group2 len rest e,
     match_entry s = Some (group1, group2, len) -> entry_at group1 group2 rest = Some e -> P e) ->
  forall s skip, Forall P (entries_loop skip s).
Proof.
  intros HP s. induction s as [|c t IH]; intros skip; [constructor|].
  cbn [entries_loop]. destruct skip as [|k]; [|apply IH].
  destruct (match_entry (c :: t)) as [[[g1 g2] len]|] eqn:Em; [|apply IH].
  destruct (entry_at g1 g2 (drop len (c :: t))) as [e|] eqn:Ee; [|apply IH].
  constructor; [|apply IH]. eapply HP; eassumption.
Qed.

(** X27.  Every entry [extract_entries] returns has as type the
    lower-casing of a non-empty run of word characters, and a non-empty key
    without comma and without white space around it; its field text does
    not start with white space and does not end with a comma. *)
Theorem extract_entries_shape (content : str) :
  Forall (fun e =>
            (exists group1, group1 <> [] /\ Forall (fun c => is_word c = true) group1
                            /\ type e = lower group1)
            /\ original_key e <> [] /\ strip (original_key e) = original_key e
            /\ Forall (fun c => c <> ","%char) (original_key e)
            /\ hd_ok (fields_str e) /\ last (fields_str e) <> Some ","%char)
         (extract_entries content).
Proof.
  unfold extract_entries. apply entries_loop_Forall.
  intros s g1 g2 len rest e Hm He.
  destruct (match_entry_groups _ _ _ _ Hm) as (Hne & Hw & Hc).
  unfold entry_at in He. destruct (strip g2) as [|k0 k'] eqn:Ek; [discriminate|].
  destruct (startswith (py "<") (k0 :: k') || contains (py "http-equiv") (lower (k0 :: k')));
    [discriminate|].
  injection He as <-. cbn [type original_key fields_str]. rewrite <- Ek.
  split; [exists g1; auto|]. repeat split.
  - rewrite Ek. discriminate.
  - apply strip_id; [apply strip_hd_ok | apply strip_last_ok].
  - apply strip_Forall. exact Hc.
  - apply rstrip_char_hd_ok, rstrip_char_hd_ok, strip_hd_ok.
  - apply rstrip_char_last.
Qed.

End EntriesRead.

Section StandardEntry.
Import Py Clean Layout ExtractEntries.

Lemma startswith_true (p s : str) : startswith p s = true -> exists r, s = p ++ r.
Proof.
  revert s. induction p as [|a p IH]; intros s H; [exists s; reflexivity|].
  destruct s as [|b s]; [discriminate|]. cbn [startswith] in H.
  apply andb_true_iff in H as [Hab Hp]. apply eqc_true in Hab. subst b.
  destruct (IH _ Hp) as (r & ->). exists r. reflexivity.
Qed.

Lemma contains_needs (p s : str) (c : ascii) :
  c ∈ p -> Forall (fun d => d <> c) s -> contains p s = false.
Proof.
  intros Hc Hs. induction Hs as [|d s Hd Hs IH].
  - cbn [contains]. destruct (startswith p []) eqn:E; [|reflexivity].
    apply startswith_true in E as (r & E). symmetry in E. apply app_eq_nil in E as [-> _].
    inversion Hc.
  - cbn [contains]. rewrite IH, orb_false_r.
    destruct (startswith p (d :: s)) eqn:E; [|reflexivity].
    apply startswith_true in E as (r & E).
    assert (Hin : c ∈ d :: s) by (rewrite E; apply elem_of_app; left; exact Hc).
    apply elem_of_cons in Hin as [->|Hin]; [congruence|].
    rewrite Forall_forall in Hs. exfalso. exact (Hs _ Hin eq_refl).
Qed.

Lemma match_next_at (s : str) : Forall (fun c => c <> "@"%char) s -> match_next s = false.
Proof.
  intros H. destruct s as [|c [|d t]]; try reflexivity.
  apply Forall_cons in H as [_ H]. apply Forall_cons in H as [Hd _].
  unfold match_next. destruct d as [[] [] [] [] [] [] [] []]; try reflexivity. congruence.
Qed.

Lemma re_search_match_next (s : str) :
  Forall (fun c => c <> "@"%char) s -> re_search match_next s = None.
Proof.
  intros H. induction H as [|c s Hc Hs IH]; [reflexivity|].
  cbn [re_search]. rewrite match_next_at by (constructor; assumption). rewrite IH. reflexivity.
Qed.

Lemma match_entry_at (c : ascii) (t : str) : c <> "@"%char -> match_entry (c :: t) = None.
Proof. intros H. destruct c as [[] [] [] [] [] [] [] []]; try reflexivity. congruence. Qed.

Lemma entries_loop_none (s : str) :
  Forall (fun c => c <> "@"%char) s -> entries_loop 0 s = [].
Proof.
  intros H. induction H as [|c s Hc Hs IH]; [reflexivity|].
  cbn [entries_loop]. rewrite (match_entry_at c s Hc). exact IH.
Qed.

Lemma entries_loop_skip (p x : str) : entries_loop (length p) (p ++ x) = entries_loop 0 x.
Proof.
  induction p as [|c p IH]; [reflexivity|]. cbn [length app entries_loop]. exact IH.
Qed.

Lemma word_not_comma (s : str) :
  Forall (fun c => is_word c = true) s ->
  Forall (fun c => negb (eqc c ","%char) = true) s.
Proof.
  intros H. eapply Forall_impl; [exact H|]. cbn beta. intros c Hc.
  destruct (eqc c ","%char) eqn:E; [|reflexivity]. apply eqc_true in E. subst c.
  vm_compute in Hc. discriminate.
Qed.

Lemma match_entry_intro (ty key body : str) :
  ty <> [] -> Forall (fun c => is_word c = true) ty ->
  key <> [] -> Forall (fun c => is_word c = true) key ->
  match_entry ("@"%char :: ty ++ "{"%char :: key ++ ","%char :: body)
  = Some (ty, key, 1 + length ty + 0 + 1 + length key + 1).
Proof.
  intros Hty Hw Hkey Hk. unfold match_entry.
  assert (E1 : span_len is_word (ty ++ "{"%char :: key ++ ","%char :: body) = length ty).
  { rewrite (span_len_all _ _ _ Hw), span_len_stop by reflexivity. lia. }
  rewrite E1. destruct ty as [|a ty']; [congruence|]. cbn [length].
  change (S (length ty')) with (length (a :: ty')).
  rewrite drop_app_length, take_app_length.
  rewrite span_len_stop by reflexivity. cbn [drop].
  assert (E2 : span_len (fun c => negb (eqc c ","%char)) (key ++ ","%char :: body) = length key).
  { rewrite (span_len_all _ _ _ (word_not_comma _ Hk)), span_len_stop by reflexivity. lia. }
  rewrite E2. destruct key as [|b key']; [congruence|]. cbn [length].
  change (S (length key')) with (length (b :: key')).
  rewrite drop_app_length, take_app_length. reflexivity.
Qed.

Lemma word_key_kept (key : str) :
  key <> [] -> Forall (fun c => is_word c = true) key ->
  strip key = key /\ startswith (py "<") key = false
  /\ contains (py "http-equiv") (lower key) = false.
Proof.
  intros Hne Hk.
  assert (Hsp : Forall (fun c => is_space c = false) key).
  { eapply Forall_impl; [exact Hk|]. cbn beta. intros c Hc. apply is_word_facts in Hc. tauto. }
  split; [|split].
  - apply strip_id.
    + destruct key as [|c k]; [exact I|]. apply Forall_cons in Hsp. tauto.
    + destruct (rev key) as [|c k] eqn:E; [exact I|].
      assert (Hin : c ∈ key) by (apply list_elem_of_In, in_rev; rewrite E; left; reflexivity).
      rewrite Forall_forall in Hsp. exact (Hsp _ Hin).
  - destruct key as [|c k]; [congruence|]. apply Forall_cons in Hk as [Hc _].
    cbn [py list_ascii_of_string startswith].
    destruct (eqc "<"%char c) eqn:E; [|reflexivity]. apply eqc_true in E. subst c.
    vm_compute in Hc. discriminate.
  - apply (contains_needs _ _ "-"%char).
    + vm_compute. do 4 apply list_elem_of_further. apply list_elem_of_here.
    + unfold lower. apply Forall_map. eapply Forall_impl; [exact Hk|]. cbn beta.
      intros c Hc E. revert Hc E. clear.
      destruct c as [[] [] [] [] [] [] [] []]; vm_compute; congruence.
Qed.

(** The entries of a content that holds one header and, after it, no at
    sign. *)
Lemma entries_loop_header (ty key body : str) :
  ty <> [] -> Forall (fun c => is_word c = true) ty ->
  key <> [] -> Forall (fun c => is_word c = true) key ->
  Forall (fun c => c <> "@"%char) body ->
  entries_loop 0 (py "@" ++ ty ++ py "{" ++ key ++ py "," ++ body)
  = [Entry (lower ty) key (rstrip_char ","%char (rstrip_char "}"%char (strip body)))].
Proof.
  intros Hty Hw Hkey Hk Hbody.
  change (py "@" ++ ty ++ py "{" ++ key ++ py "," ++ body)
    with ("@"%char :: ty ++ "{"%char :: key ++ ","%char :: body).
  cbn [entries_loop]. rewrite (match_entry_intro ty key body Hty Hw Hkey Hk).
  set (len := 1 + length ty + 0 + 1 + length key + 1).
  assert (Hdrop : drop len ("@"%char :: ty ++ "{"%char :: key ++ ","%char :: body) = body).
  { replace ("@"%char :: ty ++ "{"%char :: key ++ ","%char :: body)
      with (("@"%char :: ty ++ "{"%char :: key ++ [","%char]) ++ body)
      by (cbn [app]; rewrite <- !app_assoc; cbn [app]; rewrite <- app_assoc; reflexivity).
    replace len with (length ("@"%char :: ty ++ "{"%char :: key ++ [","%char])).
    - apply drop_app_length.
    - unfold len. cbn [length]. rewrite !length_app. cbn [length]. rewrite length_app.
      cbn [length]. lia. }
  assert (Hlen : len - 1 = length (ty ++ "{"%char :: key ++ [","%char])).
  { unfold len. rewrite !length_app. cbn [length]. rewrite length_app. cbn [length]. lia. }
  clearbody len.
  rewrite Hdrop. unfold entry_at.
  destruct (word_key_kept key Hkey Hk) as (-> & -> & ->).
  destruct key as [|k0 k'] eqn:Ekey; [congruence|]. rewrite <- Ekey in *. cbn [orb].
  rewrite (re_search_match_next _ Hbody). cbn [default].
  rewrite take_ge by lia.
  f_equal.
  replace (ty ++ "{"%char :: key ++ ","%char :: body)
    with ((ty ++ "{"%char :: key ++ [","%char]) ++ body)
    by (rewrite <- !app_assoc; cbn [app]; rewrite <- app_assoc; reflexivity).
  rewrite Hlen, entries_loop_skip. apply entries_loop_none. exact Hbody.
Qed.

End StandardEntry.

Section EntryLayouts.
Import Py Clean Layout ExtractEntries.

Lemma lstrip_char_id (c : ascii) (s : str) : head s <> Some c -> lstrip_char c s = s.
Proof.
  destruct s as [|d t]; [reflexivity|]. cbn [head lstrip_char]. intros H.
  destruct (eqc d c) eqn:E; [|reflexivity]. apply eqc_true in E. congruence.
Qed.

Lemma head_rev (s : str) : head (rev s) = last s.
Proof. rewrite <- (rev_involutive s) at 2. rewrite last_rev. reflexivity. Qed.

Lemma rstrip_char_id (c : ascii) (s : str) : last s <> Some c -> rstrip_char c s = s.
Proof.
  intros H. unfold rstrip_char. rewrite lstrip_char_id, rev_involutive; [reflexivity|].
  rewrite head_rev. exact H.
Qed.

Lemma rstrip_char_snoc (c : ascii) (s : str) : rstrip_char c (s ++ [c]) = rstrip_char c s.
Proof.
  unfold rstrip_char. rewrite rev_app_distr. cbn [rev app lstrip_char].
  rewrite eqc_refl. reflexivity.
Qed.

Lemma rstrip_char_app_stop (c : ascii) (p x : str) :
  last p <> Some c -> p <> [] -> rstrip_char c (p ++ x) = p ++ rstrip_char c x.
Proof.
  intros Hlast Hne. unfold rstrip_char. rewrite rev_app_distr.
  assert (H : forall a b, head b <> Some c -> b <> [] ->
                          lstrip_char c (a ++ b) = lstrip_char c a ++ b).
  { intros a b Hb Hbne. induction a as [|d a IH].
    - cbn [app lstrip_char]. apply lstrip_char_id. exact Hb.
    - cbn [app lstrip_char]. destruct (eqc d c); [exact IH | reflexivity]. }
  rewrite H.
  - rewrite rev_app_distr, rev_involutive. reflexivity.
  - rewrite head_rev. exact Hlast.
  - intros E. apply Hne. rewrite <- (rev_involutive p), E. reflexivity.
Qed.

Lemma last_bib_fields (fs : fields) : forall x : str,
  last (x ++ newline ++ bib_fields fs) = Some nl.
Proof.
  induction fs as [|f fs IH]; intros x.
  - unfold bib_fields. cbn [map concat]. rewrite app_nil_r. apply last_snoc.
  - unfold bib_fields. cbn [map concat]. fold (bib_fields fs). unfold bib_field.
    replace (x ++ newline ++ (py "  " ++ fst f ++ py " = {" ++ snd f ++ py "}," ++ newline)
             ++ bib_fields fs)
      with ((x ++ newline ++ py "  " ++ fst f ++ py " = {" ++ snd f ++ py "},")
            ++ newline ++ bib_fields fs)
      by (rewrite <- !app_assoc; reflexivity).
    apply IH.
Qed.

Lemma no_at_word (s : str) :
  Forall (fun c => is_word c = true) s -> Forall (fun c => c <> "@"%char) s.
Proof.
  intros H. eapply Forall_impl; [exact H|]. cbn beta. intros c Hc ->.
  vm_compute in Hc. discriminate.
Qed.

Lemma no_at_bib_fields (fs : fields) :
  Forall wf_field fs -> Forall (fun f => Forall (fun c => c <> "@"%char) (snd f)) fs ->
  Forall (fun c => c <> "@"%char) (bib_fields fs).
Proof.
  intros Hwf Hv. induction fs as [|f fs IH]; [constructor|].
  apply Forall_cons in Hwf as [(_ & Hn & _) Hwf]. apply Forall_cons in Hv as [Hf Hv].
  unfold bib_fields. cbn [map concat]. fold (bib_fields fs). unfold bib_field.
  repeat apply Forall_app_2; try (apply IH; assumption); try assumption.
  - repeat constructor; discriminate.
  - apply no_at_word. exact Hn.
  - repeat constructor; discriminate.
  - repeat constructor; discriminate.
  - repeat constructor; discriminate.
Qed.

(** The fields of a body whose first line has lost its indentation. *)
Lemma parse_loop_unindented (n v : str) (fs : fields) (rest : str) (st : fields) :
  wf_field (n, v) -> Forall wf_field fs ->
  parse_loop 0 (n ++ py " = {" ++ v ++ py "}," ++ newline ++ bib_fields fs ++ rest) st
  = parse_loop 0 (sep_after (py "," ++ newline) fs ++ rest) (add_all ((n, v) :: fs) st).
Proof.
  intros (Hne & Hw & Hb) Hwf. cbn [fst snd] in Hne, Hw, Hb.
  pose proof (parse_loop_field [] n (py " ") (py " ") v
                (py "," ++ newline ++ bib_fields fs ++ rest) st) as H.
  cbn [app] in H.
  replace (n ++ py " = {" ++ v ++ py "}," ++ newline ++ bib_fields fs ++ rest)
    with (n ++ py " " ++ "="%char :: py " " ++ "{"%char :: v ++ "}"%char
            :: py "," ++ newline ++ bib_fields fs ++ rest)
    by reflexivity.
  rewrite H.
  - pose proof (parse_loop_bib_fields fs (py "," ++ newline) rest
                  (set_new (lower n) v st)) as H2.
    rewrite <- app_assoc in H2. rewrite H2; [reflexivity | repeat constructor; discriminate | exact Hwf].
  - split; [constructor | exact I].
  - exact Hne.
  - exact Hw.
  - apply space_str.
  - apply space_str.
  - exact Hb.
Qed.


Lemma strip_body (y : str) :
  y <> [] -> hd_ok y -> hd_ok (rev y) -> strip ((newline ++ py "  ") ++ y ++ newline) = y.
Proof.
  intros Hne Hhd Hlast. unfold strip. rewrite lstrip_spaces by (repeat constructor).
  rewrite lstrip_id.
  - rewrite (rstrip_app_stop _ _ Hne Hlast). apply app_nil_r.
  - destruct y; [congruence | exact Hhd].
Qed.

Lemma word_head (n x : str) :
  n <> [] -> Forall (fun c => is_word c = true) n -> hd_ok (n ++ x).
Proof.
  intros Hne Hw. destruct n as [|c n]; [congruence|]. apply Forall_cons in Hw as [Hc _].
  cbn. apply is_word_facts in Hc. tauto.
Qed.

Lemma prefix_depth (a b : str) :
  balanced (a ++ b) -> exists m, brace_depth 0 a = Some m.
Proof.
  unfold balanced. rewrite brace_depth_app.
  destruct (brace_depth 0 a) as [m|]; [eauto | discriminate].
Qed.

(** X28.  An entry written with at least one field, one field per line,
    and its closing brace on a line of its own is read completely, when its
    type, its key and the names are non-empty words, the values have
    matching braces and hold no [@], and the clean-up substitutions leave
    the content as it is: [extract_entries] returns one entry with the type
    in lower case and the key, and [parse_fields] finds in its field text
    every field of the body, the author being the one the dedicated scan
    finds. *)
Theorem standard_entry_read (ty key n v : str) (fs : fields) :
  ty <> [] -> Forall (fun c => is_word c = true) ty ->
  key <> [] -> Forall (fun c => is_word c = true) key ->
  Forall wf_field ((n, v) :: fs) ->
  Forall (fun f => Forall (fun c => c <> "@"%char) (snd f)) ((n, v) :: fs) ->
  let content := py "@" ++ ty ++ py "{" ++ key ++ py "," ++ newline
                 ++ bib_fields ((n, v) :: fs) ++ py "}" ++ newline in
  clean_content content = content ->
  exists fields_str,
    extract_entries content = [Entry (lower ty) key fields_str]
    /\ parse_fields fields_str = add_all ((n, v) :: fs) (author_fields fields_str)
    /\ forall k, k <> py "author" ->
         lookup_field k (parse_fields fields_str) = lookup_field k (lowered ((n, v) :: fs)).
Proof.
  intros Hty Htw Hkey Hkw Hwf Hat content Hclean.
  set (w := n ++ py " = {" ++ v ++ py "}," ++ newline ++ bib_fields fs).
  assert (Hn : n <> [] /\ Forall (fun c => is_word c = true) n).
  { apply Forall_cons in Hwf as [(H1 & H2 & _) _]. auto. }
  assert (Hlast : last w = Some nl).
  { unfold w.
    replace (n ++ py " = {" ++ v ++ py "}," ++ newline ++ bib_fields fs)
      with ((n ++ py " = {" ++ v ++ py "},") ++ newline ++ bib_fields fs)
      by (rewrite <- !app_assoc; reflexivity).
    apply last_bib_fields. }
  assert (Hbody : newline ++ bib_fields ((n, v) :: fs) ++ py "}" ++ newline
                  = (newline ++ py "  ") ++ (w ++ py "}") ++ newline).
  { unfold w, bib_fields. cbn [map concat]. unfold bib_field. cbn [fst snd].
    rewrite <- !app_assoc. reflexivity. }
  exists w. split; [|split].
  - unfold extract_entries. rewrite Hclean. unfold content.
    rewrite entries_loop_header; try assumption.
    + assert (Hy : strip ((newline ++ py "  ") ++ (w ++ py "}") ++ newline) = w ++ py "}").
      { apply strip_body.
        - destruct w; discriminate.
        - unfold w. rewrite <- app_assoc. apply word_head; apply Hn.
        - rewrite rev_app_distr. reflexivity. }
      rewrite Hbody, Hy. change (py "}") with ["}"%char]. rewrite rstrip_char_snoc.
      rewrite (rstrip_char_id "}"%char w) by (rewrite Hlast; discriminate).
      rewrite (rstrip_char_id ","%char w) by (rewrite Hlast; discriminate).
      reflexivity.
    + apply Forall_app_2; [repeat constructor; discriminate|].
      apply Forall_app_2; [apply no_at_bib_fields; assumption|].
      repeat constructor; discriminate.
  - unfold parse_fields.
    pose proof (parse_loop_unindented n v fs [] (author_fields w)) as H.
    rewrite !app_nil_r in H. fold w in H. rewrite H.
    + apply parse_loop_no_eq. apply sep_after_no_eq. repeat constructor; discriminate.
    + apply Forall_cons in Hwf. tauto.
    + apply Forall_cons in Hwf. tauto.
  - intros k Hk. unfold parse_fields.
    pose proof (parse_loop_unindented n v fs [] (author_fields w)) as H.
    rewrite !app_nil_r in H. fold w in H. rewrite H.
    + rewrite parse_loop_no_eq by (apply sep_after_no_eq; repeat constructor; discriminate).
      rewrite lookup_add_all, (lookup_author_fields _ _ Hk). reflexivity.
    + apply Forall_cons in Hwf. tauto.
    + apply Forall_cons in Hwf. tauto.
Qed.

Lemma standard_entry_read_witness :
  let content := py "@" ++ py "Article" ++ py "{" ++ py "K1" ++ py "," ++ newline
                 ++ bib_fields Inputs.body_before ++ py "}" ++ newline in
  clean_content content = content
  /\ exists fields_str,
       extract_entries content = [Entry (lower (py "Article")) (py "K1") fields_str]
       /\ parse_fields fields_str
          = add_all Inputs.body_before (author_fields fields_str)
       /\ forall k, k <> py "author" ->
            lookup_field k (parse_fields fields_str)
            = lookup_field k (lowered Inputs.body_before).
Proof.
  assert (Hclean : clean_content (py "@" ++ py "Article" ++ py "{" ++ py "K1" ++ py "," ++ newline
                     ++ bib_fields Inputs.body_before ++ py "}" ++ newline)
                   = py "@" ++ py "Article" ++ py "{" ++ py "K1" ++ py "," ++ newline
                     ++ bib_fields Inputs.body_before ++ py "}" ++ newline).
  { vm_compute. reflexivity. }
  split; [exact Hclean|].
  apply (standard_entry_read (py "Article") (py "K1") (py "author") (py "Bulbulia, J.")
           [(py "Title", py "A {B}ook")]).
  - discriminate.
  - apply (bool_decide_unpack _); vm_compute; exact I.
  - discriminate.
  - apply (bool_decide_unpack _); vm_compute; exact I.
  - exact wf_body_before.
  - apply (bool_decide_unpack _); vm_compute; exact I.
  - exact Hclean.
Defined.

(** X29.  When the closing brace of an entry follows the value of its last
    field directly, on the same line, that field is lost: the field text
    [extract_entries] returns stops inside the value, and the dictionary of
    [parse_fields] is the one of the fields before it.  This is for an
    entry whose type, key and names are non-empty words, whose values have
    matching braces and hold no [@], whose last value holds no equal sign
    either (text after an equal sign in it would be read as a field), and
    whose content the clean-up substitutions leave as it is. *)
Theorem last_field_lost (ty key name v : str) (fs : fields) :
  ty <> [] -> Forall (fun c => is_word c = true) ty ->
  key <> [] -> Forall (fun c => is_word c = true) key ->
  Forall wf_field fs ->
  Forall (fun f => Forall (fun c => c <> "@"%char) (snd f)) fs ->
  name <> [] -> Forall (fun c => is_word c = true) name ->
  balanced v -> no_eq v -> Forall (fun c => c <> "@"%char) v ->
  let content := py "@" ++ ty ++ py "{" ++ key ++ py "," ++ newline
                 ++ bib_fields fs ++ py "  " ++ name ++ py " = {" ++ v ++ py "}}" ++ newline in
  clean_content content = content ->
  exists fields_str,
    extract_entries content = [Entry (lower ty) key fields_str]
    /\ parse_fields fields_str = add_all fs (author_fields fields_str)
    /\ (lower name <> py "author" ->
        lookup_field (lower name) (parse_fields fields_str)
        = lookup_field (lower name) (lowered fs)).
Proof.
  intros Hty Htw Hkey Hkw Hwf Hat Hname Hnw Hbal Hnoeq Hvat content Hclean.
  set (v' := rstrip_char ","%char (rstrip_char "}"%char v)).
  (* the text before the value that is cut *)
  set (x := match fs with
            | [] => name ++ py " = {"
            | f :: fs' => fst f ++ py " = {" ++ snd f ++ py "}," ++ newline ++ bib_fields fs'
                          ++ py "  " ++ name ++ py " = {"
            end).
  assert (Hbody : newline ++ bib_fields fs ++ py "  " ++ name ++ py " = {" ++ v
                  ++ py "}}" ++ newline
                  = (newline ++ py "  ") ++ (x ++ v ++ py "}}") ++ newline).
  { unfold x. destruct fs as [|f fs'].
    - unfold bib_fields. cbn [map concat]. rewrite <- !app_assoc. reflexivity.
    - unfold bib_fields. cbn [map concat]. unfold bib_field. rewrite <- !app_assoc. reflexivity. }
  assert (Hx : x <> [] /\ hd_ok x /\ last x = Some "{"%char).
  { unfold x. destruct fs as [|f fs'].
    - split; [destruct name; [congruence | discriminate]|]. split.
      + apply word_head; assumption.
      + change (py " = {") with (py " = " ++ ["{"%char]). rewrite app_assoc. apply last_snoc.
    - apply Forall_cons in Hwf as [(H1 & H2 & _) _].
      split; [destruct (fst f); [congruence | discriminate]|]. split.
      + apply word_head; assumption.
      + change (py " = {") with (py " = " ++ ["{"%char]) at 2.
        rewrite !app_assoc. apply last_snoc. }
  destruct Hx as (Hxne & Hxhd & Hxlast).
  assert (Hv' : exists q, v = v' ++ q).
  { unfold v'. destruct (rstrip_char_prefix "}"%char v) as (q1 & Hq1 & _).
    destruct (rstrip_char_prefix ","%char (rstrip_char "}"%char v)) as (q2 & Hq2 & _).
    exists (q2 ++ q1). rewrite app_assoc, <- Hq2. exact Hq1. }
  destruct Hv' as (q & Hq).
  assert (Hopen : scan_braces 0 ("{"%char :: v') = None).
  { rewrite Hq in Hbal. destruct (prefix_depth _ _ Hbal) as (m & Hm).
    exact (open_group _ _ Hm). }
  assert (Hnoeq' : no_eq ("{"%char :: v')).
  { constructor; [discriminate|]. unfold no_eq in Hnoeq. rewrite Hq in Hnoeq.
    apply Forall_app in Hnoeq. tauto. }
  assert (Htidy : rstrip_char ","%char
                    (rstrip_char "}"%char (strip ((newline ++ py "  ") ++ (x ++ v ++ py "}}")
                                                   ++ newline)))
                  = x ++ v').
  { rewrite strip_body.
    - replace (x ++ v ++ py "}}") with (x ++ (v ++ ["}"%char]) ++ ["}"%char])
        by (rewrite <- !app_assoc; reflexivity).
      rewrite (rstrip_char_app_stop "}"%char x) by (rewrite ?Hxlast; congruence).
      rewrite !rstrip_char_snoc.
      rewrite (rstrip_char_app_stop ","%char x) by (rewrite ?Hxlast; congruence).
      reflexivity.
    - destruct x; [congruence | discriminate].
    - destruct x as [|c x']; [congruence | exact Hxhd].
    - rewrite !rev_app_distr. reflexivity. }
  assert (Hparse : forall st, parse_loop 0 (x ++ v') st = add_all fs st).
  { intros st. unfold x. destruct fs as [|[n0 v0] fs'].
    - pose proof (parse_loop_open_field [] name (py " ") (py " ") v' st) as H.
      replace ((name ++ py " = {") ++ v')
        with ([] ++ name ++ py " " ++ "="%char :: py " " ++ "{"%char :: v')
        by (rewrite <- app_assoc; reflexivity).
      rewrite H; try assumption.
      + apply parse_loop_no_eq. exact Hnoeq'.
      + split; [constructor | exact I].
      + apply space_str.
      + apply space_str.
    - cbn [fst snd]. apply Forall_cons in Hwf as [Hf Hwf'].
      replace ((n0 ++ py " = {" ++ v0 ++ py "}," ++ newline ++ bib_fields fs'
                ++ py "  " ++ name ++ py " = {") ++ v')
        with (n0 ++ py " = {" ++ v0 ++ py "}," ++ newline ++ bib_fields fs'
              ++ (py "  " ++ name ++ py " = {" ++ v'))
        by (rewrite <- !app_assoc; reflexivity).
      rewrite (parse_loop_unindented n0 v0 fs' _ st Hf Hwf').
      pose proof (parse_loop_open_field (sep_after (py "," ++ newline) fs' ++ py "  ")
                    name (py " ") (py " ") v' (add_all ((n0, v0) :: fs') st)) as H.
      replace (sep_after (py "," ++ newline) fs' ++ py "  " ++ name ++ py " = {" ++ v')
        with ((sep_after (py "," ++ newline) fs' ++ py "  ") ++ name ++ py " "
              ++ "="%char :: py " " ++ "{"%char :: v')
        by (rewrite <- !app_assoc; reflexivity).
      rewrite H; try assumption.
      + apply parse_loop_no_eq. exact Hnoeq'.
      + apply quiet_indent. apply sep_after_no_eq. repeat constructor; discriminate.
      + apply space_str.
      + apply space_str. }
  exists (x ++ v'). split; [|split].
  - unfold extract_entries. rewrite Hclean. unfold content.
    rewrite entries_loop_header; try assumption.
    + rewrite Hbody, Htidy. reflexivity.
    + apply Forall_app_2; [repeat constructor; discriminate|].
      apply Forall_app_2; [apply no_at_bib_fields; assumption|].
      apply Forall_app_2; [repeat constructor; discriminate|].
      apply Forall_app_2; [apply no_at_word; assumption|].
      apply Forall_app_2; [repeat constructor; discriminate|].
      apply Forall_app_2; [assumption|]. repeat constructor; discriminate.
  - unfold parse_fields. apply Hparse.
  - intros Hk. unfold parse_fields. rewrite Hparse, lookup_add_all.
    rewrite (lookup_author_fields _ _ Hk). reflexivity.
Qed.

Lemma last_field_lost_witness :
  let content := py "@" ++ py "article" ++ py "{" ++ py "K1" ++ py "," ++ newline
                 ++ bib_fields Inputs.body_before
                 ++ py "  " ++ py "year" ++ py " = {" ++ py "2020" ++ py "}}" ++ newline in
  clean_content content = content
  /\ (map (fun e => parse_fields (fields_str e)) (extract_entries content)
      = [[(py "author", py "Bulbulia, J."); (py "title", py "A {B}ook")]])
  /\ exists fields_str,
       extract_entries content = [Entry (lower (py "article")) (py "K1") fields_str]
       /\ parse_fields fields_str = add_all Inputs.body_before (author_fields fields_str)
       /\ (lower (py "year") <> py "author" ->
           lookup_field (lower (py "year")) (parse_fields fields_str)
           = lookup_field (lower (py "year")) (lowered Inputs.body_before)).
Proof.
  assert (Hclean : clean_content (py "@" ++ py "article" ++ py "{" ++ py "K1" ++ py "," ++ newline
                     ++ bib_fields Inputs.body_before
                     ++ py "  " ++ py "year" ++ py " = {" ++ py "2020" ++ py "}}" ++ newline)
                   = py "@" ++ py "article" ++ py "{" ++ py "K1" ++ py "," ++ newline
                     ++ bib_fields Inputs.body_before
                     ++ py "  " ++ py "year" ++ py " = {" ++ py "2020" ++ py "}}" ++ newline).
  { vm_compute. reflexivity. }
  split; [exact Hclean|]. split; [vm_compute; reflexivity|].
  apply (last_field_lost (py "article") (py "K1") (py "year") (py "2020") Inputs.body_before).
  - discriminate.
  - apply (bool_decide_unpack _); vm_compute; exact I.
  - discriminate.
  - apply (bool_decide_unpack _); vm_compute; exact I.
  - exact wf_body_before.
  - apply (bool_decide_unpack _); vm_compute; exact I.
  - discriminate.
  - apply (bool_decide_unpack _); vm_compute; exact I.
  - reflexivity.
  - unfold no_eq. apply (bool_decide_unpack _); vm_compute; exact I.
  - apply (bool_decide_unpack _); vm_compute; exact I.
  - exact Hclean.
Defined.

End EntryLayouts.

(** ** The order of the output *)
Section Sorted.
Import Py SortEntries.

Lemma str_lt_irrefl (a : str) : str_lt a a = false.
Proof.
  induction a as [|x a IH]; [reflexivity|]. cbn [str_lt].
  rewrite Nat.ltb_irrefl, Nat.eqb_refl, IH. reflexivity.
Qed.

Lemma str_lt_trans (a : str) : forall b c,
  str_lt a b = true -> str_lt b c = true -> str_lt a c = true.
Proof.
  induction a as [|x a IH]; intros [|y b] [|z c] Hab Hbc; try discriminate; try reflexivity.
  cbn [str_lt] in *.
  apply orb_true_iff in Hab as [Hab|Hab]; apply orb_true_iff in Hbc as [Hbc|Hbc].
  - apply Nat.ltb_lt in Hab, Hbc. apply orb_true_iff. left. apply Nat.ltb_lt. lia.
  - apply andb_true_iff in Hbc as [Hyz _]. apply Nat.ltb_lt in Hab. apply Nat.eqb_eq in Hyz.
    apply orb_true_iff. left. apply Nat.ltb_lt. lia.
  - apply andb_true_iff in Hab as [Hxy _]. apply Nat.ltb_lt in Hbc. apply Nat.eqb_eq in Hxy.
    apply orb_true_iff. left. apply Nat.ltb_lt. lia.
  - apply andb_true_iff in Hab as [Hxy Hab]. apply andb_true_iff in Hbc as [Hyz Hbc].
    apply Nat.eqb_eq in Hxy, Hyz. apply orb_true_iff. right.
    apply andb_true_iff. split; [apply Nat.eqb_eq; lia | exact (IH _ _ Hab Hbc)].
Qed.

Lemma key_lt_irrefl (a : str) : key_lt a a = false.
Proof.
  unfold key_lt. rewrite Nat.ltb_irrefl, Nat.eqb_refl, str_lt_irrefl. reflexivity.
Qed.

Lemma key_lt_trans (a b c : str) :
  key_lt a b = true -> key_lt b c = true -> key_lt a c = true.
Proof.
  unfold key_lt. intros Hab Hbc.
  apply orb_true_iff in Hab as [Hab|Hab]; apply orb_true_iff in Hbc as [Hbc|Hbc].
  - apply Nat.ltb_lt in Hab, Hbc. apply orb_true_iff. left. apply Nat.ltb_lt. lia.
  - apply andb_true_iff in Hbc as [Hy _]. apply Nat.ltb_lt in Hab. apply Nat.eqb_eq in Hy.
    apply orb_true_iff. left. apply Nat.ltb_lt. lia.
  - apply andb_true_iff in Hab as [Hy _]. apply Nat.ltb_lt in Hbc. apply Nat.eqb_eq in Hy.
    apply orb_true_iff. left. apply Nat.ltb_lt. lia.
  - apply andb_true_iff in Hab as [Hy1 Hab]. apply andb_true_iff in Hbc as [Hy2 Hbc].
    apply Nat.eqb_eq in Hy1, Hy2. apply orb_true_iff. right.
    apply andb_true_iff. split; [apply Nat.eqb_eq; lia | exact (str_lt_trans _ _ _ Hab Hbc)].
Qed.

(** No text of [l] comes before an earlier one in the order of the keys. *)
Fixpoint ordered (l : list str) : Prop :=
  match l with
  | [] => True
  | a :: t => Forall (fun b => key_lt b a = false) t /\ ordered t
  end.

Lemma insert_perm (x : str) (l : list str) : insert x l ≡ₚ x :: l.
Proof.
  induction l as [|y t IH]; [reflexivity|]. cbn [insert].
  destruct (key_lt x y); [reflexivity|]. rewrite IH. apply Permutation_swap.
Qed.

Lemma insert_ordered (x : str) (l : list str) : ordered l -> ordered (insert x l).
Proof.
  induction l as [|y t IH]; intros Hl; [cbn; auto|].
  destruct Hl as [Hy Ht]. cbn [insert]. destruct (key_lt x y) eqn:E.
  - cbn [ordered]. split; [|split; assumption]. constructor.
    + destruct (key_lt y x) eqn:E'; [|reflexivity].
      pose proof (key_lt_trans _ _ _ E E') as H. rewrite key_lt_irrefl in H. discriminate.
    + eapply Forall_impl; [exact Hy|]. cbn beta. intros z Hz.
      destruct (key_lt z x) eqn:E'; [|reflexivity].
      pose proof (key_lt_trans _ _ _ E' E) as H. congruence.
  - cbn [ordered]. split; [|apply IH; exact Ht].
    rewrite (insert_perm x t). constructor; assumption.
Qed.

Lemma ordered_lookup (l : list str) : forall (i j : nat) (a b : str),
  ordered l -> i < j -> l !! i = Some a -> l !! j = Some b -> key_lt b a = false.
Proof.
  induction l as [|c t IH]; intros i j a b Hl Hij Hi Hj; [discriminate|].
  destruct Hl as [Hc Ht]. destruct j as [|j]; [lia|].
  change ((c :: t) !! S j) with (t !! j) in Hj. destruct i as [|i].
  - injection Hi as <-. rewrite Forall_forall in Hc. apply Hc.
    apply list_elem_of_lookup. eauto.
  - change ((c :: t) !! S i) with (t !! i) in Hi. apply (IH i j); [assumption | lia | assumption | assumption].
Qed.

Lemma sort_spec (l : list str) : forall placed,
  ordered placed ->
  ordered (foldl (fun placed x => insert x placed) placed l)
  /\ foldl (fun placed x => insert x placed) placed l ≡ₚ placed ++ l.
Proof.
  induction l as [|x l IH]; intros placed Hp; cbn [foldl].
  - rewrite app_nil_r. auto.
  - destruct (IH (insert x placed) (insert_ordered _ _ Hp)) as [Ho Hperm].
    split; [exact Ho|]. rewrite Hperm, insert_perm. apply Permutation_middle.
Qed.

(** X30.  The final sort of [main] returns the formatted entries in
    another order, none lost and none added, such that the years never
    increase along the list, an entry without a year of four digits
    counting as year 0 and so coming last, and such that entries of one
    year follow the order of their texts. *)
Theorem sort_orders_by_year (formatted_entries : list str) :
  sort formatted_entries ≡ₚ formatted_entries
  /\ forall (i j : nat) (a b : str),
       i < j -> sort formatted_entries !! i = Some a -> sort formatted_entries !! j = Some b ->
       year_of b <= year_of a /\ (year_of a = year_of b -> str_lt b a = false).
Proof.
  destruct (sort_spec formatted_entries [] I) as [Ho Hperm]. fold (sort formatted_entries) in *.
  split; [exact Hperm|]. intros i j a b Hij Hi Hj.
  pose proof (ordered_lookup _ _ _ _ _ Ho Hij Hi Hj) as H. unfold key_lt in H.
  apply orb_false_iff in H as [H1 H2]. apply Nat.ltb_ge in H1. split; [exact H1|].
  intros Heq. rewrite Heq, Nat.eqb_refl in H2. exact H2.
Qed.

End Sorted.

(** ** Evaluation on concrete inputs *)

Example normalize_title_ex :
  Merge.normalize_title (py "Religion and \emph{Well-Being}:  A {S}tudy")
  = py "religion and well being a study".
Proof. vm_compute. reflexivity. Qed.

Example titles_match_ex :
  Merge.titles_match (py "Religion and Well-Being: A Study of cooperation")
                     (py "RELIGION AND WELL BEING") Merge.default_threshold = true.
Proof. vm_compute. reflexivity. Qed.

Example audit_normalize_title_ex :
  Audit.normalize_title (py "Religion and {W}ell-Being:  A Study ")
  = py "religion and wellbeing a study".
Proof. vm_compute. reflexivity. Qed.

(** The example of the [difflib] documentation: the ratio depends on the
    order of the arguments. *)
Example matches_tide_diet :
  Difflib.matches (py "tide") (py "diet") = Some 1
  /\ Difflib.matches (py "diet") (py "tide") = Some 2.
Proof. vm_compute. split; reflexivity. Qed.

(** Brace, quote and digit values, a later duplicate and a stray name. *)
Example parse_fields_kinds :
  Clean.parse_fields
    (py "Title = {A {nested} one}, journal = " ++ [Py.dquote] ++ py "J. Relig."
     ++ [Py.dquote] ++ py ", year = 2020, pages = x, year = {1999}")
  = [(py "title", py "A {nested} one"); (py "journal", py "J. Relig.");
     (py "year", py "2020")].
Proof. vm_compute. reflexivity. Qed.

Example first_author_ex :
  Clean.get_first_author_lastname (py "Joseph A. B{\" ++ [Py.dquote] ++ py "u}lbulia and Doe, A.")
  = Some (py "Bulbulia").
Proof. vm_compute. reflexivity. Qed.

Example format_entry_ex :
  fst (Clean.format_entry Inputs.e_smith ∅)
  = py "@article{Smith_2020_10_1234_xy," ++ Layout.newline
    ++ py "  author = {Smith, J. and Doe, A.}," ++ Layout.newline
    ++ py "  year = {2020}," ++ Layout.newline
    ++ py "  doi = {10.1234/xy}" ++ Layout.newline ++ py "}".
Proof. vm_compute. reflexivity. Qed.
